(** * td-bot-platform: feature runtime and command dispatch core

    A shallow embedding of the bot runner's license manager
    ([license.ts]), command registry ([commands/registry.ts]), command
    parser ([commands/parser.ts]), command executor
    ([commands/executor.ts]) and feature loader ([features/loader.ts]),
    with the properties the platform specification states about them.

    Conventions of the embedding:
    - a JavaScript [Map] keyed by strings is a [gmap string _]; the one
      map whose iteration order is observable (the per-guild feature
      instances walked by [handleEvent]) is an insertion-ordered
      association list;
    - [Date.now()] and [new Date()] are explicit millisecond readings
      passed to the operation that takes them; a [Date] object handed in
      from outside is a time value or the invalid date;
    - a plain object used as a dictionary is the [gmap] of its own
      properties;
    - a [throw] inside a [try] block is a value of an error type, and the
      [catch] clause is the function that consumes it;
    - a promise is represented by the way it settles; a call of a
      feature's method either throws before returning or returns its
      promise, and the calls one operation makes are taken in the order
      the code issues them. *)

From Stdlib Require Import ZArith Lia Bool Ascii.
From stdpp Require Import gmap strings list pretty.

Local Open Scope Z_scope.

(** ** JavaScript values shared by all components *)

Module Js.

(** What a [catch (error)] clause can receive: an [Error] object with its
    message, or any other thrown value. *)
Inductive Thrown :=
| ErrorObj (message : string)
| NonError.

(** [error instanceof Error ? error.message : "Unknown error"] *)
Definition errorMessage (e : Thrown) : string :=
  match e with
  | ErrorObj m => m
  | NonError => "Unknown error"
  end.

(** The outcome of a computation that may throw, and of an awaited
    promise: fulfilled with a value or rejected with the thrown value. *)
Inductive Settled (A : Type) :=
| Fulfilled (a : A)
| Rejected (e : Thrown).
Arguments Fulfilled {A} a.
Arguments Rejected {A} e.

Definition bind {A B} (k : A -> Settled B) (m : Settled A) : Settled B :=
  match m with
  | Fulfilled a => k a
  | Rejected e => Rejected e
  end.

(** [Promise.allSettled(promises)] is fulfilled with the list of
    outcomes whatever the outcomes are. *)
Definition allSettled {A} (ps : list (Settled A)) : Settled (list (Settled A)) :=
  Fulfilled ps.

Definition isFulfilled {A} (m : Settled A) : bool :=
  match m with Fulfilled _ => true | Rejected _ => false end.

(** [Array.prototype.includes] on an array of strings. *)
Definition includes (l : list string) (x : string) : bool :=
  existsb (String.eqb x) l.

(** A value used as a condition: [0] is falsy, an absent property
    ([undefined]) is falsy. *)
Definition truthyZ (o : option Z) : bool :=
  match o with
  | Some z => negb (z =? 0)
  | None => false
  end.

Definition truthyB (o : option bool) : bool :=
  match o with
  | Some b => b
  | None => false
  end.

(** *** Code that mutates state and may throw

    [M S A] is a block of code running on a store [S]: it leaves a store
    behind and either returns an [A] or throws. What was written to the
    store before a [throw] stays written, as in JavaScript. *)
Definition M (S A : Type) : Type := S -> S * Settled A.

Definition ret {S A} (a : A) : M S A := fun s => (s, Fulfilled a).

Definition bindM {S A B} (m : M S A) (k : A -> M S B) : M S B :=
  fun s =>
    match m s with
    | (s', Fulfilled a) => k a s'
    | (s', Rejected e) => (s', Rejected e)
    end.

Definition throw {S A} (e : Thrown) : M S A := fun s => (s, Rejected e).

(** [try { body } catch (error) { handler }] *)
Definition tryCatch {S A} (body : M S A) (handler : Thrown -> M S A) : M S A :=
  fun s =>
    match body s with
    | (s', Fulfilled a) => (s', Fulfilled a)
    | (s', Rejected e) => handler e s'
    end.

Definition modify {S} (f : S -> S) : M S unit := fun s => (f s, Fulfilled tt).

Definition gets {S A} (f : S -> A) : M S A := fun s => (s, Fulfilled (f s)).

(** [await promise]: the value of a fulfilled promise, the rejection of
    a rejected one thrown at the point of the [await]. *)
Definition await {S A} (p : Settled A) : M S A := fun s => (s, p).

(** *** Log records

    A pino call [logger.level(fields, message)]; of the fields the
    embedding keeps the ones that are strings. *)
Inductive Level := LDebug | LInfo | LWarn | LError.

Record LogEntry := {
  level : Level;
  msg : string;
  fields : list (string * string);
}.

End Js.

(** Code that only computes and may throw is sequenced with stdpp's
    [x ← m; k]. *)
#[global] Instance settled_bind : MBind Js.Settled := @Js.bind.
#[global] Instance settled_ret : MRet Js.Settled := @Js.Fulfilled.

(** Sequencing of stateful code: [x <- m; k] runs [m], then [k] on its
    result unless [m] threw. *)
Notation "x <- m ; k" := (Js.bindM m (fun x => k))
  (at level 20, m at level 100, k at level 200, only parsing).

(** ** License manager ([license.ts]) *)

Module License.

(** A JavaScript [Date]: a time value in milliseconds, or the invalid
    date, whose time value is [NaN]. *)
Inductive Date :=
| DateAt (time : Z)
| InvalidDate.

(** An object of static type [License] as a caller hands it to
    [registerLicense]. The static type excludes neither an invalid date
    nor, once erased, a [type] outside the enumeration. The optional
    [metadata] record is never read by the manager and is left out. *)
Record LicenseObject := {
  obj_id : string;
  obj_guildId : string;
  obj_type : string;
  obj_features : list string;
  obj_issuedAt : Date;
  obj_expiresAt : option Date;
  obj_revokedAt : option Date;
}.

(** A license the manager holds. It passed [LicenseSchema], or had its
    revocation date set by the manager, so its dates are valid; they
    are given by their time values. *)
Record License := {
  id : string;
  guildId : string;
  type : string;
  features : list string;
  issuedAt : Z;
  expiresAt : option Z;
  revokedAt : option Z;
}.

Record LicenseValidationResult := {
  valid : bool;
  license : option License;
  reason : option string;
}.

(** [z.date()]: a valid date, by its time value. *)
Definition parseDate (d : Date) : option Z :=
  match d with
  | DateAt time => Some time
  | InvalidDate => None
  end.

(** [z.date().optional()] *)
Definition parseOptionalDate (d : option Date) : option (option Z) :=
  match d with
  | None => Some None
  | Some d' =>
      match parseDate d' with
      | Some time => Some (Some time)
      | None => None
      end
  end.

(** [LicenseSchema.parse(license)]: what the schema checks beyond the
    static types of the fields is [z.enum(["premium", "enterprise"])] on
    the type and [z.date()] on each date that is present. The result is
    the license with its dates by their time values; [None] stands for
    the [ZodError] thrown. *)
Definition LicenseSchema_parse (o : LicenseObject) : option License :=
  if String.eqb (obj_type o) "premium" || String.eqb (obj_type o) "enterprise" then
    match parseDate (obj_issuedAt o), parseOptionalDate (obj_expiresAt o),
          parseOptionalDate (obj_revokedAt o) with
    | Some issued, Some expires, Some revoked =>
        Some {| id := obj_id o; guildId := obj_guildId o; type := obj_type o;
                features := obj_features o; issuedAt := issued;
                expiresAt := expires; revokedAt := revoked |}
    | _, _, _ => None
    end
  else None.

Definition LicenseSchema_ok (o : LicenseObject) : bool :=
  match LicenseSchema_parse o with
  | Some _ => true
  | None => false
  end.

(** [license.expiresAt && license.expiresAt < new Date()] *)
Definition isExpired (l : License) (now : Z) : bool :=
  match expiresAt l with
  | Some e => e <? now
  | None => false
  end.

(** [license.revokedAt] used as a condition. *)
Definition isRevoked (l : License) : bool :=
  match revokedAt l with
  | Some _ => true
  | None => false
  end.

Definition notIncludedReason (featureKey : string) : string :=
  "Feature '" +:+ featureKey +:+ "' is not included in this license".

Definition validateFeatureAccess (licenses : gmap string License) (now : Z)
    (guild featureKey : string) : LicenseValidationResult :=
  match licenses !! guild with
  | None =>
      {| valid := false; license := None;
         reason := Some "No license found for this guild" |}
  | Some l =>
      if isExpired l now then
        {| valid := false; license := Some l; reason := Some "License has expired" |}
      else if isRevoked l then
        {| valid := false; license := Some l;
           reason := Some "License has been revoked" |}
      else if negb (Js.includes (features l) featureKey) then
        {| valid := false; license := Some l;
           reason := Some (notIncludedReason featureKey) |}
      else
        {| valid := true; license := Some l; reason := None |}
  end.

Definition hasPremiumAccess (licenses : gmap string License) (now : Z)
    (guild : string) : bool :=
  match licenses !! guild with
  | None => false
  | Some l =>
      let validation := validateFeatureAccess licenses now guild "" in
      valid validation
      || String.eqb (type l) "premium"
      || String.eqb (type l) "enterprise"
  end.

(** [registerLicense]: every [throw] of the [try] block ends in the
    [catch] that returns [false] and leaves the map as it was. The
    expiry and revocation tests run after the schema accepted the
    object, on valid dates. *)
Definition registerLicense (licenses : gmap string License) (now : Z)
    (o : LicenseObject) : bool * gmap string License :=
  match LicenseSchema_parse o with
  | None => (false, licenses)
  | Some l =>
      if isExpired l now then (false, licenses)
      else if isRevoked l then (false, licenses)
      else (true, <[guildId l := l]> licenses)
  end.

Definition setRevokedAt (l : License) (t : Z) : License :=
  {| id := id l; guildId := guildId l; type := type l; features := features l;
     issuedAt := issuedAt l; expiresAt := expiresAt l; revokedAt := Some t |}.

Definition revokeLicense (licenses : gmap string License) (now : Z)
    (guild : string) : bool * gmap string License :=
  match licenses !! guild with
  | None => (false, licenses)
  | Some l => (true, <[guild := setRevokedAt l now]> licenses)
  end.

Definition getLicense (licenses : gmap string License) (guild : string)
    : option License :=
  licenses !! guild.

(** [cleanupExpiredLicenses]: the loop over the entries deletes each
    license that is expired at [now] and counts the deletions. *)
Definition cleanupExpiredLicenses (licenses : gmap string License) (now : Z)
    : nat * gmap string License :=
  map_fold
    (fun guild l acc =>
       if isExpired l now then (S (fst acc), delete guild (snd acc)) else acc)
    (0%nat, licenses) licenses.

Definition withFeatures (l : License) (fs : list string) : License :=
  {| id := id l; guildId := guildId l; type := type l; features := fs;
     issuedAt := issuedAt l; expiresAt := expiresAt l; revokedAt := revokedAt l |}.

End License.

(** ** Command parser ([commands/parser.ts]) *)

Module Parser.

Inductive ArgType :=
| TString | TInteger | TBoolean | TUser | TChannel | TRole
| TMentionable | TNumber | TAttachment.

#[global] Instance ArgType_eq_dec : EqDecision ArgType.
Proof. solve_decision. Defined.

Definition typeName (t : ArgType) : string :=
  match t with
  | TString => "string" | TInteger => "integer" | TBoolean => "boolean"
  | TUser => "user" | TChannel => "channel" | TRole => "role"
  | TMentionable => "mentionable" | TNumber => "number"
  | TAttachment => "attachment"
  end.

(** [string | number]: the value of a declared choice. Numbers are
    integers here. *)
Inductive ChoiceValue :=
| CStr (s : string)
| CNum (n : Z).

Record Choice := {
  choice_name : string;
  choice_value : ChoiceValue;
}.

(** [CommandArgument] *)
Record CommandArgument := {
  name : string;
  description : string;
  type : ArgType;
  required : option bool;
  choices : option (list Choice);
  minValue : option Z;
  maxValue : option Z;
  minLength : option Z;
  maxLength : option Z;
  autocomplete : option bool;
}.

(** A resolved option value: a primitive, or a reference to a user,
    channel, role or attachment resolved by the transport library. *)
Inductive Value :=
| VString (s : string)
| VNumber (n : Z)
| VBoolean (b : bool)
| VObject (ref : string).

#[global] Instance Value_eq_dec : EqDecision Value.
Proof. solve_decision. Defined.

(** [choice.value.toString()] *)
Definition choiceToString (v : ChoiceValue) : string :=
  match v with
  | CStr s => s
  | CNum n => pretty n
  end.

(** [validValues.includes(value)]: strict equality of a choice value
    with the supplied value. *)
Definition choiceEquals (value : Value) (c : ChoiceValue) : bool :=
  match c, value with
  | CStr s, VString s' => String.eqb s s'
  | CNum n, VNumber n' => n =? n'
  | _, _ => false
  end.

(** [validValues.join(", ")] *)
Fixpoint join (sep : string) (l : list string) : string :=
  match l with
  | [] => ""
  | [x] => x
  | x :: rest => x +:+ sep +:+ join sep rest
  end.

(** [ApplicationCommandOptionType], as the transport library numbers
    the option types. *)
Definition typeCode (t : ArgType) : Z :=
  match t with
  | TString => 3 | TInteger => 4 | TBoolean => 5 | TUser => 6 | TChannel => 7
  | TRole => 8 | TMentionable => 9 | TNumber => 10 | TAttachment => 11
  end.

(** A [CommandInteractionOption] as the option resolver of the
    transport library reads it: the type recorded for the option, its
    primitive [value], and the objects resolved for it, each by a
    reference. Any of them may be missing. *)
Record CommandOption := {
  option_type : ArgType;
  option_value : option Value;
  option_user : option string;
  option_member : option string;
  option_role : option string;
  option_channel : option string;
  option_attachment : option string;
}.

(** The options an invocation carries, by name. *)
Definition Options := gmap string CommandOption.

(** The double quote character. *)
Definition quote : string := String (ascii_of_nat 34) EmptyString.

(** The [TypeError] of the resolver for an option of another type than
    the getter allows. *)
Definition optionTypeError (name : string) (found : ArgType) (allowed : list ArgType)
    : Js.Thrown :=
  Js.ErrorObj
    ("Option " +:+ quote +:+ name +:+ quote +:+ " is of type: " +:+ pretty (typeCode found)
     +:+ "; expected " +:+ join ", " (map (fun t => pretty (typeCode t)) allowed) +:+ ".").

(** [_getTypedOption(name, allowedTypes, properties, false)]: [null]
    for an absent option, the option when its type is one of the
    allowed ones, a [TypeError] otherwise. *)
Definition getTypedOption (options : Options) (name : string) (allowed : list ArgType)
    : Js.Settled (option CommandOption) :=
  match options !! name with
  | None => Js.Fulfilled None
  | Some o =>
      if bool_decide (option_type o ∈ allowed) then Js.Fulfilled (Some o)
      else Js.Rejected (optionTypeError name (option_type o) allowed)
  end.

(** [option?.[property] ?? null] *)
Definition property {A} (read : CommandOption -> option A) (wrap : A -> Value)
    (o : option CommandOption) : option Value :=
  match o with
  | Some o' =>
      match read o' with
      | Some x => Some (wrap x)
      | None => None
      end
  | None => None
  end.

(** The getters of the resolver that [extractArgumentValue] calls, each
    without [required]. [getUser] and [getRole] also take a mentionable
    option; [getMentionable] prefers the member over the user over the
    role. *)
Definition getString (options : Options) (name : string) : Js.Settled (option Value) :=
  o ← getTypedOption options name [TString];
  Js.Fulfilled (property option_value (fun v => v) o).

Definition getInteger (options : Options) (name : string) : Js.Settled (option Value) :=
  o ← getTypedOption options name [TInteger];
  Js.Fulfilled (property option_value (fun v => v) o).

Definition getBoolean (options : Options) (name : string) : Js.Settled (option Value) :=
  o ← getTypedOption options name [TBoolean];
  Js.Fulfilled (property option_value (fun v => v) o).

Definition getNumber (options : Options) (name : string) : Js.Settled (option Value) :=
  o ← getTypedOption options name [TNumber];
  Js.Fulfilled (property option_value (fun v => v) o).

Definition getUser (options : Options) (name : string) : Js.Settled (option Value) :=
  o ← getTypedOption options name [TUser; TMentionable];
  Js.Fulfilled (property option_user VObject o).

Definition getChannel (options : Options) (name : string) : Js.Settled (option Value) :=
  o ← getTypedOption options name [TChannel];
  Js.Fulfilled (property option_channel VObject o).

Definition getRole (options : Options) (name : string) : Js.Settled (option Value) :=
  o ← getTypedOption options name [TRole; TMentionable];
  Js.Fulfilled (property option_role VObject o).

Definition getMentionable (options : Options) (name : string)
    : Js.Settled (option Value) :=
  o ← getTypedOption options name [TMentionable];
  Js.Fulfilled
    (match property option_member VObject o with
     | Some member => Some member
     | None =>
         match property option_user VObject o with
         | Some user => Some user
         | None => property option_role VObject o
         end
     end).

Definition getAttachment (options : Options) (name : string)
    : Js.Settled (option Value) :=
  o ← getTypedOption options name [TAttachment];
  Js.Fulfilled (property option_attachment VObject o).

(** [extractArgumentValue]: its [catch] logs and rethrows. *)
Definition extractArgumentValue (options : Options) (argDef : CommandArgument)
    : Js.Settled (option Value) :=
  match type argDef with
  | TString => getString options (name argDef)
  | TInteger => getInteger options (name argDef)
  | TBoolean => getBoolean options (name argDef)
  | TNumber => getNumber options (name argDef)
  | TUser => getUser options (name argDef)
  | TChannel => getChannel options (name argDef)
  | TRole => getRole options (name argDef)
  | TMentionable => getMentionable options (name argDef)
  | TAttachment => getAttachment options (name argDef)
  end.

Definition typeofValue (v : Value) : string :=
  match v with
  | VString _ => "string"
  | VNumber _ => "number"
  | VBoolean _ => "boolean"
  | VObject _ => "object"
  end.

Definition strlen (s : string) : Z := Z.of_nat (String.length s).

(** The [switch (argDef.type)] of [validateArgumentType]. *)
Definition validateTypeSwitch (value : Value) (argDef : CommandArgument)
    : Js.Settled unit :=
  match type argDef with
  | TString =>
      match value with
      | VString s =>
          if Js.truthyZ (minLength argDef)
             && (strlen s <? default 0 (minLength argDef))
          then Js.Rejected (Js.ErrorObj
                 ("String too short. Minimum length: "
                  +:+ pretty (default 0 (minLength argDef))))
          else if Js.truthyZ (maxLength argDef)
                  && (default 0 (maxLength argDef) <? strlen s)
          then Js.Rejected (Js.ErrorObj
                 ("String too long. Maximum length: "
                  +:+ pretty (default 0 (maxLength argDef))))
          else Js.Fulfilled tt
      | _ => Js.Rejected (Js.ErrorObj ("Expected string, got " +:+ typeofValue value))
      end
  | TInteger | TNumber =>
      match value with
      | VNumber n =>
          if match minValue argDef with Some lo => n <? lo | None => false end
          then Js.Rejected (Js.ErrorObj
                 ("Value too small. Minimum: " +:+ pretty (default 0 (minValue argDef))))
          else if match maxValue argDef with Some hi => hi <? n | None => false end
          then Js.Rejected (Js.ErrorObj
                 ("Value too large. Maximum: " +:+ pretty (default 0 (maxValue argDef))))
          else Js.Fulfilled tt
      | _ => Js.Rejected (Js.ErrorObj ("Expected number, got " +:+ typeofValue value))
      end
  | TBoolean =>
      match value with
      | VBoolean _ => Js.Fulfilled tt
      | _ => Js.Rejected (Js.ErrorObj ("Expected boolean, got " +:+ typeofValue value))
      end
  | TUser | TChannel | TRole | TMentionable | TAttachment =>
      match value with
      | VString "" | VNumber 0 | VBoolean false =>
          Js.Rejected (Js.ErrorObj
            ("Invalid " +:+ typeName (type argDef) +:+ " provided"))
      | _ => Js.Fulfilled tt
      end
  end.

Definition validateArgumentType (value : Value) (argDef : CommandArgument)
    : Js.Settled Value :=
  _ ← validateTypeSwitch value argDef;
  match choices argDef with
  | Some (c :: cs) =>
      let validValues := map choice_value (c :: cs) in
      if existsb (choiceEquals value) validValues then Js.Fulfilled value
      else Js.Rejected (Js.ErrorObj
             ("Invalid choice. Valid options: "
              +:+ join ", " (map choiceToString validValues)))
  | _ => Js.Fulfilled value
  end.

(** [ParsedArguments]: the own properties of the result object. *)
Definition ParsedArguments := gmap string Value.

(** [args[argDef.name] = value] on the plain object [args]. The key
    [__proto__] names the accessor inherited from [Object.prototype]:
    assigning to it creates no own property. *)
Definition assign (args : ParsedArguments) (k : string) (v : Value)
    : ParsedArguments :=
  if String.eqb k "__proto__" then args else <[k := v]> args.

Fixpoint parseLoop (options : Options) (defs : list CommandArgument)
    (args : ParsedArguments) : Js.Settled ParsedArguments :=
  match defs with
  | [] => Js.Fulfilled args
  | argDef :: rest =>
      value ← extractArgumentValue options argDef;
      match value with
      | None =>
          if Js.truthyB (required argDef)
          then Js.Rejected (Js.ErrorObj
                 ("Required argument '" +:+ name argDef +:+ "' is missing"))
          else parseLoop options rest args
      | Some v =>
          v' ← validateArgumentType v argDef;
          parseLoop options rest (assign args (name argDef) v')
      end
  end.

(** [parseArguments]: its [catch] logs and rethrows, so the caller sees
    the error of the loop unchanged. *)
Definition parseArguments (options : Options) (argumentDefinitions : list CommandArgument)
    : Js.Settled ParsedArguments :=
  parseLoop options argumentDefinitions ∅.

(** *** Autocomplete *)

(** [String.prototype.toLowerCase], on the ASCII letters. *)
Definition lowerAscii (c : ascii) : ascii :=
  let n := nat_of_ascii c in
  if ((65 <=? n) && (n <=? 90))%nat then ascii_of_nat (n + 32) else c.

Fixpoint toLowerCase (s : string) : string :=
  match s with
  | EmptyString => EmptyString
  | String c rest => String (lowerAscii c) (toLowerCase rest)
  end.

(** [String.prototype.startsWith] *)
Fixpoint startsWith (s needle : string) : bool :=
  match needle, s with
  | EmptyString, _ => true
  | String _ _, EmptyString => false
  | String a needle', String b s' => Ascii.eqb a b && startsWith s' needle'
  end.

(** [String.prototype.includes]: the needle starts at some position. *)
Fixpoint strIncludes (s needle : string) : bool :=
  startsWith s needle
  || match s with
     | EmptyString => false
     | String _ s' => strIncludes s' needle
     end.

(** An autocomplete candidate, [{ name, value }]. *)
Record AcOption := {
  opt_name : string;
  opt_value : string;
}.

(** The focused option of an autocomplete interaction. *)
Record Focused := {
  focused_name : string;
  focused_value : string;
}.

(** What the parser uses of an [AutocompleteInteraction]:
    [options.getFocused(true)], which the transport library makes throw
    when no option is focused, and [respond], whose promise is rejected
    when the transport refuses the answer. *)
Record AutocompleteInteraction := {
  ac_commandName : string;
  getFocused : Js.Settled Focused;
  respond : list AcOption -> Js.Settled unit;
}.

(** The store of an autocomplete run: the answers handed to [respond]
    and the log. *)
Record AcStore := {
  responded : list (list AcOption);
  ac_logs : list Js.LogEntry;
}.

Definition AcStore_empty : AcStore := {| responded := []; ac_logs := [] |}.

Definition ac_log (lvl : Js.Level) (m : string) (fs : list (string * string))
    : Js.M AcStore unit :=
  Js.modify (fun st =>
    {| responded := responded st;
       ac_logs := ac_logs st ++ [{| Js.level := lvl; Js.msg := m; Js.fields := fs |}] |}).

(** [await interaction.respond(candidates)]: the call is made, then its
    promise awaited. *)
Definition ac_respond (i : AutocompleteInteraction) (candidates : list AcOption)
    : Js.M AcStore unit :=
  _ <- Js.modify (fun st =>
        {| responded := responded st ++ [candidates]; ac_logs := ac_logs st |});
  Js.await (respond i candidates).

Definition Supplier := string -> string -> Js.Settled (list AcOption).

(** The filter predicate of [handleAutocomplete]. *)
Definition matchesFocused (focusedValue : string) (option : AcOption) : bool :=
  strIncludes (toLowerCase (opt_name option)) (toLowerCase focusedValue)
  || strIncludes (toLowerCase (opt_value option)) (toLowerCase focusedValue).

Definition choiceOptions (argDef : CommandArgument) : list AcOption :=
  match choices argDef with
  | Some cs =>
      map (fun choice =>
             {| opt_name := choice_name choice;
                opt_value := choiceToString (choice_value choice) |}) cs
  | None => []
  end.

Definition handleAutocomplete_try (interaction : AutocompleteInteraction)
    (argumentDefinitions : list CommandArgument)
    (getAutocompleteOptions : option Supplier) : Js.M AcStore unit :=
  focusedOption <- Js.await (getFocused interaction);
  match List.find (fun arg => String.eqb (name arg) (focused_name focusedOption))
                  argumentDefinitions with
  | None => Js.ret tt
  | Some argDef =>
      if negb (Js.truthyB (autocomplete argDef)) then Js.ret tt
      else
        options <-
          match getAutocompleteOptions with
          | Some supplier =>
              Js.await (supplier (focused_name focusedOption)
                                 (focused_value focusedOption))
          | None => Js.ret (choiceOptions argDef)
          end;
        let filtered := List.filter (matchesFocused (focused_value focusedOption)) options in
        _ <- ac_respond interaction (take 25 filtered);
        ac_log Js.LDebug "Autocomplete handled"
          [("command", ac_commandName interaction);
           ("arg", focused_name focusedOption);
           ("query", focused_value focusedOption)]
  end.

(** [handleAutocomplete]: the [catch] logs the error and does not
    rethrow. *)
Definition handleAutocomplete (interaction : AutocompleteInteraction)
    (argumentDefinitions : list CommandArgument)
    (getAutocompleteOptions : option Supplier) : Js.M AcStore unit :=
  Js.tryCatch
    (handleAutocomplete_try interaction argumentDefinitions getAutocompleteOptions)
    (fun error =>
       ac_log Js.LError "Autocomplete failed"
         [("command", ac_commandName interaction)]).

End Parser.

(** ** Command registry ([commands/registry.ts]) *)

Module Registry.

(** [CommandMetadata]. The cooldown is in whole seconds. *)
Record CommandMetadata := {
  name : string;
  description : string;
  category : option string;
  permissions : option (list string);
  roles : option (list string);
  cooldown : Z;
  guildOnly : bool;
  ownerOnly : bool;
  premiumOnly : bool;
  enabled : bool;
  aliases : option (list string);
  arguments : option (list Parser.CommandArgument);
}.

Record GuildInfo := {
  guild_id : string;
  guild_name : string;
  memberCount : Z;
}.

Record UserInfo := {
  user_id : string;
  username : string;
  discriminator : string;
  isOwner : bool;
}.

(** What the dispatcher reads of a [GuildMember]: [permissions.has] and
    [roles.cache.has], either of which may be missing on the object. *)
Record GuildMember := {
  member_permissions : option (string -> bool);
  member_roles : option (string -> bool);
}.

(** [CommandContext], without the handles on the client, the logger and
    the interaction; [args] is the property the executor adds once the
    arguments are parsed. *)
Record CommandContext := {
  guild : option GuildInfo;
  user : UserInfo;
  member : option GuildMember;
  hasPermission : string -> bool;
  hasRole : string -> bool;
  isPremium : bool;
  hasFeatureAccess : string -> bool;
  args : Parser.ParsedArguments;
}.

(** A [SlashCommandBuilder] as far as the registry fills it in. *)
Record Builder := {
  builder_name : string;
  builder_description : string;
  builder_options : list (string * string * bool);
}.

(** The run of a command handler's [execute]: how its promise settles,
    and whether the handler replied to (or deferred) the interaction on
    the way. *)
Record HandlerRun := {
  settled : Js.Settled unit;
  acknowledged : bool;
}.

(** [CommandHandler] *)
Record CommandHandler := {
  metadata : CommandMetadata;
  execute : CommandContext -> HandlerRun;
  builder : option Builder;
  autocompleteOptions : option Parser.Supplier;
}.

(** The three maps of a [CommandRegistry]. *)
Record Registry := {
  commands : gmap string CommandHandler;
  aliasMap : gmap string string;
  cooldowns : gmap string (gmap string Z);
}.

Definition empty : Registry :=
  {| commands := ∅; aliasMap := ∅; cooldowns := ∅ |}.

(** [CommandMetadataSchema.parse]: the constraints beyond the static
    types, on the name, the description and the cooldown. *)
Definition CommandMetadataSchema_ok (m : CommandMetadata) : bool :=
  (1 <=? Parser.strlen (name m)) && (Parser.strlen (name m) <=? 32)
  && (1 <=? Parser.strlen (description m)) && (Parser.strlen (description m) <=? 100)
  && (0 <=? cooldown m).

Definition withBuilder (c : CommandHandler) (b : Builder) : CommandHandler :=
  {| metadata := metadata c; execute := execute c; builder := Some b;
     autocompleteOptions := autocompleteOptions c |}.

Definition setCommands (f : gmap string CommandHandler -> gmap string CommandHandler)
    (r : Registry) : Registry :=
  {| commands := f (commands r); aliasMap := aliasMap r; cooldowns := cooldowns r |}.

Definition setAliasMap (f : gmap string string -> gmap string string)
    (r : Registry) : Registry :=
  {| commands := commands r; aliasMap := f (aliasMap r); cooldowns := cooldowns r |}.

Definition setCooldowns (f : gmap string (gmap string Z) -> gmap string (gmap string Z))
    (r : Registry) : Registry :=
  {| commands := commands r; aliasMap := aliasMap r; cooldowns := f (cooldowns r) |}.

(** The store [register] and [deregister] run on: the registry and its
    log. *)
Record Store := {
  registry : Registry;
  logs : list Js.LogEntry;
}.

Definition log (lvl : Js.Level) (m : string) (fs : list (string * string))
    : Js.M Store unit :=
  Js.modify (fun st =>
    {| registry := registry st;
       logs := logs st ++ [{| Js.level := lvl; Js.msg := m; Js.fields := fs |}] |}).

Definition update (f : Registry -> Registry) : Js.M Store unit :=
  Js.modify (fun st => {| registry := f (registry st); logs := logs st |}).

(** The alias loop of [register]. *)
Fixpoint registerAliases (als : list string) (name : string) : Js.M Store unit :=
  match als with
  | [] => Js.ret tt
  | alias :: rest =>
      existing <- Js.gets (fun st => aliasMap (registry st) !! alias);
      _ <- match existing with
          | Some existingCommand =>
              log Js.LWarn "Alias conflict, skipping"
                [("alias", alias); ("existingCommand", existingCommand)]
          | None =>
              _ <- update (setAliasMap (insert alias name));
              log Js.LDebug "Alias registered" [("alias", alias); ("command", name)]
          end;
      registerAliases rest name
  end.

(** [register]. [newBuilder] stands for the construction of the
    [SlashCommandBuilder] from the metadata, which the transport library
    makes throw on a name, description or option it rejects. *)
Definition register (newBuilder : CommandMetadata -> Js.Settled Builder)
    (command : CommandHandler) : Js.M Store bool :=
  Js.tryCatch
    (let name := name (metadata command) in
     _ <- (if CommandMetadataSchema_ok (metadata command) then Js.ret tt
          else Js.throw (Js.ErrorObj "Invalid command metadata"));
     known <- Js.gets (fun st => bool_decide (is_Some (commands (registry st) !! name)));
     _ <- (if known
          then log Js.LWarn "Command already registered, overwriting" [("command", name)]
          else Js.ret tt);
     command' <-
       match builder command with
       | Some _ => Js.ret command
       | None =>
           b <- Js.await (newBuilder (metadata command));
           Js.ret (withBuilder command b)
       end;
     _ <- update (setCommands (insert name command'));
     _ <- log Js.LInfo "Command registered" [("command", name)];
     _ <- match aliases (metadata command) with
         | Some als => registerAliases als name
         | None => Js.ret tt
         end;
     Js.ret true)
    (fun error =>
       _ <- log Js.LError "Failed to register command"
             [("command", name (metadata command))];
       Js.ret false).

Definition deregister (name : string) : Js.M Store bool :=
  command <- Js.gets (fun st => commands (registry st) !! name);
  match command with
  | None =>
      _ <- log Js.LWarn "Command not found for deregistration" [("command", name)];
      Js.ret false
  | Some c =>
      _ <- update (setCommands (delete name));
      _ <- update (setAliasMap (fun m =>
             foldl (fun m alias => delete alias m) m (default [] (aliases (metadata c)))));
      _ <- update (setCooldowns (delete name));
      _ <- log Js.LInfo "Command deregistered" [("command", name)];
      Js.ret true
  end.

(** [get]: the direct name first, then the alias table; an alias whose
    target is the empty string is falsy and resolves to nothing. *)
Definition get (r : Registry) (name : string) : option CommandHandler :=
  match commands r !! name with
  | Some c => Some c
  | None =>
      match aliasMap r !! name with
      | Some realName =>
          if String.eqb realName "" then None else commands r !! realName
      | None => None
      end
  end.

(** [isOnCooldown]: the remaining milliseconds at time [now]; an
    absent entry and a stored [0] are both falsy. *)
Definition isOnCooldown (r : Registry) (now : Z) (commandName userId : string) : Z :=
  match cooldowns r !! commandName with
  | None => 0
  | Some commandCooldowns =>
      match commandCooldowns !! userId with
      | None => 0
      | Some userCooldown =>
          if userCooldown =? 0 then 0
          else Z.max 0 (userCooldown - now)
      end
  end.

Definition setCooldown (r : Registry) (now : Z) (commandName userId : string)
    (durationMs : Z) : Registry :=
  let commandCooldowns := default ∅ (cooldowns r !! commandName) in
  setCooldowns (insert commandName (<[userId := now + durationMs]> commandCooldowns)) r.

Definition clearCooldown (r : Registry) (commandName userId : string) : Registry :=
  match cooldowns r !! commandName with
  | Some commandCooldowns =>
      setCooldowns (insert commandName (delete userId commandCooldowns)) r
  | None => r
  end.

Definition setMetadataEnabled (m : CommandMetadata) (b : bool) : CommandMetadata :=
  {| name := name m; description := description m; category := category m;
     permissions := permissions m; roles := roles m; cooldown := cooldown m;
     guildOnly := guildOnly m; ownerOnly := ownerOnly m;
     premiumOnly := premiumOnly m; enabled := b; aliases := aliases m;
     arguments := arguments m |}.

Definition setEnabled (r : Registry) (name : string) (b : bool) : bool * Registry :=
  match commands r !! name with
  | None => (false, r)
  | Some c =>
      (true,
       setCommands (insert name
         {| metadata := setMetadataEnabled (metadata c) b; execute := execute c;
            builder := builder c; autocompleteOptions := autocompleteOptions c |}) r)
  end.

Definition clearAllCooldowns (r : Registry) : Registry :=
  setCooldowns (fun _ => ∅) r.

End Registry.

(** ** Command executor ([commands/executor.ts]) *)

Module Executor.

Record InteractionUser := {
  id : string;
  username : string;
  discriminator : string;
}.

(** What the executor reads of a [ChatInputCommandInteraction]. [reply]
    and [editReply] are the transport calls, whose promises may be
    rejected; the text they are given is the error message that follows
    the cross mark in the reply's content. *)
Record Interaction := {
  commandName : string;
  user : InteractionUser;
  guildId : option string;
  guild : option Registry.GuildInfo;
  member : option Registry.GuildMember;
  options : Parser.Options;
  deferred : bool;
  replied : bool;
  reply : string -> Js.Settled unit;
  editReply : string -> Js.Settled unit;
}.

(** The readings of the clock one invocation takes, in the order it
    takes them: [startTime], the [Date.now()] of [isOnCooldown], the
    [new Date()] of the license validation, the [Date.now()] of
    [setCooldown], and the one that closes [duration]. *)
Record Clock := {
  startTime : Z;
  cooldownCheck : Z;
  licenseCheck : Z;
  cooldownSet : Z;
  endTime : Z;
}.

Record CommandExecutionResult := {
  success : bool;
  error : option string;
  duration : Z;
  command : string;
  resultUser : string;
  resultGuild : option string;
}.

(** The commented blocks of the [try] body of [executeCommand], in
    source order. *)
Inductive Stage :=
| GetHandler
| CheckEnabled
| CheckCooldown
| CreateContext
| CheckPermissions
| CheckPremium
| ParseArguments
| ExecuteCommand
| SetCooldown.

#[global] Instance Stage_eq_dec : EqDecision Stage.
Proof. solve_decision. Defined.

Inductive ReplyKind := Reply | EditReply.

(** The store an invocation runs on: the registry, the blocks entered
    so far, the error replies handed to the transport, the log, and
    whether the handler acknowledged the interaction. *)
Record Store := {
  registry : Registry.Registry;
  trace : list Stage;
  replies : list (ReplyKind * string);
  logs : list Js.LogEntry;
  acked : bool;
}.

Definition initial (r : Registry.Registry) : Store :=
  {| registry := r; trace := []; replies := []; logs := []; acked := false |}.

Definition enter (s : Stage) : Js.M Store unit :=
  Js.modify (fun st =>
    {| registry := registry st; trace := trace st ++ [s]; replies := replies st;
       logs := logs st; acked := acked st |}).

Definition log (lvl : Js.Level) (m : string) (fs : list (string * string))
    : Js.M Store unit :=
  Js.modify (fun st =>
    {| registry := registry st; trace := trace st; replies := replies st;
       logs := logs st ++ [{| Js.level := lvl; Js.msg := m; Js.fields := fs |}];
       acked := acked st |}).

Definition update (f : Registry.Registry -> Registry.Registry) : Js.M Store unit :=
  Js.modify (fun st =>
    {| registry := f (registry st); trace := trace st; replies := replies st;
       logs := logs st; acked := acked st |}).

Definition acknowledge (b : bool) : Js.M Store unit :=
  Js.modify (fun st =>
    {| registry := registry st; trace := trace st; replies := replies st;
       logs := logs st; acked := acked st || b |}).

Definition send (kind : ReplyKind) (i : Interaction) (text : string)
    : Js.M Store unit :=
  _ <- Js.modify (fun st =>
         {| registry := registry st; trace := trace st;
            replies := replies st ++ [(kind, text)];
            logs := logs st; acked := acked st |});
  Js.await (match kind with
            | Reply => reply i text
            | EditReply => editReply i text
            end).

(** [String.prototype.split(",")] *)
Fixpoint splitComma (s : string) : list string :=
  match s with
  | EmptyString => [""]
  | String c rest =>
      if Ascii.eqb c "," then "" :: splitComma rest
      else
        match splitComma rest with
        | [] => [String c ""]
        | x :: xs => String c x :: xs
        end
  end.

(** [process.env.OWNER_IDS?.split(",") || []] *)
Definition ownerIds (OWNER_IDS : option string) : list string :=
  match OWNER_IDS with
  | Some s => splitComma s
  | None => []
  end.

(** [x || fallback] on strings. *)
Definition orElse (x fallback : string) : string :=
  if String.eqb x "" then fallback else x.

(** [createCommandContext]. The license manager is read at the clock's
    [licenseCheck] reading. *)
Definition createCommandContext (licenses : gmap string License.License)
    (OWNER_IDS : option string) (clock : Clock) (interaction : Interaction)
    : Registry.CommandContext :=
  let guild := guild interaction in
  let member := member interaction in
  let isOwner := Js.includes (ownerIds OWNER_IDS) (id (user interaction)) in
  let isPremium :=
    License.hasPremiumAccess licenses (licenseCheck clock)
      (match guild with Some g => orElse (Registry.guild_id g) "" | None => "" end) in
  {| Registry.guild := guild;
     Registry.user :=
       {| Registry.user_id := id (user interaction);
          Registry.username := orElse (username (user interaction)) "Unknown";
          Registry.discriminator := orElse (discriminator (user interaction)) "0000";
          Registry.isOwner := isOwner |};
     Registry.member := member;
     Registry.hasPermission := fun permission =>
       match member with
       | None => false
       | Some m =>
           match Registry.member_permissions m with
           | Some has => has permission
           | None => false
           end
       end;
     Registry.hasRole := fun roleId =>
       match member with
       | None => false
       | Some m =>
           match Registry.member_roles m with
           | Some has => has roleId
           | None => false
           end
       end;
     Registry.isPremium := isPremium;
     Registry.hasFeatureAccess := fun featureKey =>
       match guild with
       | None => false
       | Some g =>
           License.valid
             (License.validateFeatureAccess licenses (licenseCheck clock)
                (Registry.guild_id g) featureKey)
       end;
     Registry.args := ∅ |}.

Definition withArgs (c : Registry.CommandContext) (parsedArgs : Parser.ParsedArguments)
    : Registry.CommandContext :=
  {| Registry.guild := Registry.guild c; Registry.user := Registry.user c;
     Registry.member := Registry.member c;
     Registry.hasPermission := Registry.hasPermission c;
     Registry.hasRole := Registry.hasRole c;
     Registry.isPremium := Registry.isPremium c;
     Registry.hasFeatureAccess := Registry.hasFeatureAccess c;
     Registry.args := parsedArgs |}.

(** [checkPermissions] *)
Definition checkPermissions (context : Registry.CommandContext)
    (handler : Registry.CommandHandler) : bool :=
  let metadata := Registry.metadata handler in
  if Registry.ownerOnly metadata && negb (Registry.isOwner (Registry.user context))
  then false
  else if Registry.guildOnly metadata
          && negb (bool_decide (is_Some (Registry.guild context)))
  then false
  else if negb (forallb (Registry.hasPermission context)
                  (default [] (Registry.permissions metadata)))
  then false
  else if negb (forallb (Registry.hasRole context)
                  (default [] (Registry.roles metadata)))
  then false
  else true.

(** [Math.ceil(ms / 1000)] *)
Definition ceilSeconds (ms : Z) : Z := - ((- ms) / 1000).

Definition unknownCommandMessage (commandName : string) : string :=
  "Unknown command: " +:+ commandName.

Definition disabledMessage (commandName : string) : string :=
  "Command '" +:+ commandName +:+ "' is currently disabled".

Definition cooldownMessage (cooldownRemaining : Z) : string :=
  "Command is on cooldown. Try again in "
  +:+ pretty (ceilSeconds cooldownRemaining) +:+ " seconds.".

Definition permissionMessage : string :=
  "You don't have permission to use this command.".

Definition premiumMessage : string :=
  "This command requires a premium subscription.".

(** The [try] body of [executeCommand] up to the cooldown write. *)
Definition runPipeline (licenses : gmap string License.License)
    (OWNER_IDS : option string) (clock : Clock) (interaction : Interaction)
    : Js.M Store unit :=
  let commandName := commandName interaction in
  let userId := id (user interaction) in
  _ <- enter GetHandler;
  found <- Js.gets (fun st => Registry.get (registry st) commandName);
  match found with
  | None => Js.throw (Js.ErrorObj (unknownCommandMessage commandName))
  | Some handler =>
      let metadata := Registry.metadata handler in
      _ <- enter CheckEnabled;
      if negb (Registry.enabled metadata)
      then Js.throw (Js.ErrorObj (disabledMessage commandName))
      else
        _ <- enter CheckCooldown;
        cooldownRemaining <-
          Js.gets (fun st =>
            Registry.isOnCooldown (registry st) (cooldownCheck clock) commandName userId);
        if 0 <? cooldownRemaining
        then Js.throw (Js.ErrorObj (cooldownMessage cooldownRemaining))
        else
          _ <- enter CreateContext;
          let context := createCommandContext licenses OWNER_IDS clock interaction in
          _ <- enter CheckPermissions;
          if negb (checkPermissions context handler)
          then Js.throw (Js.ErrorObj permissionMessage)
          else
            _ <- enter CheckPremium;
            if Registry.premiumOnly metadata && negb (Registry.isPremium context)
            then Js.throw (Js.ErrorObj premiumMessage)
            else
              _ <- enter ParseArguments;
              parsedArgs <-
                match Registry.arguments metadata with
                | Some defs => Js.await (Parser.parseArguments (options interaction) defs)
                | None => Js.ret ∅
                end;
              let context := withArgs context parsedArgs in
              _ <- log Js.LInfo "Executing command"
                     [("command", commandName); ("user", userId)];
              _ <- enter ExecuteCommand;
              let run := Registry.execute handler context in
              _ <- acknowledge (Registry.acknowledged run);
              _ <- Js.await (Registry.settled run);
              _ <- enter SetCooldown;
              if negb (Registry.cooldown metadata =? 0) && (0 <? Registry.cooldown metadata)
              then update (fun r =>
                     Registry.setCooldown r (cooldownSet clock) commandName userId
                       (Registry.cooldown metadata * 1000))
              else Js.ret tt
  end.

(** [executeCommand] *)
Definition executeCommand (licenses : gmap string License.License)
    (OWNER_IDS : option string) (clock : Clock) (interaction : Interaction)
    : Js.M Store CommandExecutionResult :=
  let commandName := commandName interaction in
  let userId := id (user interaction) in
  let guildId := guildId interaction in
  let duration := endTime clock - startTime clock in
  Js.tryCatch
    (_ <- runPipeline licenses OWNER_IDS clock interaction;
     _ <- log Js.LInfo "Command executed successfully"
            [("command", commandName); ("user", userId)];
     Js.ret {| success := true; error := None; duration := duration;
               command := commandName; resultUser := userId;
               resultGuild := guildId |})
    (fun error =>
       let errorMessage := Js.errorMessage error in
       _ <- log Js.LError "Command execution failed"
              [("error", errorMessage); ("command", commandName); ("user", userId)];
       _ <- Js.tryCatch
              (acknowledged <- Js.gets acked;
               if deferred interaction || replied interaction || acknowledged
               then send EditReply interaction errorMessage
               else send Reply interaction errorMessage)
              (fun replyError => log Js.LError "Failed to send error reply" []);
       Js.ret {| success := false; error := Some errorMessage; duration := duration;
                 command := commandName; resultUser := userId;
                 resultGuild := guildId |}).

(** What the executor reads of an [AutocompleteInteraction]: the
    fields [createCommandContext] reads of it, seen through the record
    of a command interaction, and the focused option and [respond] the
    parser uses. *)
Record AutocompleteRequest := {
  request : Interaction;
  transport : Parser.AutocompleteInteraction;
}.

(** [handleAutocomplete] of the executor. The answers and the log go to
    the store of the parser's autocomplete. *)
Definition handleAutocomplete (r : Registry.Registry)
    (licenses : gmap string License.License) (OWNER_IDS : option string)
    (clock : Clock) (interaction : AutocompleteRequest) : Js.M Parser.AcStore unit :=
  let commandName := commandName (request interaction) in
  Js.tryCatch
    (match Registry.get r commandName with
     | None => Js.ret tt
     | Some handler =>
         match Registry.arguments (Registry.metadata handler) with
         | None => Js.ret tt
         | Some arguments =>
             let context :=
               createCommandContext licenses OWNER_IDS clock (request interaction) in
             if negb (checkPermissions context handler) then Js.ret tt
             else Parser.handleAutocomplete (transport interaction) arguments
                    (Registry.autocompleteOptions handler)
         end
     end)
    (fun error =>
       Parser.ac_log Js.LError "Autocomplete handling failed"
         [("command", commandName)]).

(** [clearAllCooldowns] of the executor. *)
Definition clearAllCooldowns (r : Registry.Registry) : Registry.Registry :=
  Registry.clearAllCooldowns r.

End Executor.

(** ** Feature loader ([features/loader.ts]) *)

Module Loader.

(** A JavaScript [Map] whose iteration order is observed: the entries in
    insertion order, with at most one entry per key. *)
Module OMap.

Definition t (V : Type) : Type := list (string * V).

Fixpoint get {V} (m : t V) (k : string) : option V :=
  match m with
  | [] => None
  | (k', v) :: rest => if String.eqb k k' then Some v else get rest k
  end.

(** [map.set(k, v)]: an existing key keeps its position. *)
Fixpoint set {V} (m : t V) (k : string) (v : V) : t V :=
  match m with
  | [] => [(k, v)]
  | (k', v') :: rest =>
      if String.eqb k k' then (k, v) :: rest else (k', v') :: set rest k v
  end.

End OMap.

Section WithWorld.

(** Everything the hooks and event handlers of the features act on
    outside the loader: channels, messages, databases. *)
Context {W : Type}.

(** [FeatureConfig], as far as the loader reads it. *)
Record FeatureConfig := {
  key : string;
  name : string;
  isPremium : bool;
  permissions : option (list string);
  defaultConfig : gmap string string;
}.

(** [FeatureContext]: the guild the context was made for and the live
    configuration. *)
Record FeatureContext := {
  ctx_guild : string;
  ctx_config : gmap string string;
}.

(** What a call of a method of a feature comes to: the function throws
    before it returns, or it returns its promise, which then settles.
    A method declared [async] always returns its promise. *)
Inductive Completion :=
| Threw (e : Js.Thrown)
| Returned (promise : Js.Settled unit).

(** A method of a feature, typed [(context, ...args) => Promise<void>]
    by the feature SDK: called, it acts on the world and completes. *)
Definition Method : Type := FeatureContext -> list string -> W -> W * Completion.

(** [Feature]: the configuration, the three lifecycle hooks, and the
    other asynchronous methods the object has, by property name. *)
Record Feature := {
  config : FeatureConfig;
  register : Method;
  enable : Method;
  disable : Method;
  methods : string -> option Method;
}.

(** [(instance.feature as any)[eventName]] when it is a function. The
    lifecycle hooks are properties of the object like any event
    handler; [config] is not a function. *)
Definition getMethod (f : Feature) (eventName : string) : option Method :=
  if String.eqb eventName "register" then Some (register f)
  else if String.eqb eventName "enable" then Some (enable f)
  else if String.eqb eventName "disable" then Some (disable f)
  else if String.eqb eventName "config" then None
  else methods f eventName.

(** [FeatureInstance] *)
Record FeatureInstance := {
  feature : Feature;
  context : FeatureContext;
  enabled : bool;
  loadedAt : Z;
  instanceConfig : gmap string string;
}.

Definition setInstanceEnabled (i : FeatureInstance) (b : bool) : FeatureInstance :=
  {| feature := feature i; context := context i; enabled := b;
     loadedAt := loadedAt i; instanceConfig := instanceConfig i |}.

(** One call of a method of a feature, as observed from outside: for
    which guild and feature, which property, and how it completed. *)
Record Call := {
  call_guild : string;
  call_feature : string;
  call_method : string;
  call_outcome : Completion;
}.

(** The store the loader runs on: the instances by guild, the world of
    the features, the log, and the calls made so far. *)
Record Store := {
  instances : gmap string (OMap.t FeatureInstance);
  world : W;
  logs : list Js.LogEntry;
  calls : list Call;
}.

Definition log (lvl : Js.Level) (m : string) (fs : list (string * string))
    : Js.M Store unit :=
  Js.modify (fun st =>
    {| instances := instances st; world := world st;
       logs := logs st ++ [{| Js.level := lvl; Js.msg := m; Js.fields := fs |}];
       calls := calls st |}).

Definition setInstances
    (f : gmap string (OMap.t FeatureInstance) -> gmap string (OMap.t FeatureInstance))
    : Js.M Store unit :=
  Js.modify (fun st =>
    {| instances := f (instances st); world := world st; logs := logs st;
       calls := calls st |}).

(** The call [method.call(feature, context, ...args)]: the method runs
    on the world; the call evaluates to the promise the method returns,
    or throws what the method throws. *)
Definition invoke (guildId featureKey methodName : string) (method : Method)
    (ctx : FeatureContext) (args : list string) : Js.M Store (Js.Settled unit) :=
  fun st =>
    let (w', completion) := method ctx args (world st) in
    ({| instances := instances st; world := w'; logs := logs st;
        calls := calls st ++ [{| call_guild := guildId; call_feature := featureKey;
                                 call_method := methodName;
                                 call_outcome := completion |}] |},
     match completion with
     | Threw e => Js.Rejected e
     | Returned promise => Js.Fulfilled promise
     end).

(** [instance.enabled = b] on the instance stored for the guild. *)
Definition writeEnabled (guildId featureKey : string) (b : bool) : Js.M Store unit :=
  setInstances (fun m =>
    match m !! guildId with
    | Some guildInstances =>
        match OMap.get guildInstances featureKey with
        | Some instance =>
            <[guildId := OMap.set guildInstances featureKey
                           (setInstanceEnabled instance b)]> m
        | None => m
        end
    | None => m
    end).

(** [enableFeature] *)
Definition enableFeature (licenses : gmap string License.License) (now : Z)
    (guildId featureKey : string) : Js.M Store bool :=
  Js.tryCatch
    (found <- Js.gets (fun st => instances st !! guildId);
     match found with
     | None => Js.throw (Js.ErrorObj ("Guild " +:+ guildId +:+ " not found"))
     | Some guildInstances =>
         match OMap.get guildInstances featureKey with
         | None =>
             Js.throw (Js.ErrorObj
               ("Feature " +:+ featureKey +:+ " not found for guild " +:+ guildId))
         | Some instance =>
             if enabled instance then Js.ret true
             else
               _ <- (if isPremium (config (feature instance)) then
                       let licenseCheck :=
                         License.validateFeatureAccess licenses now guildId featureKey in
                       if negb (License.valid licenseCheck)
                       then Js.throw (Js.ErrorObj
                              ("Premium feature requires valid license: "
                               +:+ default "undefined" (License.reason licenseCheck)))
                       else Js.ret tt
                     else Js.ret tt);
               promise <- invoke guildId featureKey "enable"
                            (enable (feature instance)) (context instance) [];
               _ <- Js.await promise;
               _ <- writeEnabled guildId featureKey true;
               _ <- log Js.LInfo "Feature enabled for guild"
                      [("feature", featureKey); ("guildId", guildId)];
               Js.ret true
         end
     end)
    (fun error =>
       _ <- log Js.LError "Failed to enable feature"
              [("feature", featureKey); ("guildId", guildId)];
       Js.ret false).

(** [disableFeature] *)
Definition disableFeature (guildId featureKey : string) : Js.M Store bool :=
  Js.tryCatch
    (found <- Js.gets (fun st => instances st !! guildId);
     match found with
     | None => Js.ret false
     | Some guildInstances =>
         match OMap.get guildInstances featureKey with
         | None => Js.ret true
         | Some instance =>
             if negb (enabled instance) then Js.ret true
             else
               promise <- invoke guildId featureKey "disable"
                            (disable (feature instance)) (context instance) [];
               _ <- Js.await promise;
               _ <- writeEnabled guildId featureKey false;
               _ <- log Js.LInfo "Feature disabled for guild"
                      [("feature", featureKey); ("guildId", guildId)];
               Js.ret true
         end
     end)
    (fun error =>
       _ <- log Js.LError "Failed to disable feature"
              [("feature", featureKey); ("guildId", guildId)];
       Js.ret false).

(** [promise.catch(error => this.logger.error(...))] inside
    [handleEvent]: a rejection is logged and the resulting promise is
    fulfilled. *)
Definition catchAndLog (guildId featureKey eventName : string)
    (promise : Js.Settled unit) : Js.M Store (Js.Settled unit) :=
  match promise with
  | Js.Fulfilled v => Js.ret (Js.Fulfilled v)
  | Js.Rejected error =>
      _ <- log Js.LError "Feature event handler failed"
             [("feature", featureKey); ("guildId", guildId); ("event", eventName)];
      Js.ret (Js.Fulfilled tt)
  end.

(** The [for] loop of [handleEvent] over the instances of the guild,
    collecting the promises. *)
Fixpoint handleEventLoop (guildId eventName : string) (args : list string)
    (entries : OMap.t FeatureInstance) (promises : list (Js.Settled unit))
    : Js.M Store (list (Js.Settled unit)) :=
  match entries with
  | [] => Js.ret promises
  | (featureKey, instance) :: rest =>
      if negb (enabled instance) then
        handleEventLoop guildId eventName args rest promises
      else
        match getMethod (feature instance) eventName with
        | Some eventHandler =>
            promise <- invoke guildId featureKey eventName eventHandler
                         (context instance) args;
            caught <- catchAndLog guildId featureKey eventName promise;
            handleEventLoop guildId eventName args rest (promises ++ [caught])
        | None => handleEventLoop guildId eventName args rest promises
        end
  end.

(** [handleEvent] *)
Definition handleEvent (guildId eventName : string) (args : list string)
    : Js.M Store unit :=
  found <- Js.gets (fun st => instances st !! guildId);
  match found with
  | None => Js.ret tt
  | Some guildInstances =>
      promises <- handleEventLoop guildId eventName args guildInstances [];
      _ <- Js.await (Js.allSettled promises);
      Js.ret tt
  end.

(** The [for] loop of [cleanupGuild]. *)
Fixpoint cleanupLoop (guildId : string) (entries : OMap.t FeatureInstance)
    (promises : list (Js.Settled unit)) : Js.M Store (list (Js.Settled unit)) :=
  match entries with
  | [] => Js.ret promises
  | (featureKey, instance) :: rest =>
      if enabled instance then
        promise <- invoke guildId featureKey "disable" (disable (feature instance))
                     (context instance) [];
        caught <-
          match promise with
          | Js.Fulfilled v => Js.ret (Js.Fulfilled v)
          | Js.Rejected error =>
              _ <- log Js.LError "Failed to disable feature during cleanup"
                     [("feature", featureKey); ("guildId", guildId)];
              Js.ret (Js.Fulfilled tt)
          end;
        cleanupLoop guildId rest (promises ++ [caught])
      else cleanupLoop guildId rest promises
  end.

(** [cleanupGuild] *)
Definition cleanupGuild (guildId : string) : Js.M Store unit :=
  found <- Js.gets (fun st => instances st !! guildId);
  match found with
  | None => Js.ret tt
  | Some guildInstances =>
      promises <- cleanupLoop guildId guildInstances [];
      _ <- Js.await (Js.allSettled promises);
      _ <- setInstances (delete guildId);
      log Js.LInfo "Guild features cleaned up" [("guildId", guildId)]
  end.

(** What the loader reads of a [Guild]: its id and the permissions of
    the bot's own member, [guild.members.me], when the bot has one. *)
Record Guild := {
  guild_id : string;
  guild_name : string;
  me : option (string -> bool);
}.

(** [validateFeaturePermissions] *)
Definition validateFeaturePermissions (guild : Guild) (f : Feature)
    : bool * list string :=
  match me guild with
  | None => (false, ["Bot not in guild"])
  | Some has =>
      let requiredPermissions := default [] (permissions (config f)) in
      let missing := List.filter (fun permission => negb (has permission))
                       requiredPermissions in
      (bool_decide (missing = []), missing)
  end.

(** [guildInstances.set(featureKey, instance)] on the map stored for
    the guild. *)
Definition storeInstance (guildId featureKey : string) (instance : FeatureInstance)
    : Js.M Store unit :=
  setInstances (fun m =>
    <[guildId := OMap.set (default [] (m !! guildId)) featureKey instance]> m).

(** [initializeFeatureForGuild]; [now] is what [new Date()] reads when
    the record is created, after the register hook was awaited. *)
Definition initializeFeatureForGuild (now : Z) (f : Feature) (guild : Guild)
    : Js.M Store unit :=
  Js.tryCatch
    (let featureKey := key (config f) in
     let permissionCheck := validateFeaturePermissions guild f in
     if negb (fst permissionCheck) then
       log Js.LWarn "Feature missing required permissions"
         [("feature", featureKey); ("guildId", guild_id guild)]
     else
       let cfg := defaultConfig (config f) in
       let ctx := {| ctx_guild := guild_id guild; ctx_config := cfg |} in
       promise <- invoke (guild_id guild) featureKey "register" (register f) ctx [];
       _ <- Js.await promise;
       _ <- storeInstance (guild_id guild) featureKey
              {| feature := f; context := ctx; enabled := false; loadedAt := now;
                 instanceConfig := cfg |};
       log Js.LDebug "Feature initialized for guild"
         [("feature", featureKey); ("guildId", guild_id guild)])
    (fun error =>
       log Js.LError "Failed to initialize feature for guild"
         [("feature", key (config f)); ("guildId", guild_id guild)]).

(** The [for] loop of [initializeGuildFeatures] from the feature at
    position [i] on. Each feature has a clock reading of its own:
    [now i] is what [new Date()] reads for the feature at position
    [i]. *)
Fixpoint initializeAll (now : nat -> Z) (i : nat) (fs : list Feature) (guild : Guild)
    : Js.M Store unit :=
  match fs with
  | [] => Js.ret tt
  | f :: rest =>
      _ <- initializeFeatureForGuild (now i) f guild;
      initializeAll now (S i) rest guild
  end.

(** [initializeGuildFeatures]; [features] is [this.registry.getAll()],
    and [now] gives the clock reading for each of them by position. *)
Definition initializeGuildFeatures (now : nat -> Z) (features : list Feature)
    (guild : Guild) : Js.M Store unit :=
  _ <- setInstances (insert (guild_id guild) []);
  _ <- log Js.LInfo "Initializing guild features" [("guildId", guild_id guild)];
  _ <- initializeAll now 0 features guild;
  log Js.LInfo "Guild features initialized" [("guildId", guild_id guild)].

(** [getFeatureInstance] *)
Definition getFeatureInstance (st : Store) (guildId featureKey : string)
    : option FeatureInstance :=
  match instances st !! guildId with
  | Some guildInstances => OMap.get guildInstances featureKey
  | None => None
  end.

(** [getGuildFeatures] *)
Definition getGuildFeatures (st : Store) (guildId : string) : OMap.t FeatureInstance :=
  default [] (instances st !! guildId).

End WithWorld.

Arguments Method W : clear implicits.
Arguments Feature W : clear implicits.
Arguments FeatureInstance W : clear implicits.
Arguments Store W : clear implicits.
Arguments Guild : clear implicits.

End Loader.

(** ** Notions of the specification

    Definitions that follow the words of the platform specification, to
    be compared with what the code computes. *)

Module Spec.

(** "Case-insensitive substring match": [needle] occurs in [s] once
    both are brought to lower case. *)
Definition occursIgnoringCase (needle s : string) : Prop :=
  exists pre post,
    Parser.toLowerCase s = pre +:+ Parser.toLowerCase needle +:+ post.

(** "Indexes any declared alias, skipping aliases that collide with an
    existing alias": what an alias names after a registration that
    declares [als] for the command [name], given the index [old] from
    before. *)
Definition aliasAfter (old : gmap string string) (als : list string) (name alias : string)
    : option string :=
  match old !! alias with
  | Some existing => Some existing
  | None => if bool_decide (alias ∈ als) then Some name else None
  end.

(** "Fail if owner-only and invoker is not an owner; if guild-only and
    no tenant context; if any required permission or required role is
    absent." *)
Definition permissionDenied (context : Registry.CommandContext)
    (metadata : Registry.CommandMetadata) : bool :=
  (Registry.ownerOnly metadata && negb (Registry.isOwner (Registry.user context)))
  || (Registry.guildOnly metadata
      && match Registry.guild context with Some _ => false | None => true end)
  || existsb (fun permission => negb (Registry.hasPermission context permission))
       (default [] (Registry.permissions metadata))
  || existsb (fun roleId => negb (Registry.hasRole context roleId))
       (default [] (Registry.roles metadata)).

(** The decision pipeline of the dispatcher as the specification lists
    it: the checks of one invocation in their fixed order, each with its
    verdict on the given registry, [None] for a pass and the error for
    a failure. A check that needs the resolved command passes
    vacuously when there is none. *)
Definition pipelineVerdicts (licenses : gmap string License.License)
    (OWNER_IDS : option string) (clock : Executor.Clock)
    (interaction : Executor.Interaction) (r : Registry.Registry)
    : list (Executor.Stage * option Js.Thrown) :=
  let commandName := Executor.commandName interaction in
  let userId := Executor.id (Executor.user interaction) in
  let resolved := Registry.get r commandName in
  let context := Executor.createCommandContext licenses OWNER_IDS clock interaction in
  let remaining := Registry.isOnCooldown r (Executor.cooldownCheck clock) commandName userId in
  let parsed :=
    match resolved with
    | Some handler =>
        match Registry.arguments (Registry.metadata handler) with
        | Some defs => Parser.parseArguments (Executor.options interaction) defs
        | None => Js.Fulfilled ∅
        end
    | None => Js.Fulfilled ∅
    end in
  let onCommand (verdict : Registry.CommandHandler -> option Js.Thrown) :=
    match resolved with
    | Some handler => verdict handler
    | None => None
    end in
  [ (Executor.GetHandler,
     match resolved with
     | Some _ => None
     | None => Some (Js.ErrorObj (Executor.unknownCommandMessage commandName))
     end);
    (Executor.CheckEnabled,
     onCommand (fun handler =>
       if Registry.enabled (Registry.metadata handler) then None
       else Some (Js.ErrorObj (Executor.disabledMessage commandName))));
    (Executor.CheckCooldown,
     if 0 <? remaining
     then Some (Js.ErrorObj (Executor.cooldownMessage remaining))
     else None);
    (Executor.CreateContext, None);
    (Executor.CheckPermissions,
     onCommand (fun handler =>
       if permissionDenied context (Registry.metadata handler)
       then Some (Js.ErrorObj Executor.permissionMessage)
       else None));
    (Executor.CheckPremium,
     onCommand (fun handler =>
       if Registry.premiumOnly (Registry.metadata handler)
          && negb (Registry.isPremium context)
       then Some (Js.ErrorObj Executor.premiumMessage)
       else None));
    (Executor.ParseArguments,
     match parsed with
     | Js.Fulfilled _ => None
     | Js.Rejected e => Some e
     end);
    (Executor.ExecuteCommand,
     onCommand (fun handler =>
       match parsed with
       | Js.Fulfilled parsedArgs =>
           match Registry.settled
                   (Registry.execute handler (Executor.withArgs context parsedArgs)) with
           | Js.Fulfilled _ => None
           | Js.Rejected e => Some e
           end
       | Js.Rejected _ => None
       end));
    (Executor.SetCooldown, None) ].

(** "First failure wins and aborts later checks": the checks that run,
    in order, and the failure that stopped them, if any. *)
Fixpoint firstFailure (checks : list (Executor.Stage * option Js.Thrown))
    : list Executor.Stage * option Js.Thrown :=
  match checks with
  | [] => ([], None)
  | (stage, Some e) :: _ => ([stage], Some e)
  | (stage, None) :: rest =>
      let (ran, failure) := firstFailure rest in (stage :: ran, failure)
  end.

(** "On handler success, if cooldown duration > 0, write a new
    CooldownRecord with expiry = now + duration." *)
Definition cooldownWritten (clock : Executor.Clock)
    (interaction : Executor.Interaction) (r : Registry.Registry)
    : Registry.Registry :=
  match Registry.get r (Executor.commandName interaction) with
  | Some handler =>
      if 0 <? Registry.cooldown (Registry.metadata handler) then
        Registry.setCooldown r (Executor.cooldownSet clock)
          (Executor.commandName interaction)
          (Executor.id (Executor.user interaction))
          (Registry.cooldown (Registry.metadata handler) * 1000)
      else r
  | None => r
  end.

(** "Every capability in state Enabled for that tenant that declares a
    handler for the event": the keys of those capabilities, in the
    order the runtime holds them. *)
Definition dispatchTargets {W} (eventName : string)
    (entries : Loader.OMap.t (Loader.FeatureInstance W)) : list string :=
  map fst
    (List.filter
       (fun entry =>
          Loader.enabled (snd entry)
          && match Loader.getMethod (Loader.feature (snd entry)) eventName with
             | Some _ => true
             | None => false
             end)
       entries).

(** "Logged with (capability key, tenant, event name)": the record a
    failed handler call leaves in the log. *)
Definition handlerFailureLog (c : Loader.Call) : Js.LogEntry :=
  {| Js.level := Js.LError;
     Js.msg := "Feature event handler failed";
     Js.fields := [("feature", Loader.call_feature c);
                   ("guildId", Loader.call_guild c);
                   ("event", Loader.call_method c)] |}.

Definition callFailed (c : Loader.Call) : bool :=
  match Loader.call_outcome c with
  | Loader.Returned (Js.Fulfilled _) => false
  | _ => true
  end.

End Spec.

Import Spec.

(** ** Auxiliary definitions

    Closed forms of single steps of the loops above, used in the
    proofs. *)

Module Aux.

Import Registry.

(** One turn of the alias loop, as a step on the store. *)
Definition aliasStep (name alias : string) (st : Store) : Store :=
  match aliasMap (registry st) !! alias with
  | Some existing =>
      {| registry := registry st;
         logs := logs st ++ [{| Js.level := Js.LWarn; Js.msg := "Alias conflict, skipping";
                                Js.fields := [("alias", alias);
                                              ("existingCommand", existing)] |}] |}
  | None =>
      {| registry := setAliasMap (insert alias name) (registry st);
         logs := logs st ++ [{| Js.level := Js.LDebug; Js.msg := "Alias registered";
                                Js.fields := [("alias", alias); ("command", name)] |}] |}
  end.

(** A string without comma. *)
Fixpoint commaFree (s : string) : bool :=
  match s with
  | EmptyString => true
  | String c rest => negb (Ascii.eqb c ",") && commaFree rest
  end.

(** The invocation satisfies one argument definition: the getter for
    the argument's type does not throw, and the value it gives is
    [null] for an argument that is not required, or passes
    validation. *)
Definition accepts (options : Parser.Options) (argDef : Parser.CommandArgument) : bool :=
  match Parser.extractArgumentValue options argDef with
  | Js.Rejected _ => false
  | Js.Fulfilled None => negb (Js.truthyB (Parser.required argDef))
  | Js.Fulfilled (Some v) => Js.isFulfilled (Parser.validateArgumentType v argDef)
  end.

(** The option types the getter for an argument type takes. *)
Definition allowedTypes (t : Parser.ArgType) : list Parser.ArgType :=
  match t with
  | Parser.TUser => [Parser.TUser; Parser.TMentionable]
  | Parser.TRole => [Parser.TRole; Parser.TMentionable]
  | _ => [t]
  end.

(** What the getter for an argument type reads off an option of an
    allowed type. *)
Definition readOption (t : Parser.ArgType) (o : Parser.CommandOption)
    : option Parser.Value :=
  match t with
  | Parser.TString | Parser.TInteger | Parser.TBoolean | Parser.TNumber =>
      Parser.option_value o
  | Parser.TUser => Parser.VObject <$> Parser.option_user o
  | Parser.TChannel => Parser.VObject <$> Parser.option_channel o
  | Parser.TRole => Parser.VObject <$> Parser.option_role o
  | Parser.TAttachment => Parser.VObject <$> Parser.option_attachment o
  | Parser.TMentionable =>
      Parser.VObject <$>
        (match Parser.option_member o with
         | Some member => Some member
         | None =>
             match Parser.option_user o with
             | Some user => Some user
             | None => Parser.option_role o
             end
         end)
  end.

(** The value the definitions supply for the property [k]: the one
    extracted for the last definition named [k] that has a value. *)
Fixpoint suppliedFor (options : Parser.Options) (defs : list Parser.CommandArgument)
    (k : string) : option Parser.Value :=
  match defs with
  | [] => None
  | argDef :: rest =>
      match suppliedFor options rest k with
      | Some v => Some v
      | None =>
          if String.eqb k (Parser.name argDef) then
            match Parser.extractArgumentValue options argDef with
            | Js.Fulfilled (Some v) => Some v
            | _ => None
            end
          else None
      end
  end.

(** Whether [register] gets a slash-command builder for the command:
    the command brings one, or one can be constructed. *)
Definition builderAvailable (newBuilder : CommandMetadata -> Js.Settled Builder)
    (command : CommandHandler) : bool :=
  match builder command with
  | Some _ => true
  | None => Js.isFulfilled (newBuilder (metadata command))
  end.

(** The cooldown record of (command name, invoker), if there is one:
    [this.cooldowns.get(commandName)?.get(userId)]. *)
Definition cooldownRecord (r : Registry) (commandName userId : string) : option Z :=
  match cooldowns r !! commandName with
  | Some commandCooldowns => commandCooldowns !! userId
  | None => None
  end.

(** A call that ran to the end: the method returned its promise and
    the promise was fulfilled. *)
Definition completed (c : Loader.Completion) : bool :=
  match c with
  | Loader.Returned (Js.Fulfilled _) => true
  | _ => false
  end.

(** The handlers the entries declare for the event are asynchronous:
    called, they return a promise whatever they are given. *)
Definition asyncHandlers {W} (eventName : string)
    (entries : Loader.OMap.t (Loader.FeatureInstance W)) : Prop :=
  Forall
    (fun entry =>
       forall eventHandler, 
         Loader.getMethod (Loader.feature (snd entry)) eventName = Some eventHandler ->
         forall ctx args w, exists promise,
           snd (eventHandler ctx args w) = Loader.Returned promise)
    entries.

(** Every runtime record is stored under the key of its capability. *)
Definition keyed {W} (entries : Loader.OMap.t (Loader.FeatureInstance W)) : Prop :=
  Forall
    (fun entry => Loader.key (Loader.config (Loader.feature (snd entry))) = fst entry)
    entries.

Definition wellKeyed {W} (st : Loader.Store W) : Prop :=
  forall guildId entries, Loader.instances st !! guildId = Some entries -> keyed entries.


(** The record a disable hook whose promise is rejected leaves in the
    log during [cleanupGuild]. *)
Definition cleanupFailureLog (c : Loader.Call) : Js.LogEntry :=
  {| Js.level := Js.LError;
     Js.msg := "Failed to disable feature during cleanup";
     Js.fields := [("feature", Loader.call_feature c);
                   ("guildId", Loader.call_guild c)] |}.

(** A call that returned its promise. *)
Definition returned (c : Loader.Call) : Prop :=
  exists promise, Loader.call_outcome c = Loader.Returned promise.


(** The stores of licenses the manager can hold: it starts empty and
    changes only through [registerLicense], [revokeLicense] and
    [cleanupExpiredLicenses]. *)
Inductive licensesReachable : gmap string License.License -> Prop :=
| reach_empty : licensesReachable ∅
| reach_register licenses now (o : License.LicenseObject) :
    licensesReachable licenses ->
    licensesReachable (snd (License.registerLicense licenses now o))
| reach_revoke licenses now guild :
    licensesReachable licenses ->
    licensesReachable (snd (License.revokeLicense licenses now guild))
| reach_cleanup licenses now :
    licensesReachable licenses ->
    licensesReachable (snd (License.cleanupExpiredLicenses licenses now)).

(** The error record [enableFeature] writes when it gives up. *)
Definition enableFailureLog (guildId featureKey : string) : Js.LogEntry :=
  {| Js.level := Js.LError; Js.msg := "Failed to enable feature";
     Js.fields := [("feature", featureKey); ("guildId", guildId)] |}.

(** The loader's store with one more log record. *)
Definition addLog {W} (st : Loader.Store W) (entry : Js.LogEntry) : Loader.Store W :=
  {| Loader.instances := Loader.instances st; Loader.world := Loader.world st;
     Loader.logs := Loader.logs st ++ [entry]; Loader.calls := Loader.calls st |}.

(** The [success] field of the result an invocation returned. *)
Definition reportedSuccess (r : Js.Settled Executor.CommandExecutionResult)
    : option bool :=
  match r with
  | Js.Fulfilled res => Some (Executor.success res)
  | Js.Rejected _ => None
  end.

End Aux.

Import Aux.

(** ** Sample data

    Concrete licenses, commands, features and invocations on which the
    properties below are exercised. *)

Module Samples.

(** A premium license for guild [g1] that expires at time 1000. *)
Definition sampleLicense : License.License :=
  {| License.id := "lic-1"; License.guildId := "g1"; License.type := "premium";
     License.features := ["welcome"; "xp"]; License.issuedAt := 0;
     License.expiresAt := Some 1000; License.revokedAt := None |}.

(** The [ping] command of the specification's scenario: a cooldown of
    five seconds, no permissions, a handler that replies and
    completes. *)
Definition pingMetadata : Registry.CommandMetadata :=
  {| Registry.name := "ping"; Registry.description := "Replies with Pong!";
     Registry.category := Some "utility"; Registry.permissions := None;
     Registry.roles := None; Registry.cooldown := 5;
     Registry.guildOnly := false; Registry.ownerOnly := false;
     Registry.premiumOnly := false; Registry.enabled := true;
     Registry.aliases := Some ["p"; "pong"]; Registry.arguments := None |}.

Definition pingCommand : Registry.CommandHandler :=
  {| Registry.metadata := pingMetadata;
     Registry.execute := fun _ =>
       {| Registry.settled := Js.Fulfilled tt; Registry.acknowledged := true |};
     Registry.builder := None;
     Registry.autocompleteOptions := None |}.

(** A builder constructor that accepts every command. *)
Definition plainBuilder (m : Registry.CommandMetadata) : Js.Settled Registry.Builder :=
  Js.Fulfilled {| Registry.builder_name := Registry.name m;
                  Registry.builder_description := Registry.description m;
                  Registry.builder_options := [] |}.

(** A registry that already knows [ping], and the alias [p] for another
    command. *)
Definition pingRegistry : Registry.Registry :=
  {| Registry.commands := {["ping" := pingCommand]};
     Registry.aliasMap := {["p" := "play"]};
     Registry.cooldowns := ∅ |}.

Definition pingStore : Registry.Store :=
  {| Registry.registry := pingRegistry; Registry.logs := [] |}.

(** An invocation of [ping] by user [u1] in a direct message. *)
Definition pingInteraction : Executor.Interaction :=
  {| Executor.commandName := "ping";
     Executor.user := {| Executor.id := "u1"; Executor.username := "alice";
                         Executor.discriminator := "0001" |};
     Executor.guildId := None; Executor.guild := None; Executor.member := None;
     Executor.options := ∅; Executor.deferred := false; Executor.replied := false;
     Executor.reply := fun _ => Js.Fulfilled tt;
     Executor.editReply := fun _ => Js.Fulfilled tt |}.

(** A clock that reads [t] throughout an invocation. *)
Definition clockAt (t : Z) : Executor.Clock :=
  {| Executor.startTime := t; Executor.cooldownCheck := t;
     Executor.licenseCheck := t; Executor.cooldownSet := t;
     Executor.endTime := t |}.

(** The result [executeCommand] reports for a successful [ping]. *)
Definition pingSuccess : Executor.CommandExecutionResult :=
  {| Executor.success := true; Executor.error := None; Executor.duration := 0;
     Executor.command := "ping"; Executor.resultUser := "u1";
     Executor.resultGuild := None |}.

(** Features over a world without content. A premium [moderation]
    feature whose hooks complete, and a free [flaky] feature whose
    enable hook fails. *)
Definition quietMethod : Loader.Method unit :=
  fun _ _ w => (w, Loader.Returned (Js.Fulfilled tt)).

Definition failingMethod : Loader.Method unit :=
  fun _ _ w => (w, Loader.Returned (Js.Rejected (Js.ErrorObj "enable failed"))).

(** A handler written as a plain function that throws before it
    returns a promise. *)
Definition throwingMethod : Loader.Method unit :=
  fun _ _ w => (w, Loader.Threw (Js.ErrorObj "member has no name")).

(** Two free features that handle [memberAdd]: [greeter], whose handler
    is [throwingMethod], and [audit], whose handler completes. *)
Definition onMemberAdd (handler : Loader.Method unit) (eventName : string)
    : option (Loader.Method unit) :=
  if String.eqb eventName "memberAdd" then Some handler else None.

Definition greeterFeature : Loader.Feature unit :=
  {| Loader.config :=
       {| Loader.key := "greeter"; Loader.name := "Greeter";
          Loader.isPremium := false; Loader.permissions := None;
          Loader.defaultConfig := ∅ |};
     Loader.register := quietMethod; Loader.enable := quietMethod;
     Loader.disable := quietMethod; Loader.methods := onMemberAdd throwingMethod |}.

Definition auditFeature : Loader.Feature unit :=
  {| Loader.config :=
       {| Loader.key := "audit"; Loader.name := "Audit";
          Loader.isPremium := false; Loader.permissions := None;
          Loader.defaultConfig := ∅ |};
     Loader.register := quietMethod; Loader.enable := quietMethod;
     Loader.disable := quietMethod; Loader.methods := onMemberAdd quietMethod |}.

Definition moderationFeature : Loader.Feature unit :=
  {| Loader.config :=
       {| Loader.key := "moderation"; Loader.name := "Moderation";
          Loader.isPremium := true; Loader.permissions := None;
          Loader.defaultConfig := ∅ |};
     Loader.register := quietMethod; Loader.enable := quietMethod;
     Loader.disable := quietMethod; Loader.methods := fun _ => None |}.

Definition flakyFeature : Loader.Feature unit :=
  {| Loader.config :=
       {| Loader.key := "flaky"; Loader.name := "Flaky";
          Loader.isPremium := false; Loader.permissions := None;
          Loader.defaultConfig := ∅ |};
     Loader.register := quietMethod; Loader.enable := failingMethod;
     Loader.disable := quietMethod; Loader.methods := fun _ => None |}.

Definition instanceOf (f : Loader.Feature unit) (isEnabled : bool)
    : Loader.FeatureInstance unit :=
  {| Loader.feature := f;
     Loader.context := {| Loader.ctx_guild := "g1"; Loader.ctx_config := ∅ |};
     Loader.enabled := isEnabled; Loader.loadedAt := 0;
     Loader.instanceConfig := ∅ |}.

(** Guild [g1] with [moderation] enabled and [flaky] disabled. *)
Definition guildEntries : Loader.OMap.t (Loader.FeatureInstance unit) :=
  [("moderation", instanceOf moderationFeature true);
   ("flaky", instanceOf flakyFeature false)].

Definition loaderStore : Loader.Store unit :=
  {| Loader.instances := {["g1" := guildEntries]}; Loader.world := tt;
     Loader.logs := []; Loader.calls := [] |}.

(** A license for guild [g1] that grants [moderation] and never
    expires. *)
Definition moderationLicense : License.License :=
  {| License.id := "lic-2"; License.guildId := "g1"; License.type := "premium";
     License.features := ["moderation"]; License.issuedAt := 0;
     License.expiresAt := None; License.revokedAt := None |}.

(** A free feature whose asynchronous [memberAdd] handler fails: its
    promise is rejected. *)
Definition rejecterFeature : Loader.Feature unit :=
  {| Loader.config :=
       {| Loader.key := "rejecter"; Loader.name := "Rejecter";
          Loader.isPremium := false; Loader.permissions := None;
          Loader.defaultConfig := ∅ |};
     Loader.register := quietMethod; Loader.enable := quietMethod;
     Loader.disable := quietMethod; Loader.methods := onMemberAdd failingMethod |}.

(** Guild [g3] with [rejecter] and [audit] both enabled. *)
Definition rejecterStore : Loader.Store unit :=
  {| Loader.instances :=
       {["g3" := [("rejecter", instanceOf rejecterFeature true);
                  ("audit", instanceOf auditFeature true)]]};
     Loader.world := tt; Loader.logs := []; Loader.calls := [] |}.

(** Guild [g2] with [greeter] and [audit] both enabled. *)
Definition greeterStore : Loader.Store unit :=
  {| Loader.instances :=
       {["g2" := [("greeter", instanceOf greeterFeature true);
                  ("audit", instanceOf auditFeature true)]]};
     Loader.world := tt; Loader.logs := []; Loader.calls := [] |}.

(** Guild [g1] with [moderation] not yet enabled. *)
Definition freshEntries : Loader.OMap.t (Loader.FeatureInstance unit) :=
  [("moderation", instanceOf moderationFeature false)].

Definition freshStore : Loader.Store unit :=
  {| Loader.instances := {["g1" := freshEntries]}; Loader.world := tt;
     Loader.logs := []; Loader.calls := [] |}.

(** The object a caller registers to obtain [moderationLicense]. *)
Definition moderationLicenseObject : License.LicenseObject :=
  {| License.obj_id := "lic-2"; License.obj_guildId := "g1";
     License.obj_type := "premium"; License.obj_features := ["moderation"];
     License.obj_issuedAt := License.DateAt 0; License.obj_expiresAt := None;
     License.obj_revokedAt := None |}.

(** A registry store without commands. *)
Definition emptyStore : Registry.Store :=
  {| Registry.registry := Registry.empty; Registry.logs := [] |}.

(** The registry after [ping] was registered in a registry without
    commands: its aliases [p] and [pong] both name it. *)
Definition aliasRegistry : Registry.Registry :=
  Registry.registry (fst (Registry.register plainBuilder pingCommand emptyStore)).

(** The invocation of [ping] by user [u1] under its alias [pong]. *)
Definition pongInteraction : Executor.Interaction :=
  {| Executor.commandName := "pong";
     Executor.user := Executor.user pingInteraction;
     Executor.guildId := None; Executor.guild := None; Executor.member := None;
     Executor.options := ∅; Executor.deferred := false; Executor.replied := false;
     Executor.reply := fun _ => Js.Fulfilled tt;
     Executor.editReply := fun _ => Js.Fulfilled tt |}.

(** The [ping] registry after user [u1] ran [ping] at time 1000: the
    cooldown of five seconds runs until 6000. *)
Definition cooledRegistry : Registry.Registry :=
  Registry.setCooldown pingRegistry 1000 "ping" "u1" 5000.

(** A required [reason] argument of at least three characters, whose
    maximal length is given as 0. *)
Definition reasonArgument : Parser.CommandArgument :=
  {| Parser.name := "reason"; Parser.description := "Why";
     Parser.type := Parser.TString; Parser.required := Some true;
     Parser.choices := None; Parser.minValue := None; Parser.maxValue := None;
     Parser.minLength := Some 3; Parser.maxLength := Some 0;
     Parser.autocomplete := None |}.

End Samples.

Import Samples.

(** * Properties *)

(** ** Helpers *)

Lemma includes_elem_of (l : list string) (x : string) :
  Js.includes l x = true <-> x ∈ l.
Proof.
  unfold Js.includes. rewrite existsb_exists. split.
  - intros (y & Hin & Heq). apply String.eqb_eq in Heq. subst y.
    by apply list_elem_of_In.
  - intros Hin. exists x. split; [by apply list_elem_of_In | apply String.eqb_refl].
Qed.

Lemma includes_not_elem_of (l : list string) (x : string) :
  Js.includes l x = false <-> x ∉ l.
Proof.
  rewrite <- includes_elem_of. destruct (Js.includes l x); split; congruence.
Qed.

(** The sequencing of stateful code obeys the monad laws, pointwise in
    the store. *)
Lemma bindM_ret_l {S A B} (a : A) (k : A -> Js.M S B) (s : S) :
  Js.bindM (Js.ret a) k s = k a s.
Proof. reflexivity. Qed.

Lemma bindM_ret_r {S A} (m : Js.M S A) (s : S) :
  Js.bindM m Js.ret s = m s.
Proof. unfold Js.bindM, Js.ret. by destruct (m s) as [s' [a|e]]. Qed.

Lemma bindM_assoc {S A B C} (m : Js.M S A) (k : A -> Js.M S B) (h : B -> Js.M S C)
    (s : S) :
  Js.bindM (Js.bindM m k) h s = Js.bindM m (fun a => Js.bindM (k a) h) s.
Proof. unfold Js.bindM. by destruct (m s) as [s' [a|e]]. Qed.

(** A [try] block whose body does not throw does not run its handler,
    and a [try] block never throws when its handler does not. *)
Lemma tryCatch_fulfilled {S A} (body : Js.M S A) (handler : Js.Thrown -> Js.M S A)
    (s s' : S) (a : A) :
  body s = (s', Js.Fulfilled a) -> Js.tryCatch body handler s = (s', Js.Fulfilled a).
Proof. unfold Js.tryCatch. by intros ->. Qed.

Lemma tryCatch_total {S A} (body : Js.M S A) (handler : Js.Thrown -> Js.M S A) (s : S) :
  (forall e s', Js.isFulfilled (snd (handler e s')) = true) ->
  Js.isFulfilled (snd (Js.tryCatch body handler s)) = true.
Proof.
  intros Hhandler. unfold Js.tryCatch. destruct (body s) as [s' [a|e]]; [done|].
  apply Hhandler.
Qed.

(** ** License manager *)

Section LicenseProperties.

Import License.

Implicit Types (licenses : gmap string License) (l : License) (now : Z).

Lemma isExpired_spec l now :
  isExpired l now = true <-> exists e, expiresAt l = Some e /\ e < now.
Proof.
  unfold isExpired. destruct (expiresAt l) as [e|].
  - rewrite Z.ltb_lt. split; [eauto | by intros (? & [= <-] & ?)].
  - split; [done | by intros (? & ? & ?)].
Qed.

Lemma isRevoked_spec l :
  isRevoked l = true <-> exists t, revokedAt l = Some t.
Proof.
  unfold isRevoked. destruct (revokedAt l); split; eauto; try done.
  by intros [? ?].
Qed.

(** The denial reasons can be told apart, whatever the feature key. *)
Lemma reasons_distinct (featureKey : string) :
  "No license found for this guild" ≠ "License has expired"
  /\ "No license found for this guild" ≠ "License has been revoked"
  /\ "License has expired" ≠ "License has been revoked"
  /\ notIncludedReason featureKey ≠ "No license found for this guild"
  /\ notIncludedReason featureKey ≠ "License has expired"
  /\ notIncludedReason featureKey ≠ "License has been revoked".
Proof. unfold notIncludedReason. repeat split; discriminate. Qed.

(** C7. The check for (tenant, feature key) denies exactly when there
    is no record, the record's expiry is set and in the past, the record
    is revoked, or the key is not in the granted set; each denial
    carries the reason of the first of these cases that applies, the
    reasons differ from one another, and a grant carries no reason. *)
Theorem validateFeatureAccess_denies_exactly licenses now (guild featureKey : string) :
  let r := validateFeatureAccess licenses now guild featureKey in
  (valid r = false <->
     licenses !! guild = None
     \/ exists l, licenses !! guild = Some l
          /\ ((exists e, expiresAt l = Some e /\ e < now)
              \/ (exists t, revokedAt l = Some t)
              \/ featureKey ∉ features l))
  /\ (valid r = true <-> reason r = None)
  /\ (licenses !! guild = None ->
        reason r = Some "No license found for this guild")
  /\ (forall l, licenses !! guild = Some l ->
        (isExpired l now = true -> reason r = Some "License has expired")
        /\ (isExpired l now = false -> isRevoked l = true ->
              reason r = Some "License has been revoked")
        /\ (isExpired l now = false -> isRevoked l = false ->
              featureKey ∉ features l ->
              reason r = Some (notIncludedReason featureKey)))
  /\ ("No license found for this guild" ≠ "License has expired"
      /\ "No license found for this guild" ≠ "License has been revoked"
      /\ "License has expired" ≠ "License has been revoked"
      /\ notIncludedReason featureKey ≠ "No license found for this guild"
      /\ notIncludedReason featureKey ≠ "License has expired"
      /\ notIncludedReason featureKey ≠ "License has been revoked").
Proof.
  intros r. subst r. unfold validateFeatureAccess.
  destruct (licenses !! guild) as [l|] eqn:Hl.
  - pose proof (isExpired_spec l now) as HE. pose proof (isRevoked_spec l) as HR.
    pose proof (includes_elem_of (features l) featureKey) as HI.
    destruct (isExpired l now) eqn:He; [|destruct (isRevoked l) eqn:Hr;
      [|destruct (Js.includes (features l) featureKey) eqn:Hi]]; simpl;
      (split; [|split; [done|split; [done|split; [|apply reasons_distinct]]]]).
    + split; [|done]. intros _. right. exists l. split; [done|]. left. by apply HE.
    + intros l' [= <-]. rewrite He. split_and!; [done | discriminate | discriminate].
    + split; [|done]. intros _. right. exists l. split; [done|]. right. left. by apply HR.
    + intros l' [= <-]. rewrite He, Hr. split_and!; [discriminate | done | discriminate].
    + split; [done|]. intros [? | (l' & [= <-] & [Hx | [Hx | Hx]])]; [done | | |].
      * apply HE in Hx. congruence.
      * apply HR in Hx. congruence.
      * exfalso. apply Hx. by apply HI.
    + intros l' [= <-]. rewrite He, Hr. split_and!; try discriminate.
      intros _ _ Hx. exfalso. apply Hx. by apply HI.
    + split; [|done]. intros _. right. exists l. split; [done|]. right. right.
      intros Hx. apply HI in Hx. congruence.
    + intros l' [= <-]. rewrite He, Hr. split_and!; try discriminate. done.
  - simpl. split_and!; try done; try apply reasons_distinct.
    split; [|done]. intros _. by left.
Qed.

Lemma hasPremiumAccess_stored licenses now (guild : string) l :
  licenses !! guild = Some l ->
  type l = "premium" \/ type l = "enterprise" ->
  hasPremiumAccess licenses now guild = true.
Proof.
  intros Hl Ht. unfold hasPremiumAccess. rewrite Hl.
  destruct Ht as [-> | ->]; simpl; by rewrite ?orb_true_r.
Qed.

(** C9. A tenant whose record carries a paid tier has tier-level
    premium access whatever feature keys the record grants; a tenant
    without a record has none. *)
Theorem hasPremiumAccess_by_tier licenses now (guild : string) l (fs : list string) :
  type l = "premium" \/ type l = "enterprise" ->
  hasPremiumAccess (<[guild := withFeatures l fs]> licenses) now guild = true
  /\ hasPremiumAccess (delete guild licenses) now guild = false.
Proof.
  intros Ht. split.
  - apply hasPremiumAccess_stored with (withFeatures l fs);
      [apply lookup_insert_eq | done].
  - unfold hasPremiumAccess. by rewrite lookup_delete_eq.
Qed.

(** C10. For a stored license of type premium or enterprise the
    tier-level check answers yes even when the license has expired or
    has been revoked, although the per-feature check then denies every
    feature key. *)
Theorem hasPremiumAccess_ignores_validity licenses now (guild : string) l :
  licenses !! guild = Some l ->
  type l = "premium" \/ type l = "enterprise" ->
  isExpired l now = true \/ isRevoked l = true ->
  hasPremiumAccess licenses now guild = true
  /\ forall featureKey,
       valid (validateFeatureAccess licenses now guild featureKey) = false.
Proof.
  intros Hl Ht Hinvalid. split; [by eapply hasPremiumAccess_stored|].
  intros featureKey. unfold validateFeatureAccess. rewrite Hl.
  destruct (isExpired l now); [done|].
  destruct Hinvalid as [? | ->]; done.
Qed.

(** What [LicenseSchema.parse] accepts: the license it yields has the
    fields of the object, a paid tier and the object's dates, which are
    all valid. *)
Lemma LicenseSchema_parse_Some (o : LicenseObject) l :
  LicenseSchema_parse o = Some l <->
  (obj_type o = "premium" \/ obj_type o = "enterprise")
  /\ id l = obj_id o /\ guildId l = obj_guildId o /\ type l = obj_type o
  /\ features l = obj_features o
  /\ obj_issuedAt o = DateAt (issuedAt l)
  /\ obj_expiresAt o = DateAt <$> expiresAt l
  /\ obj_revokedAt o = DateAt <$> revokedAt l.
Proof.
  unfold LicenseSchema_parse. split.
  - destruct (_ || _) eqn:Hpaid; [|done].
    apply orb_true_iff in Hpaid. rewrite !String.eqb_eq in Hpaid.
    destruct (obj_issuedAt o) as [issued|]; [|done].
    destruct (obj_expiresAt o) as [[expires|]|];
      destruct (obj_revokedAt o) as [[revoked|]|]; cbn; try done;
      intros [= <-]; by split_and!.
  - intros (Hpaid & Hid & Hg & Ht & Hf & Hia & Hea & Hra).
    rewrite <- !String.eqb_eq in Hpaid. apply orb_true_iff in Hpaid.
    rewrite Hpaid, Hia, Hea, Hra.
    destruct l as [i g t fs ia ea ra]. cbn in *. subst.
    by destruct ea, ra.
Qed.

(** Every license [registerLicense] stores passed the schema, so the
    stores the manager can reach hold paid tiers only. *)
Lemma registerLicense_schema licenses now (o : LicenseObject) licenses' :
  (forall g l0, licenses !! g = Some l0 ->
     type l0 = "premium" \/ type l0 = "enterprise") ->
  registerLicense licenses now o = (true, licenses') ->
  forall g l0, licenses' !! g = Some l0 -> type l0 = "premium" \/ type l0 = "enterprise".
Proof.
  intros Hinv. unfold registerLicense.
  destruct (LicenseSchema_parse o) as [l|] eqn:Hparse; [|congruence].
  apply LicenseSchema_parse_Some in Hparse as (Hpaid & _ & _ & Htype & _).
  destruct (isExpired l now); [congruence|].
  destruct (isRevoked l); [congruence|].
  intros [= <-] g l0. rewrite lookup_insert.
  case_decide; [|apply Hinv]. intros [= <-]. by rewrite Htype.
Qed.

Lemma revokeLicense_schema licenses now (guild : string) b licenses' :
  (forall g l0, licenses !! g = Some l0 ->
     type l0 = "premium" \/ type l0 = "enterprise") ->
  revokeLicense licenses now guild = (b, licenses') ->
  forall g l0, licenses' !! g = Some l0 -> type l0 = "premium" \/ type l0 = "enterprise".
Proof.
  intros Hinv. unfold revokeLicense.
  destruct (licenses !! guild) as [l|] eqn:Hl; intros [= <- <-]; [|done].
  intros g l0. rewrite lookup_insert.
  case_decide; [|apply Hinv]. intros [= <-]. by apply (Hinv _ _ Hl).
Qed.

End LicenseProperties.

(** A premium license without any feature key gives tier-level access;
    no license gives none. *)
Lemma hasPremiumAccess_by_tier_witness :
  License.hasPremiumAccess
    (<["g1" := License.withFeatures sampleLicense []]> ∅) 5000 "g1" = true
  /\ License.hasPremiumAccess (delete "g1" (∅ : gmap string License.License)) 5000 "g1"
     = false.
Proof.
  apply (hasPremiumAccess_by_tier ∅ 5000 "g1" sampleLicense []).
  left. reflexivity.
Defined.

(** The sample license expired at 1000: at time 5000 the tier-level
    check still answers yes, the per-feature check no. *)
Lemma hasPremiumAccess_ignores_validity_witness :
  License.hasPremiumAccess (<["g1" := sampleLicense]> ∅) 5000 "g1" = true
  /\ forall featureKey,
       License.valid
         (License.validateFeatureAccess (<["g1" := sampleLicense]> ∅) 5000 "g1" featureKey)
       = false.
Proof.
  apply (hasPremiumAccess_ignores_validity (<["g1" := sampleLicense]> ∅) 5000 "g1"
           sampleLicense).
  - reflexivity.
  - left. reflexivity.
  - left. reflexivity.
Defined.

(** ** Command parser: autocomplete *)

Section ParserProperties.

Import Parser.

(** Parsing an invocation without options against definitions none of
    which is required yields the empty result. *)
Lemma parseArguments_empty (defs : list CommandArgument) :
  Forall (fun argDef => Js.truthyB (required argDef) = false) defs ->
  parseArguments ∅ defs = Js.Fulfilled ∅.
Proof.
  unfold parseArguments. induction 1 as [|argDef defs Hopt _ IH]; [done|].
  cbn [parseLoop].
  assert (Hnone : extractArgumentValue ∅ argDef = Js.Fulfilled None).
  { unfold extractArgumentValue, getString, getInteger, getBoolean, getNumber, getUser,
      getChannel, getRole, getMentionable, getAttachment, getTypedOption, Options.
    destruct (type argDef); by rewrite (lookup_empty (M := gmap string)). }
  rewrite Hnone. cbn. by rewrite Hopt.
Qed.

Lemma startsWith_spec (needle s : string) :
  startsWith s needle = true <-> exists post, s = needle +:+ post.
Proof.
  revert s. induction needle as [|a needle IH]; intros s; simpl.
  - destruct s; (split; [intros _; eauto | done]).
  - destruct s as [|b s].
    + split; [done | by intros [post ?]].
    + simpl. destruct (Ascii.eqb a b) eqn:Hab; simpl.
      * apply Ascii.eqb_eq in Hab as ->. rewrite IH. split.
        -- intros [post ->]. by exists post.
        -- intros [post [= ->]]. eauto.
      * apply Ascii.eqb_neq in Hab. split; [done|]. intros [post [= ? ?]]. done.
Qed.

(** [strIncludes] finds the needle exactly when the string splits
    around it. *)
Lemma strIncludes_spec (needle s : string) :
  strIncludes s needle = true <-> exists pre post, s = pre +:+ needle +:+ post.
Proof.
  induction s as [|c s IH].
  - change (strIncludes "" needle) with (startsWith "" needle || false).
    rewrite orb_false_r, startsWith_spec. split.
    + intros [post ?]. by exists "", post.
    + intros (pre & post & H). destruct pre; [by exists post | done].
  - change (strIncludes (String c s) needle)
      with (startsWith (String c s) needle || strIncludes s needle).
    rewrite orb_true_iff, startsWith_spec, IH. split.
    + intros [[post ->] | (pre & post & ->)].
      * by exists "", post.
      * by exists (String c pre), post.
    + intros (pre & post & H). destruct pre as [|c' pre].
      * left. by exists post.
      * right. simpl in H. injection H as -> ->. by exists pre, post.
Qed.

Lemma matchesFocused_spec (focusedValue : string) (o : AcOption) :
  matchesFocused focusedValue o = true <->
  occursIgnoringCase focusedValue (opt_name o)
  \/ occursIgnoringCase focusedValue (opt_value o).
Proof.
  unfold matchesFocused, occursIgnoringCase.
  by rewrite orb_true_iff, !strIncludes_spec.
Qed.

Lemma length_take_25 {A} (l : list A) : (length (take 25 l) <= 25)%nat.
Proof. rewrite length_take. lia. Qed.

(** What the [try] body does with the store: it answers at most once,
    and what it answers is a prefix of at most 25 of the candidates
    that match the focused value. *)
Lemma handleAutocomplete_try_responded (i : AutocompleteInteraction)
    (defs : list CommandArgument) (supplier : option Supplier) (st : AcStore) :
  let st' := fst (handleAutocomplete_try i defs supplier st) in
  responded st' = responded st
  \/ exists focused options,
       getFocused i = Js.Fulfilled focused
       /\ responded st' =
            responded st
            ++ [take 25 (List.filter (matchesFocused (focused_value focused)) options)].
Proof.
  unfold handleAutocomplete_try, Js.bindM, Js.await, Js.ret.
  destruct (getFocused i) as [focused|e] eqn:Hf; simpl; [|by left].
  destruct (List.find _ defs) as [argDef|]; simpl; [|by left].
  destruct (Js.truthyB (autocomplete argDef)); simpl; [|by left].
  destruct supplier as [sup|].
  - destruct (sup _ _) as [options|e]; simpl; [|by left].
    right. exists focused, options. split; [done|].
    unfold ac_respond, ac_log, Js.bindM, Js.modify, Js.await. simpl.
    by destruct (respond i _).
  - right. exists focused, (choiceOptions argDef). split; [done|].
    unfold ac_respond, ac_log, Js.bindM, Js.modify, Js.await. simpl.
    by destruct (respond i _).
Qed.

Lemma ac_log_logs lvl m fs (st : AcStore) :
  ac_log lvl m fs st =
  ({| responded := responded st;
      ac_logs := ac_logs st ++ [{| Js.level := lvl; Js.msg := m; Js.fields := fs |}] |},
   Js.Fulfilled tt).
Proof. reflexivity. Qed.

(** C8. The suggestion operation never raises: it always returns
    normally, and a failure of its body leaves an error record as the
    last entry of the log. It hands the transport at most one answer;
    the answer has at most 25 candidates, and each candidate has the
    partial input as a substring of its name or of its value when
    letter case is ignored. *)
Theorem handleAutocomplete_bounded_and_total (i : AutocompleteInteraction)
    (defs : list CommandArgument) (supplier : option Supplier) (st : AcStore) :
  let body := handleAutocomplete_try i defs supplier st in
  let run := handleAutocomplete i defs supplier st in
  snd run = Js.Fulfilled tt
  /\ (forall e, snd body = Js.Rejected e ->
        responded (fst run) = responded (fst body)
        /\ exists fs,
             ac_logs (fst run) =
             ac_logs (fst body)
             ++ [{| Js.level := Js.LError; Js.msg := "Autocomplete failed";
                    Js.fields := fs |}])
  /\ (responded (fst run) = responded st
      \/ exists focused candidates,
           getFocused i = Js.Fulfilled focused
           /\ responded (fst run) = responded st ++ [candidates]
           /\ (length candidates <= 25)%nat
           /\ forall c, c ∈ candidates ->
                occursIgnoringCase (focused_value focused) (opt_name c)
                \/ occursIgnoringCase (focused_value focused) (opt_value c)).
Proof.
  intros body run.
  pose proof (handleAutocomplete_try_responded i defs supplier st) as Hresp.
  simpl in Hresp. fold body in Hresp.
  assert (Hrun : run = match body with
                       | (s', Js.Fulfilled a) => (s', Js.Fulfilled a)
                       | (s', Js.Rejected e) =>
                           ac_log Js.LError "Autocomplete failed"
                             [("command", ac_commandName i)] s'
                       end) by reflexivity.
  assert (Hsame : responded (fst run) = responded (fst body)).
  { rewrite Hrun. by destruct body as [s' [[]|e]]. }
  split_and!.
  - rewrite Hrun. by destruct body as [s' [[]|e]].
  - intros e He. split; [done|]. rewrite Hrun.
    destruct body as [s' [a|e']]; simpl in *; [done|]. eauto.
  - rewrite Hsame. destruct Hresp as [-> | (focused & options & Hf & ->)]; [by left|].
    right. eexists focused, _. split_and!; [done | done | apply length_take_25 |].
    intros c Hc. apply elem_of_take in Hc as (n & Hc & _).
    apply list_elem_of_lookup_2 in Hc. apply list_elem_of_In, filter_In in Hc.
    apply matchesFocused_spec, Hc.
Qed.

End ParserProperties.

(** ** Command registry *)

Section RegistryProperties.

Import Registry.

Implicit Types (st : Store) (r : Registry) (command : CommandHandler).

Lemma registerAliases_cons (a : string) (als : list string) (name : string) st :
  registerAliases (a :: als) name st = registerAliases als name (aliasStep name a st).
Proof.
  cbn [registerAliases]. unfold aliasStep, Js.bindM, Js.gets.
  by destruct (aliasMap (registry st) !! a).
Qed.

Lemma registerAliases_spec (als : list string) (name : string) st :
  snd (registerAliases als name st) = Js.Fulfilled tt
  /\ commands (registry (fst (registerAliases als name st))) = commands (registry st)
  /\ cooldowns (registry (fst (registerAliases als name st))) = cooldowns (registry st)
  /\ forall alias,
       aliasMap (registry (fst (registerAliases als name st))) !! alias
       = aliasAfter (aliasMap (registry st)) als name alias.
Proof.
  revert st. induction als as [|a als IH]; intros st.
  - simpl. split_and!; try done. intros alias. unfold aliasAfter.
    destruct (aliasMap (registry st) !! alias); [done|].
    rewrite bool_decide_eq_false_2; [done | by intros ?%elem_of_nil].
  - rewrite registerAliases_cons.
    destruct (IH (aliasStep name a st)) as (Hr & Hc & Hcd & Hal).
    rewrite Hr, Hc, Hcd. unfold aliasStep at 1 2.
    split_and!; [done | by destruct (aliasMap (registry st) !! a)
                | by destruct (aliasMap (registry st) !! a) |].
    intros alias. rewrite Hal. unfold aliasAfter, aliasStep.
    destruct (aliasMap (registry st) !! a) as [existing|] eqn:Ha; simpl.
    + destruct (aliasMap (registry st) !! alias) eqn:Hx; [done|].
      destruct (decide (alias = a)) as [-> | Hne]; [congruence|].
      rewrite (bool_decide_ext (alias ∈ a :: als) (alias ∈ als)); [done|].
      rewrite elem_of_cons. split; [by intros [?|?] | by right].
    + rewrite lookup_insert. case_decide as Hd.
      * subst alias. rewrite Ha. rewrite bool_decide_eq_true_2; [done | by left].
      * destruct (aliasMap (registry st) !! alias) eqn:Hx; [done|].
        rewrite (bool_decide_ext (alias ∈ a :: als) (alias ∈ als)); [done|].
      rewrite elem_of_cons. split; [by intros [?|?] | by right].
Qed.

(** The alias loop run over an optional alias list. *)
Lemma registerAliases_option_spec (als : option (list string)) (name : string) st :
  let loop := match als with
              | Some als => registerAliases als name
              | None => Js.ret tt
              end in
  snd (loop st) = Js.Fulfilled tt
  /\ commands (registry (fst (loop st))) = commands (registry st)
  /\ forall alias,
       aliasMap (registry (fst (loop st))) !! alias
       = aliasAfter (aliasMap (registry st)) (default [] als) name alias.
Proof.
  destruct als as [als|]; simpl.
  - destruct (registerAliases_spec als name st) as (? & ? & _ & ?). done.
  - split_and!; try done. intros alias. unfold aliasAfter.
    destruct (aliasMap (registry st) !! alias); [done|].
    rewrite bool_decide_eq_false_2; [done | by intros ?%elem_of_nil].
Qed.

(** C6. Registration validates the metadata: metadata outside the
    schema makes it return [false] with the registry untouched. With
    valid metadata (and a slash-command builder at hand or
    constructible) it returns [true] whether or not the name was
    registered before, the name then resolves to the new command, no
    other name is touched, and each declared alias names the command
    unless the alias existed already, in which case that alias keeps
    its old target and the remaining aliases are still indexed. *)
Theorem register_last_writer_wins (newBuilder : CommandMetadata -> Js.Settled Builder)
    command st :
  (builder command = None ->
   exists b, newBuilder (metadata command) = Js.Fulfilled b) ->
  let n := name (metadata command) in
  let run := register newBuilder command st in
  if CommandMetadataSchema_ok (metadata command) then
    snd run = Js.Fulfilled true
    /\ (exists stored,
          commands (registry (fst run)) !! n = Some stored
          /\ metadata stored = metadata command
          /\ execute stored = execute command
          /\ autocompleteOptions stored = autocompleteOptions command)
    /\ (forall other, other ≠ n ->
          commands (registry (fst run)) !! other = commands (registry st) !! other)
    /\ (forall alias,
          aliasMap (registry (fst run)) !! alias
          = aliasAfter (aliasMap (registry st))
              (default [] (aliases (metadata command))) n alias)
  else
    snd run = Js.Fulfilled false /\ registry (fst run) = registry st.
Proof.
  intros Hbuilder n run.
  destruct (CommandMetadataSchema_ok (metadata command)) eqn:Hok.
  2: { subst run. unfold register, Js.tryCatch, Js.bindM. by rewrite Hok. }
  assert (exists c',
    (metadata c' = metadata command /\ execute c' = execute command
     /\ autocompleteOptions c' = autocompleteOptions command)
    /\ match builder command with
       | Some _ => Js.ret command
       | None =>
           Js.bindM (Js.await (newBuilder (metadata command)))
             (fun b => Js.ret (withBuilder command b))
       end = @Js.ret Store _ c') as (c' & Hc' & Hmk).
  { destruct (builder command) as [b0|].
    - by exists command.
    - destruct (Hbuilder eq_refl) as [b Hb]. exists (withBuilder command b).
      split; [done|]. unfold Js.bindM, Js.await. by rewrite Hb. }
  subst run. unfold register. rewrite Hok, Hmk. fold n.
  unfold Js.tryCatch, Js.bindM, Js.gets, Js.ret, update, log, Js.modify.
  cbn beta iota.
  assert (Hloop : forall st2,
    commands (registry st2) = <[n := c']> (commands (registry st)) ->
    aliasMap (registry st2) = aliasMap (registry st) ->
    exists st3,
      match aliases (metadata command) with
      | Some als => registerAliases als n
      | None => fun s => (s, Js.Fulfilled tt)
      end st2 = (st3, Js.Fulfilled tt)
      /\ commands (registry st3) = <[n := c']> (commands (registry st))
      /\ forall alias,
           aliasMap (registry st3) !! alias
           = aliasAfter (aliasMap (registry st))
               (default [] (aliases (metadata command))) n alias).
  { intros st2 Hcmd Hali.
    destruct (registerAliases_option_spec (aliases (metadata command)) n st2)
      as (Hr & Hc & Hal). cbn zeta in Hr, Hc, Hal. unfold Js.ret in Hr, Hc, Hal.
    destruct (match aliases (metadata command) with
              | Some als => registerAliases als n
              | None => fun s => (s, Js.Fulfilled tt)
              end st2) as [st3 r3].
    simpl in Hr, Hc, Hal. subst r3. exists st3. split_and!; [done | |].
    - by rewrite Hc.
    - intros alias. by rewrite Hal, Hali. }
  destruct (bool_decide (is_Some (commands (registry st) !! n)));
    match goal with
    | |- context [match aliases (metadata command) with
                  | Some als => registerAliases als n
                  | None => _
                  end ?s] =>
        destruct (Hloop s) as (st3 & Heq & Hc & Hal); [done | done |]
    end;
    rewrite Heq; simpl; rewrite Hc;
    (split_and!; [done | | | done]);
    [ exists c'; by rewrite lookup_insert_eq
    | intros other Hne; by rewrite lookup_insert_ne
    | exists c'; by rewrite lookup_insert_eq
    | intros other Hne; by rewrite lookup_insert_ne ].
Qed.

End RegistryProperties.

(** ** Command executor *)

Section ExecutorProperties.

Import Registry Executor.

Implicit Types (licenses : gmap string License.License) (OWNER_IDS : option string)
  (clock : Clock) (interaction : Interaction) (st : Store).

Lemma forallb_negb_existsb {A} (f : A -> bool) (l : list A) :
  negb (forallb f l) = existsb (fun x => negb (f x)) l.
Proof.
  induction l as [|x l IH]; [done|]. simpl.
  rewrite negb_andb. by rewrite IH.
Qed.

(** [checkPermissions] refuses exactly what the specification's
    permission rule refuses. *)
Lemma checkPermissions_spec (context : CommandContext) (handler : CommandHandler) :
  checkPermissions context handler = negb (permissionDenied context (metadata handler)).
Proof.
  unfold checkPermissions, permissionDenied.
  rewrite !forallb_negb_existsb.
  destruct (ownerOnly (metadata handler) && negb (isOwner (Registry.user context)));
    [done|].
  destruct (Registry.guild context); simpl.
  - rewrite andb_false_r. simpl.
    destruct (existsb _ (default [] (permissions (metadata handler)))); [done|].
    by destruct (existsb _ (default [] (roles (metadata handler)))).
  - destruct (guildOnly (metadata handler)); [done|]. simpl.
    destruct (existsb _ (default [] (permissions (metadata handler)))); [done|].
    by destruct (existsb _ (default [] (roles (metadata handler)))).
Qed.

(** Closes a branch of the pipeline once its outcome is determined: it
    computes both sides and reassociates the appended stages. *)
Ltac stage_done := cbn; rewrite <- ?app_assoc; done.

(** Runs the pipeline up to its next test. *)
Ltac stage_step :=
  cbn beta iota zeta;
  cbn [Executor.registry Executor.trace Executor.replies Executor.logs
       Executor.acked fst snd negb].

(** The [try] body of [executeCommand] runs the checks of the
    specification's pipeline in order and stops at the first that
    fails; it writes the registry only when none fails. *)
Lemma runPipeline_spec licenses OWNER_IDS clock interaction st :
  let result :=
    firstFailure (pipelineVerdicts licenses OWNER_IDS clock interaction (registry st)) in
  let run := runPipeline licenses OWNER_IDS clock interaction st in
  trace (fst run) = trace st ++ fst result
  /\ snd run = match snd result with
               | Some e => Js.Rejected e
               | None => Js.Fulfilled tt
               end
  /\ replies (fst run) = replies st
  /\ registry (fst run) = match snd result with
                          | Some _ => registry st
                          | None => cooldownWritten clock interaction (registry st)
                          end.
Proof.
  unfold runPipeline, pipelineVerdicts, cooldownWritten.
  unfold Js.bindM, enter, Js.gets, Js.throw, Js.ret, Js.await, log, update,
    acknowledge, Js.modify.
  stage_step.
  destruct (Registry.get (registry st) (commandName interaction)) as [handler|];
    [|stage_done].
  destruct (enabled (metadata handler)); [|stage_done].
  stage_step.
  destruct (0 <? isOnCooldown (registry st) (cooldownCheck clock)
                   (commandName interaction) (id (user interaction))); [stage_done|].
  stage_step. rewrite checkPermissions_spec.
  destruct (permissionDenied _ (metadata handler)); [stage_done|].
  stage_step.
  destruct (premiumOnly (metadata handler) && negb _); [stage_done|].
  stage_step.
  destruct (arguments (metadata handler)) as [defs|].
  - destruct (Parser.parseArguments (options interaction) defs) as [parsedArgs|e];
      [|stage_done].
    stage_step.
    destruct (settled (execute handler _)) as [[]|e]; [|stage_done].
    stage_step.
    destruct (cooldown (metadata handler) =? 0) eqn:Hz.
    + apply Z.eqb_eq in Hz. rewrite Hz. stage_done.
    + cbn [negb andb]. destruct (0 <? cooldown (metadata handler)); stage_done.
  - stage_step.
    destruct (settled (execute handler _)) as [[]|e]; [|stage_done].
    stage_step.
    destruct (cooldown (metadata handler) =? 0) eqn:Hz.
    + apply Z.eqb_eq in Hz. rewrite Hz. stage_done.
    + cbn [negb andb]. destruct (0 <? cooldown (metadata handler)); stage_done.
Qed.

(** [executeCommand] as a whole: it always returns a result, reports
    success exactly when no check of the pipeline failed, answers a
    failure with exactly one error reply, and leaves the registry as it
    was on failure. *)
Lemma executeCommand_spec licenses OWNER_IDS clock interaction st :
  let result :=
    firstFailure (pipelineVerdicts licenses OWNER_IDS clock interaction (registry st)) in
  let run := executeCommand licenses OWNER_IDS clock interaction st in
  trace (fst run) = trace st ++ fst result
  /\ registry (fst run) = match snd result with
                          | Some _ => registry st
                          | None => cooldownWritten clock interaction (registry st)
                          end
  /\ (exists res,
        snd run = Js.Fulfilled res
        /\ success res = match snd result with Some _ => false | None => true end
        /\ error res = Js.errorMessage <$> snd result)
  /\ match snd result with
     | Some e => exists kind,
         replies (fst run) = replies st ++ [(kind, Js.errorMessage e)]
     | None => replies (fst run) = replies st
     end.
Proof.
  intros result run.
  destruct (runPipeline_spec licenses OWNER_IDS clock interaction st)
    as (Htrace & Hres & Hreplies & Hreg).
  fold result in Htrace, Hres, Hreplies, Hreg.
  subst run. clearbody result. destruct result as [ran failure].
  destruct (runPipeline licenses OWNER_IDS clock interaction st) as [st1 r1] eqn:Hrun.
  cbn [fst snd] in *.
  unfold executeCommand, Js.tryCatch, Js.bindM, log, Js.gets, Js.modify, Js.ret,
    send, Js.await.
  rewrite Hrun. cbn beta iota zeta. cbn [registry trace replies logs acked fst snd].
  destruct failure as [e|]; subst r1.
  - cbn beta iota zeta. cbn [registry trace replies logs acked fst snd].
    destruct (deferred interaction || replied interaction || acked st1).
    + destruct (editReply interaction (Js.errorMessage e)); cbn;
        rewrite Htrace, Hreg, Hreplies; eauto 10.
    + destruct (reply interaction (Js.errorMessage e)); cbn;
        rewrite Htrace, Hreg, Hreplies; eauto 10.
  - cbn. rewrite Htrace, Hreg, Hreplies. eauto 10.
Qed.

Lemma firstFailure_spec (checks : list (Stage * option Js.Thrown)) :
  match snd (firstFailure checks) with
  | Some e =>
      exists passed stage later,
        checks = passed ++ (stage, Some e) :: later
        /\ Forall (fun check => snd check = None) passed
        /\ fst (firstFailure checks) = map fst passed ++ [stage]
  | None =>
      Forall (fun check => snd check = None) checks
      /\ fst (firstFailure checks) = map fst checks
  end.
Proof.
  induction checks as [|[stage [e|]] checks IH]; cbn [firstFailure].
  - done.
  - exists [], stage, checks. done.
  - destruct (firstFailure checks) as [ran [e|]]; cbn [fst snd] in *.
    + destruct IH as (passed & stage' & later & -> & Hpassed & ->).
      exists ((stage, None) :: passed), stage', later.
      split_and!; [done | by constructor | done].
    + destruct IH as [Hall ->]. split; [by constructor | done].
Qed.

(** C1. The checks of one invocation are, in this fixed order: resolve
    the command, enabled, cooldown, build the context, permissions,
    premium, parse the arguments, run the handler (and then the cooldown
    write). The invocation always returns a result. Either every check
    passes: it reports success, has entered every block in order, and
    the registry is the one with the cooldown written when the command
    has one. Or some check is the first to fail: it reports failure
    with that check's error, has entered exactly the blocks of the
    checks before it and of the failing check itself, so no later check
    ran, and the registry, cooldown table included, is untouched. The
    permission check is the one the specification words: owner-only,
    guild-only, required permissions, required roles. *)
Theorem executeCommand_fixed_order licenses OWNER_IDS clock interaction st :
  let checks := pipelineVerdicts licenses OWNER_IDS clock interaction (registry st) in
  let run := executeCommand licenses OWNER_IDS clock interaction st in
  map fst checks =
    [GetHandler; CheckEnabled; CheckCooldown; CreateContext; CheckPermissions;
     CheckPremium; ParseArguments; ExecuteCommand; SetCooldown]
  /\ (exists res,
        snd run = Js.Fulfilled res
        /\ ((success res = true
             /\ error res = None
             /\ Forall (fun check => snd check = None) checks
             /\ trace (fst run) = trace st ++ map fst checks
             /\ registry (fst run) = cooldownWritten clock interaction (registry st))
            \/ (exists passed stage e later,
                  checks = passed ++ (stage, Some e) :: later
                  /\ Forall (fun check => snd check = None) passed
                  /\ success res = false
                  /\ error res = Some (Js.errorMessage e)
                  /\ trace (fst run) = trace st ++ map fst passed ++ [stage]
                  /\ registry (fst run) = registry st)))
  /\ (forall handler,
        checkPermissions
          (createCommandContext licenses OWNER_IDS clock interaction) handler
        = negb (permissionDenied
                  (createCommandContext licenses OWNER_IDS clock interaction)
                  (metadata handler))).
Proof.
  intros checks run. split_and!; [done | | intros; apply checkPermissions_spec].
  destruct (executeCommand_spec licenses OWNER_IDS clock interaction st)
    as (Htrace & Hreg & (res & Hres & Hsuccess & Herror) & _).
  fold checks run in Htrace, Hreg, Hres, Hsuccess, Herror.
  pose proof (firstFailure_spec checks) as Hfirst.
  exists res. split; [done|].
  destruct (snd (firstFailure checks)) as [e|].
  - right. destruct Hfirst as (passed & stage & later & Hchecks & Hpassed & Hran).
    exists passed, stage, e, later. rewrite Htrace, Hran. done.
  - left. destruct Hfirst as [Hall Hran]. rewrite Htrace, Hran. done.
Qed.

(** *** Cooldowns *)

Lemma setCooldown_lookup (r : Registry) (now : Z) (n u : string) (d : Z) :
  cooldownRecord (setCooldown r now n u d) n u = Some (now + d).
Proof.
  unfold cooldownRecord, setCooldown. cbn. rewrite lookup_insert_eq. cbn.
  apply lookup_insert_eq.
Qed.

Lemma setCooldown_get (r : Registry) (now : Z) (n u : string) (d : Z) (name : string) :
  Registry.get (setCooldown r now n u d) name = Registry.get r name.
Proof. reflexivity. Qed.

Lemma isOnCooldown_lookup (r : Registry) (now : Z) (n u : string) (expiry : Z) :
  cooldownRecord r n u = Some expiry ->
  isOnCooldown r now n u = if expiry =? 0 then 0 else Z.max 0 (expiry - now).
Proof.
  unfold cooldownRecord, isOnCooldown. destruct (cooldowns r !! n) as [m|]; cbn; [|done].
  by intros ->.
Qed.

Lemma ceilSeconds_pos (ms : Z) : 0 < ms -> 0 < ceilSeconds ms.
Proof.
  intros Hms. unfold ceilSeconds.
  assert (- ms / 1000 < 0) by (apply Z.div_lt_upper_bound; lia). lia.
Qed.

Lemma CommandMetadataSchema_ok_cooldown (m : CommandMetadata) :
  CommandMetadataSchema_ok m = true -> 0 <= cooldown m.
Proof.
  unfold CommandMetadataSchema_ok. rewrite !andb_true_iff. intros (_ & H).
  by apply Z.leb_le.
Qed.

(** What a run without failure tells about the command it resolved. *)
Lemma verdicts_pass_enabled licenses OWNER_IDS clock interaction (r : Registry)
    (handler : CommandHandler) :
  Registry.get r (commandName interaction) = Some handler ->
  snd (firstFailure (pipelineVerdicts licenses OWNER_IDS clock interaction r)) = None ->
  enabled (metadata handler) = true.
Proof.
  intros Hget. unfold pipelineVerdicts. rewrite Hget. cbn [firstFailure].
  by destruct (enabled (metadata handler)).
Qed.

(** The pipeline on a live cooldown: the cooldown check is the first
    to fail. *)
Lemma verdicts_on_cooldown licenses OWNER_IDS clock interaction (r : Registry)
    (handler : CommandHandler) :
  Registry.get r (commandName interaction) = Some handler ->
  enabled (metadata handler) = true ->
  0 < isOnCooldown r (cooldownCheck clock) (commandName interaction)
        (id (user interaction)) ->
  firstFailure (pipelineVerdicts licenses OWNER_IDS clock interaction r)
  = ([GetHandler; CheckEnabled; CheckCooldown],
     Some (Js.ErrorObj
             (cooldownMessage
                (isOnCooldown r (cooldownCheck clock) (commandName interaction)
                   (id (user interaction)))))).
Proof.
  intros Hget Hen Hcd. unfold pipelineVerdicts. rewrite Hget, Hen.
  apply Z.ltb_lt in Hcd. by rewrite Hcd.
Qed.

(** The pipeline when every check passes. *)
Lemma verdicts_all_pass licenses OWNER_IDS clock interaction (r : Registry)
    (handler : CommandHandler) (parsedArgs : Parser.ParsedArguments) :
  let context := createCommandContext licenses OWNER_IDS clock interaction in
  Registry.get r (commandName interaction) = Some handler ->
  enabled (metadata handler) = true ->
  isOnCooldown r (cooldownCheck clock) (commandName interaction)
    (id (user interaction)) = 0 ->
  permissionDenied context (metadata handler) = false ->
  premiumOnly (metadata handler) && negb (isPremium context) = false ->
  match arguments (metadata handler) with
  | Some defs => Parser.parseArguments (options interaction) defs
  | None => Js.Fulfilled ∅
  end = Js.Fulfilled parsedArgs ->
  settled (execute handler (withArgs context parsedArgs)) = Js.Fulfilled tt ->
  snd (firstFailure (pipelineVerdicts licenses OWNER_IDS clock interaction r)) = None.
Proof.
  intros context Hget Hen Hcd Hperm Hprem Hparse Hrun.
  unfold pipelineVerdicts. rewrite Hget, Hen, Hcd. fold context.
  rewrite Hperm, Hprem, Hparse, Hrun. done.
Qed.

(** The cooldown window among invocations under one name. Take a
    registered command (its metadata passes the schema)
    with a nonzero cooldown, and an invocation of it that succeeds and
    reads the clock at [t] when it writes the cooldown. Then the
    registry holds, for the invoked name and the invoker, the expiry [t +
    duration]. Any invocation under the same name by the same invoker
    whose cooldown check is read strictly before the expiry fails at the
    cooldown check, with a strictly positive remaining time, and leaves
    the registry as it is. Any such invocation read at or after the
    expiry passes the cooldown check, and succeeds whenever its
    remaining checks and the handler pass. *)
Lemma cooldown_window licenses OWNER_IDS clock interaction st
    (handler : CommandHandler) (res : CommandExecutionResult) :
  let n := commandName interaction in
  let u := id (user interaction) in
  let run := executeCommand licenses OWNER_IDS clock interaction st in
  let expiry := cooldownSet clock + cooldown (metadata handler) * 1000 in
  let r1 := registry (fst run) in
  Registry.get (registry st) n = Some handler ->
  CommandMetadataSchema_ok (metadata handler) = true ->
  cooldown (metadata handler) ≠ 0 ->
  0 <= cooldownSet clock ->
  snd run = Js.Fulfilled res ->
  success res = true ->
  cooldownRecord r1 n u = Some expiry
  /\ (forall licenses2 OWNER_IDS2 clock2 interaction2 st2,
        registry st2 = r1 ->
        commandName interaction2 = n ->
        id (user interaction2) = u ->
        let run2 := executeCommand licenses2 OWNER_IDS2 clock2 interaction2 st2 in
        let remaining := isOnCooldown r1 (cooldownCheck clock2) n u in
        (cooldownCheck clock2 < expiry ->
           remaining = expiry - cooldownCheck clock2
           /\ 0 < remaining
           /\ 0 < ceilSeconds remaining
           /\ trace (fst run2) = trace st2 ++ [GetHandler; CheckEnabled; CheckCooldown]
           /\ registry (fst run2) = r1
           /\ exists res2,
                snd run2 = Js.Fulfilled res2
                /\ success res2 = false
                /\ error res2 = Some (cooldownMessage remaining))
        /\ (expiry <= cooldownCheck clock2 ->
            remaining = 0
            /\ let context :=
                 createCommandContext licenses2 OWNER_IDS2 clock2 interaction2 in
               forall parsedArgs,
                 permissionDenied context (metadata handler) = false ->
                 premiumOnly (metadata handler) && negb (isPremium context) = false ->
                 match arguments (metadata handler) with
                 | Some defs => Parser.parseArguments (options interaction2) defs
                 | None => Js.Fulfilled ∅
                 end = Js.Fulfilled parsedArgs ->
                 settled (execute handler (withArgs context parsedArgs))
                 = Js.Fulfilled tt ->
                 exists res3,
                   snd run2 = Js.Fulfilled res3 /\ success res3 = true)).
Proof.
  intros n u run expiry r1 Hget Hschema Hnonzero Hclock Hres Hsuccess.
  assert (Hpos : 0 < cooldown (metadata handler)).
  { apply CommandMetadataSchema_ok_cooldown in Hschema. lia. }
  destruct (executeCommand_spec licenses OWNER_IDS clock interaction st)
    as (_ & Hreg & (res' & Hres' & Hsuccess' & _) & _).
  fold run in Hreg, Hres'. rewrite Hres in Hres'. injection Hres' as <-.
  rewrite Hsuccess in Hsuccess'.
  destruct (snd (firstFailure _)) as [e|] eqn:Hfirst; [done|].
  pose proof (verdicts_pass_enabled _ _ _ _ _ _ Hget Hfirst) as Henabled.
  assert (Hr1 : r1 = setCooldown (registry st) (cooldownSet clock) n u
                       (cooldown (metadata handler) * 1000)).
  { subst r1. rewrite Hreg. unfold cooldownWritten. fold n u. rewrite Hget.
    apply Z.ltb_lt in Hpos. by rewrite Hpos. }
  assert (Hrecord : cooldownRecord r1 n u = Some expiry).
  { rewrite Hr1. apply setCooldown_lookup. }
  assert (Hget1 : Registry.get r1 n = Some handler) by (by rewrite Hr1).
  assert (Hexpiry : (expiry =? 0) = false) by (apply Z.eqb_neq; subst expiry; lia).
  split; [done|].
  intros licenses2 OWNER_IDS2 clock2 interaction2 st2 Hst2 Hn2 Hu2 run2 remaining.
  assert (Hremaining : remaining = Z.max 0 (expiry - cooldownCheck clock2)).
  { subst remaining. rewrite (isOnCooldown_lookup _ _ _ _ _ Hrecord). by rewrite Hexpiry. }
  destruct (executeCommand_spec licenses2 OWNER_IDS2 clock2 interaction2 st2)
    as (Htrace2 & Hreg2 & (res2 & Hres2 & Hsuccess2 & Herror2) & _).
  fold run2 in Htrace2, Hreg2, Hres2. rewrite Hst2 in Htrace2, Hreg2, Hsuccess2, Herror2.
  split.
  - intros Hbefore.
    assert (Hlive : 0 < isOnCooldown r1 (cooldownCheck clock2)
                          (commandName interaction2) (id (user interaction2))).
    { rewrite Hn2, Hu2. fold remaining. lia. }
    rewrite <- Hn2 in Hget1.
    rewrite (verdicts_on_cooldown licenses2 OWNER_IDS2 clock2 interaction2 r1 handler
               Hget1 Henabled Hlive) in Htrace2, Hreg2, Hsuccess2, Herror2.
    cbn [fst snd] in Htrace2, Hreg2, Hsuccess2, Herror2.
    rewrite Hn2, Hu2 in Herror2. fold remaining in Herror2.
    split_and!; [lia | lia | apply ceilSeconds_pos; lia | done | done |].
    exists res2. done.
  - intros Hafter. split; [lia|].
    intros context parsedArgs Hperm Hprem Hparse Hhandler.
    assert (Hfree : isOnCooldown r1 (cooldownCheck clock2)
                      (commandName interaction2) (id (user interaction2)) = 0).
    { rewrite Hn2, Hu2. fold remaining. lia. }
    rewrite <- Hn2 in Hget1.
    rewrite (verdicts_all_pass licenses2 OWNER_IDS2 clock2 interaction2 r1 handler
               parsedArgs Hget1 Henabled Hfree Hperm Hprem Hparse Hhandler)
      in Hsuccess2.
    exists res2. done.
Qed.

End ExecutorProperties.

(** ** Feature loader *)

Section LoaderProperties.

Import Loader.

Context {W : Type}.

Implicit Types (st : Store W) (instance : FeatureInstance W)
  (entries : OMap.t (FeatureInstance W)).

(** *** Event dispatch *)

(** The store after one handler call of the dispatch loop. *)
Lemma handleEventLoop_skip (guildId eventName : string) (args : list string)
    (featureKey : string) instance entries (promises : list (Js.Settled unit)) st :
  enabled instance = false \/ getMethod (feature instance) eventName = None ->
  handleEventLoop guildId eventName args ((featureKey, instance) :: entries) promises st
  = handleEventLoop guildId eventName args entries promises st.
Proof.
  intros [H | H]; cbn [handleEventLoop]; rewrite H; [done|].
  by destruct (enabled instance).
Qed.

Lemma handleEventLoop_call (guildId eventName : string) (args : list string)
    (featureKey : string) instance entries (promises : list (Js.Settled unit)) st
    (eventHandler : Method W) (promise : Js.Settled unit) :
  enabled instance = true ->
  getMethod (feature instance) eventName = Some eventHandler ->
  snd (eventHandler (context instance) args (world st)) = Returned promise ->
  let call := {| call_guild := guildId; call_feature := featureKey;
                 call_method := eventName; call_outcome := Returned promise |} in
  handleEventLoop guildId eventName args ((featureKey, instance) :: entries) promises st
  = handleEventLoop guildId eventName args entries (promises ++ [Js.Fulfilled tt])
      {| instances := instances st;
         world := fst (eventHandler (context instance) args (world st));
         logs := logs st ++ (if callFailed call then [handlerFailureLog call] else []);
         calls := calls st ++ [call] |}.
Proof.
  intros Hen Hm Hp call. cbn [handleEventLoop]. rewrite Hen, Hm. cbn [negb].
  unfold Js.bindM at 1. unfold invoke at 1. subst call.
  destruct (eventHandler (context instance) args (world st)) as [w' completion].
  cbn [fst snd] in *. subst completion.
  destruct promise as [[]|e]; cbn [callFailed call_outcome].
  - unfold Js.bindM, catchAndLog, Js.ret. cbn beta iota. by rewrite app_nil_r.
  - unfold Js.bindM, catchAndLog, log, Js.modify, Js.ret. by cbn.
Qed.

(** A handler that throws before it returns a promise ends the loop:
    the exception leaves [handleEventLoop] and the entries after it
    are not visited. *)
Lemma handleEventLoop_throw (guildId eventName : string) (args : list string)
    (featureKey : string) instance entries (promises : list (Js.Settled unit)) st
    (eventHandler : Method W) (e : Js.Thrown) :
  enabled instance = true ->
  getMethod (feature instance) eventName = Some eventHandler ->
  snd (eventHandler (context instance) args (world st)) = Threw e ->
  handleEventLoop guildId eventName args ((featureKey, instance) :: entries) promises st
  = ({| instances := instances st;
        world := fst (eventHandler (context instance) args (world st));
        logs := logs st;
        calls := calls st ++ [{| call_guild := guildId; call_feature := featureKey;
                                 call_method := eventName;
                                 call_outcome := Threw e |}] |},
     Js.Rejected e).
Proof.
  intros Hen Hm Hp. cbn [handleEventLoop]. rewrite Hen, Hm. cbn [negb].
  unfold Js.bindM at 1. unfold invoke at 1.
  destruct (eventHandler (context instance) args (world st)) as [w' completion].
  cbn [fst snd] in *. by subst completion.
Qed.



(** A handler that throws before returning its promise is not caught
    by the dispatch: the exception leaves [handleEvent], and the
    capabilities that come after it in the tenant's map are not
    called. *)
Lemma handleEvent_throw_escapes (guildId eventName : string) (args : list string) st
    (featureKey : string) instance entries (eventHandler : Method W) (e : Js.Thrown) :
  instances st !! guildId = Some ((featureKey, instance) :: entries) ->
  enabled instance = true ->
  getMethod (feature instance) eventName = Some eventHandler ->
  snd (eventHandler (context instance) args (world st)) = Threw e ->
  let run := handleEvent guildId eventName args st in
  snd run = Js.Rejected e
  /\ map call_feature (calls (fst run)) = map call_feature (calls st) ++ [featureKey]
  /\ logs (fst run) = logs st.
Proof.
  intros Hg Hen Hm Hp run. subst run. unfold handleEvent, Js.bindM, Js.gets.
  unfold OMap.t in *. rewrite Hg.
  rewrite (handleEventLoop_throw _ _ _ _ _ _ _ _ eventHandler e Hen Hm Hp).
  cbn. by rewrite map_app.
Qed.

(** *** Enabling a feature *)

Lemma OMap_get_set {V} (m : OMap.t V) (k : string) (v : V) :
  OMap.get (OMap.set m k v) k = Some v.
Proof.
  induction m as [|[k' v'] m IH]; cbn.
  - by rewrite String.eqb_refl.
  - destruct (String.eqb k k') eqn:Hk; cbn; rewrite ?String.eqb_refl, ?Hk; done.
Qed.

Lemma enableFeature_missing (licenses : gmap string License.License) (now : Z)
    (guildId featureKey : string) st :
  (forall entries, instances st !! guildId = Some entries ->
                   OMap.get entries featureKey = None) ->
  enableFeature licenses now guildId featureKey st
  = (addLog st (enableFailureLog guildId featureKey), Js.Fulfilled false).
Proof.
  intros Hmissing. unfold enableFeature, Js.tryCatch, Js.bindM, Js.gets.
  destruct (instances st !! guildId) as [entries|]; [|done].
  by rewrite (Hmissing entries eq_refl).
Qed.

Lemma enableFeature_already (licenses : gmap string License.License) (now : Z)
    (guildId featureKey : string) st entries instance :
  instances st !! guildId = Some entries ->
  OMap.get entries featureKey = Some instance ->
  enabled instance = true ->
  enableFeature licenses now guildId featureKey st = (st, Js.Fulfilled true).
Proof.
  intros Hg Hk Hen. unfold enableFeature, Js.tryCatch, Js.bindM, Js.gets.
  by rewrite Hg, Hk, Hen.
Qed.

Lemma enableFeature_denied (licenses : gmap string License.License) (now : Z)
    (guildId featureKey : string) st entries instance :
  instances st !! guildId = Some entries ->
  OMap.get entries featureKey = Some instance ->
  enabled instance = false ->
  isPremium (config (feature instance)) = true ->
  License.valid (License.validateFeatureAccess licenses now guildId featureKey) = false ->
  enableFeature licenses now guildId featureKey st
  = (addLog st (enableFailureLog guildId featureKey), Js.Fulfilled false).
Proof.
  intros Hg Hk Hen Hprem Hdenied.
  unfold enableFeature, Js.tryCatch, Js.bindM, Js.gets.
  by rewrite Hg, Hk, Hen, Hprem, Hdenied.
Qed.

Lemma enableFeature_hook (licenses : gmap string License.License) (now : Z)
    (guildId featureKey : string) st entries instance :
  instances st !! guildId = Some entries ->
  OMap.get entries featureKey = Some instance ->
  enabled instance = false ->
  isPremium (config (feature instance)) = false
  \/ License.valid (License.validateFeatureAccess licenses now guildId featureKey) = true ->
  let outcome := enable (feature instance) (context instance) [] (world st) in
  let call := {| call_guild := guildId; call_feature := featureKey;
                 call_method := "enable"; call_outcome := snd outcome |} in
  enableFeature licenses now guildId featureKey st
  = if completed (snd outcome) then
      ({| instances :=
            <[guildId := OMap.set entries featureKey (setInstanceEnabled instance true)]>
              (instances st);
          world := fst outcome;
          logs := logs st ++ [{| Js.level := Js.LInfo;
                                 Js.msg := "Feature enabled for guild";
                                 Js.fields := [("feature", featureKey);
                                               ("guildId", guildId)] |}];
          calls := calls st ++ [call] |},
       Js.Fulfilled true)
    else
      ({| instances := instances st; world := fst outcome;
          logs := logs st ++ [enableFailureLog guildId featureKey];
          calls := calls st ++ [call] |},
       Js.Fulfilled false).
Proof.
  intros Hg Hk Hen Hgate outcome call. subst call outcome.
  unfold enableFeature, Js.tryCatch, Js.bindM, Js.gets.
  rewrite Hg, Hk, Hen.
  assert (Hpass :
    (if isPremium (config (feature instance))
     then if negb (License.valid
                     (License.validateFeatureAccess licenses now guildId featureKey))
          then Js.throw (Js.ErrorObj
                 ("Premium feature requires valid license: "
                  +:+ default "undefined"
                        (License.reason
                           (License.validateFeatureAccess licenses now guildId
                              featureKey))))
          else Js.ret tt
     else Js.ret tt) st = (st, Js.Fulfilled tt)).
  { destruct Hgate as [-> | ->]; [done|]. by destruct (isPremium _). }
  rewrite Hpass. unfold invoke, Js.await, writeEnabled, setInstances, log, Js.modify,
    Js.ret.
  destruct (enable (feature instance) (context instance) [] (world st))
    as [w' [e|[[]|e]]]; cbn; [done | | done].
  by rewrite Hg, Hk.
Qed.

(** *** Records are stored under their capability's key *)

Lemma OMap_set_keyed entries (k : string) instance :
  keyed entries ->
  key (config (feature instance)) = k ->
  keyed (OMap.set entries k instance).
Proof.
  intros Hkeyed Hk. induction entries as [|[k' v'] entries IH]; cbn.
  - by repeat constructor.
  - apply Forall_cons in Hkeyed as [Hhead Htail].
    destruct (String.eqb k k'); constructor; try done. by apply IH.
Qed.

Lemma OMap_get_keyed entries (k : string) instance :
  keyed entries ->
  OMap.get entries k = Some instance ->
  key (config (feature instance)) = k.
Proof.
  intros Hkeyed. induction entries as [|[k' v'] entries IH]; cbn; [done|].
  apply Forall_cons in Hkeyed as [Hhead Htail]. cbn in Hhead.
  destruct (String.eqb k k') eqn:Hkk.
  - apply String.eqb_eq in Hkk as ->. by intros [= <-].
  - by apply IH.
Qed.

Lemma initializeFeatureForGuild_wellKeyed (now : Z) (f : Feature W) (guild : Guild) st :
  wellKeyed st ->
  wellKeyed (fst (initializeFeatureForGuild now f guild st)).
Proof.
  intros Hst. unfold initializeFeatureForGuild, Js.tryCatch.
  destruct (fst (validateFeaturePermissions guild f)); cbn [negb]; [|done].
  unfold Js.bindM, invoke, Js.await, storeInstance, setInstances, log, Js.modify.
  destruct (register f _ [] (world st)) as [w' [e|[[]|e]]]; cbn; [done | | done].
  intros guildId entries. cbn. rewrite lookup_insert. case_decide as Hd.
  - intros [= <-]. apply OMap_set_keyed; [|done].
    destruct (instances st !! guild_id guild) as [entries|] eqn:Hg; cbn.
    + by apply (Hst (guild_id guild)).
    + constructor.
  - apply Hst.
Qed.

Lemma initializeAll_wellKeyed (now : nat -> Z) (i : nat) (fs : list (Feature W))
    (guild : Guild) st :
  wellKeyed st ->
  wellKeyed (fst (initializeAll now i fs guild st)).
Proof.
  revert i st. induction fs as [|f fs IH]; intros i st Hst; [done|].
  cbn [initializeAll]. unfold Js.bindM.
  pose proof (initializeFeatureForGuild_wellKeyed (now i) f guild st Hst) as Hstep.
  destruct (initializeFeatureForGuild (now i) f guild st) as [st1 [[]|e]]; [|done].
  by apply IH.
Qed.

(** After [initializeGuildFeatures] every record of every guild is
    stored under its capability's key. *)
Lemma initializeGuildFeatures_wellKeyed (now : nat -> Z) (fs : list (Feature W))
    (guild : Guild) st :
  wellKeyed st ->
  wellKeyed (fst (initializeGuildFeatures now fs guild st)).
Proof.
  intros Hst. unfold initializeGuildFeatures, Js.bindM, setInstances, log, Js.modify.
  match goal with
  | |- context [initializeAll now 0 fs guild ?s] =>
      assert (Hstart : wellKeyed s)
  end.
  { intros guildId entries. cbn. rewrite lookup_insert. case_decide.
    - intros [= <-]. constructor.
    - apply Hst. }
  pose proof (initializeAll_wellKeyed now 0 fs guild _ Hstart) as Hall.
  destruct (initializeAll now 0 fs guild _) as [st1 [[]|e]]; done.
Qed.

(** [enableFeature] keeps the records under their keys. *)
Lemma enableFeature_wellKeyed (licenses : gmap string License.License) (now : Z)
    (guildId featureKey : string) st :
  wellKeyed st ->
  wellKeyed (fst (enableFeature licenses now guildId featureKey st)).
Proof.
  intros Hst.
  destruct (instances st !! guildId) as [entries|] eqn:Hg.
  2: { rewrite enableFeature_missing; [done|]. intros entries. by rewrite Hg. }
  destruct (OMap.get entries featureKey) as [instance|] eqn:Hk.
  2: { rewrite enableFeature_missing; [done|]. intros entries'. rewrite Hg.
       by intros [= <-]. }
  destruct (enabled instance) eqn:Hen.
  { by rewrite (enableFeature_already _ _ _ _ _ entries instance). }
  assert (Hhook :
    isPremium (config (feature instance)) = false
    \/ License.valid (License.validateFeatureAccess licenses now guildId featureKey)
       = true ->
    wellKeyed (fst (enableFeature licenses now guildId featureKey st))).
  { intros Hgate.
    rewrite (enableFeature_hook licenses now guildId featureKey st entries instance
               Hg Hk Hen Hgate).
    destruct (completed _); [|done].
    intros g entries'. cbn. rewrite lookup_insert. case_decide.
    - intros [= <-]. apply OMap_set_keyed; [by apply (Hst guildId)|].
      cbn. by apply (OMap_get_keyed entries); [apply (Hst guildId)|].
    - apply Hst. }
  destruct (isPremium (config (feature instance))) eqn:Hprem; [|by apply Hhook; left].
  destruct (License.valid
              (License.validateFeatureAccess licenses now guildId featureKey))
    eqn:Hgranted; [by apply Hhook; right|].
  by rewrite (enableFeature_denied _ _ _ _ _ entries instance).
Qed.

(** C3, as the code has it. For a premium capability whose runtime
    record exists for the tenant: when the capability is already
    enabled, [enable] succeeds and changes nothing, without consulting
    the entitlement gate; otherwise [enable] succeeds exactly when the
    gate grants (tenant, key) at the call and the capability's enable
    hook completes, and on a denial it fails without calling the hook
    and without touching the records. *)
Theorem enableFeature_gate (licenses : gmap string License.License) (now : Z)
    (guildId featureKey : string) st entries instance :
  instances st !! guildId = Some entries ->
  OMap.get entries featureKey = Some instance ->
  isPremium (config (feature instance)) = true ->
  let run := enableFeature licenses now guildId featureKey st in
  let granted :=
    License.valid (License.validateFeatureAccess licenses now guildId featureKey) in
  let hook := enable (feature instance) (context instance) [] (world st) in
  if enabled instance then
    run = (st, Js.Fulfilled true)
  else
    (snd run = Js.Fulfilled true <-> granted = true /\ completed (snd hook) = true)
    /\ (granted = false ->
        snd run = Js.Fulfilled false
        /\ calls (fst run) = calls st
        /\ instances (fst run) = instances st
        /\ world (fst run) = world st).
Proof.
  intros Hg Hk Hprem run granted hook.
  destruct (enabled instance) eqn:Hen.
  - by apply (enableFeature_already _ _ _ _ _ entries instance).
  - destruct granted eqn:Hgranted; subst granted.
    + pose proof (enableFeature_hook licenses now guildId featureKey st entries instance
                    Hg Hk Hen (or_intror Hgranted)) as Hrun.
      cbn zeta in Hrun. fold run hook in Hrun. rewrite Hrun.
      split; [|done]. destruct (completed (snd hook)); cbn; split; try done.
      by intros [_ ?].
    + pose proof (enableFeature_denied licenses now guildId featureKey st entries instance
                    Hg Hk Hen Hprem Hgranted) as Hrun.
      fold run in Hrun. rewrite Hrun. cbn. split; [|done].
      split; [done | by intros [? _]].
Qed.

(** After its first successful call, [enableFeature] is a no-op. *)
Lemma enableFeature_after_success (licenses licenses2 : gmap string License.License)
    (now now2 : Z) (guildId featureKey : string) st :
  let run1 := enableFeature licenses now guildId featureKey st in
  snd run1 = Js.Fulfilled true ->
  (length (calls (fst run1)) <= length (calls st) + 1)%nat
  /\ enableFeature licenses2 now2 guildId featureKey (fst run1)
     = (fst run1, Js.Fulfilled true).
Proof.
  intros run1 Hsuccess.
  destruct (instances st !! guildId) as [entries|] eqn:Hg.
  2: { assert (Hrun : run1 = (addLog st (enableFailureLog guildId featureKey),
                             Js.Fulfilled false)).
       { apply enableFeature_missing. intros entries. by rewrite Hg. }
       by rewrite Hrun in Hsuccess. }
  destruct (OMap.get entries featureKey) as [instance|] eqn:Hk.
  2: { assert (Hrun : run1 = (addLog st (enableFailureLog guildId featureKey),
                             Js.Fulfilled false)).
       { apply enableFeature_missing. intros entries'. rewrite Hg. by intros [= <-]. }
       by rewrite Hrun in Hsuccess. }
  destruct (enabled instance) eqn:Hen.
  { assert (Hrun : run1 = (st, Js.Fulfilled true))
      by by apply (enableFeature_already _ _ _ _ _ entries instance).
    rewrite Hrun. cbn [fst]. split; [lia|].
    by apply (enableFeature_already _ _ _ _ _ entries instance). }
  assert (Hgate : isPremium (config (feature instance)) = false
                  \/ License.valid
                       (License.validateFeatureAccess licenses now guildId featureKey)
                     = true).
  { destruct (isPremium (config (feature instance))) eqn:Hprem; [|by left].
    destruct (License.valid _) eqn:Hgranted; [by right|].
    pose proof (enableFeature_denied licenses now guildId featureKey st entries instance
                  Hg Hk Hen Hprem Hgranted) as Hrun.
    fold run1 in Hrun. by rewrite Hrun in Hsuccess. }
  pose proof (enableFeature_hook licenses now guildId featureKey st entries instance
                Hg Hk Hen Hgate) as Hrun.
  cbn zeta in Hrun. fold run1 in Hrun. rewrite Hrun in Hsuccess |- *.
  destruct (completed _); [|done]. cbn [fst calls]. split.
  { rewrite length_app. cbn. lia. }
  eapply enableFeature_already; cbn [instances].
  - apply lookup_insert_eq.
  - apply OMap_get_set.
  - done.
Qed.

(** A call of [enableFeature] that fails without calling a hook failed
    before the hook, and fails the same way when repeated. *)
Lemma enableFeature_after_refusal (licenses : gmap string License.License)
    (now : Z) (guildId featureKey : string) st :
  let run1 := enableFeature licenses now guildId featureKey st in
  snd run1 = Js.Fulfilled false ->
  calls (fst run1) = calls st ->
  run1 = (addLog st (enableFailureLog guildId featureKey), Js.Fulfilled false)
  /\ enableFeature licenses now guildId featureKey (fst run1)
     = (addLog (fst run1) (enableFailureLog guildId featureKey), Js.Fulfilled false).
Proof.
  intros run1 Hfailure Hcalls.
  destruct (instances st !! guildId) as [entries|] eqn:Hg.
  2: { assert (Hrun : run1 = (addLog st (enableFailureLog guildId featureKey),
                             Js.Fulfilled false)).
       { apply enableFeature_missing. intros entries. by rewrite Hg. }
       rewrite Hrun. split; [done|].
       apply enableFeature_missing. intros entries. cbn. by rewrite Hg. }
  destruct (OMap.get entries featureKey) as [instance|] eqn:Hk.
  2: { assert (Hrun : run1 = (addLog st (enableFailureLog guildId featureKey),
                             Js.Fulfilled false)).
       { apply enableFeature_missing. intros entries'. rewrite Hg. by intros [= <-]. }
       rewrite Hrun. split; [done|].
       apply enableFeature_missing. intros entries'. cbn. rewrite Hg. by intros [= <-]. }
  destruct (enabled instance) eqn:Hen.
  { assert (Hrun : run1 = (st, Js.Fulfilled true))
      by by apply (enableFeature_already _ _ _ _ _ entries instance).
    by rewrite Hrun in Hfailure. }
  destruct (isPremium (config (feature instance))) eqn:Hprem;
    [destruct (License.valid
                 (License.validateFeatureAccess licenses now guildId featureKey))
       eqn:Hgranted|].
  - pose proof (enableFeature_hook licenses now guildId featureKey st entries instance
                  Hg Hk Hen (or_intror Hgranted)) as Hrun.
    cbn zeta in Hrun. fold run1 in Hrun. rewrite Hrun in Hcalls.
    destruct (completed _); cbn [fst calls] in Hcalls;
      apply (f_equal length) in Hcalls; rewrite length_app in Hcalls;
      cbn in Hcalls; lia.
  - pose proof (enableFeature_denied licenses now guildId featureKey st entries instance
                  Hg Hk Hen Hprem Hgranted) as Hrun.
    fold run1 in Hrun. rewrite Hrun. split; [done|].
    by apply (enableFeature_denied _ _ _ _ _ entries instance).
  - pose proof (enableFeature_hook licenses now guildId featureKey st entries instance
                  Hg Hk Hen (or_introl Hprem)) as Hrun.
    cbn zeta in Hrun. fold run1 in Hrun. rewrite Hrun in Hcalls.
    destruct (completed _); cbn [fst calls] in Hcalls;
      apply (f_equal length) in Hcalls; rewrite length_app in Hcalls;
      cbn in Hcalls; lia.
Qed.

(** C4, as the code has it. When a call of [enable] succeeds, an
    immediately following call for the same (tenant, capability)
    succeeds too, whatever the licenses and the clock then say, and
    leaves the store exactly as the first call left it; across the two
    calls the enable hook is called at most once. When a call fails
    without reaching the hook (no record, or the entitlement gate
    denies), a second call under the same licenses and clock fails the
    same way, and neither call touches the records, the world or the
    hook. *)
Theorem enableFeature_repeat (licenses : gmap string License.License) (now : Z)
    (guildId featureKey : string) st :
  let run1 := enableFeature licenses now guildId featureKey st in
  (snd run1 = Js.Fulfilled true ->
   (length (calls (fst run1)) <= length (calls st) + 1)%nat
   /\ forall (licenses2 : gmap string License.License) (now2 : Z),
        enableFeature licenses2 now2 guildId featureKey (fst run1)
        = (fst run1, Js.Fulfilled true))
  /\ (snd run1 = Js.Fulfilled false ->
      calls (fst run1) = calls st ->
      let run2 := enableFeature licenses now guildId featureKey (fst run1) in
      snd run2 = Js.Fulfilled false
      /\ calls (fst run2) = calls st
      /\ instances (fst run2) = instances st
      /\ world (fst run2) = world st).
Proof.
  intros run1. split.
  - intros Hsuccess. split.
    + by apply (enableFeature_after_success licenses licenses now now).
    + intros licenses2 now2.
      by apply (enableFeature_after_success licenses licenses2 now now2).
  - intros Hfailure Hcalls run2.
    destruct (enableFeature_after_refusal licenses now guildId featureKey st
                Hfailure Hcalls) as [Hrun1 Hrun2].
    fold run1 in Hrun1, Hrun2. subst run2. rewrite Hrun2, Hrun1. done.
Qed.

End LoaderProperties.

(** ** The properties on the sample data *)

(** Registering [ping] again, with the aliases [p] (taken by another
    command) and [pong] (free): the registration succeeds, [ping]
    resolves to the new handler, [p] keeps its old target and [pong]
    names [ping]. *)
Lemma register_last_writer_wins_witness :
  let run := Registry.register plainBuilder pingCommand pingStore in
  snd run = Js.Fulfilled true
  /\ (exists stored,
        Registry.commands (Registry.registry (fst run)) !! "ping" = Some stored
        /\ Registry.metadata stored = pingMetadata
        /\ Registry.execute stored = Registry.execute pingCommand
        /\ Registry.autocompleteOptions stored = None)
  /\ (forall other, other ≠ "ping" ->
        Registry.commands (Registry.registry (fst run)) !! other
        = Registry.commands pingRegistry !! other)
  /\ (forall alias,
        Registry.aliasMap (Registry.registry (fst run)) !! alias
        = aliasAfter (Registry.aliasMap pingRegistry) ["p"; "pong"] "ping" alias).
Proof.
  apply (register_last_writer_wins plainBuilder pingCommand pingStore).
  intros _. eexists. reflexivity.
Defined.

(** A successful [ping] whose cooldown is written at time 1000 leaves
    the expiry 6000 for its invoker. *)
Lemma cooldown_window_witness :
  cooldownRecord
    (Executor.registry
       (fst (Executor.executeCommand ∅ None (clockAt 1000) pingInteraction
               (Executor.initial pingRegistry))))
    "ping" "u1"
  = Some 6000.
Proof.
  refine (proj1 (cooldown_window ∅ None (clockAt 1000) pingInteraction
                   (Executor.initial pingRegistry) pingCommand pingSuccess
                   _ _ _ _ _ _)).
  - vm_compute. reflexivity.
  - reflexivity.
  - discriminate.
  - vm_compute. discriminate.
  - vm_compute. reflexivity.
  - reflexivity.
Defined.

(** C2 fails on the code when the command is invoked under two of its
    names. [ping] has a cooldown of five seconds and the alias [pong];
    both names resolve to the same command. User [u1] invokes it as
    [pong] at time 1000, successfully. One second later, well within
    the cooldown, the same user invokes the same command as [ping]: the
    invocation passes the cooldown check and succeeds, where an
    invocation as [pong] at that time is refused. The record was
    written under the invoked name [pong], and none exists under the
    name of the command. *)
Theorem cooldown_bypassed_by_alias :
  let first := Executor.executeCommand ∅ None (clockAt 1000) pongInteraction
                 (Executor.initial aliasRegistry) in
  let r1 := Executor.registry (fst first) in
  let second := Executor.executeCommand ∅ None (clockAt 2000) pingInteraction
                  (Executor.initial r1) in
  let third := Executor.executeCommand ∅ None (clockAt 2000) pongInteraction
                 (Executor.initial r1) in
  (exists handler,
     Registry.get aliasRegistry "ping" = Some handler
     /\ Registry.get aliasRegistry "pong" = Some handler
     /\ Registry.name (Registry.metadata handler) = "ping"
     /\ Registry.cooldown (Registry.metadata handler) = 5)
  /\ Executor.id (Executor.user pongInteraction)
     = Executor.id (Executor.user pingInteraction)
  /\ map reportedSuccess [snd first; snd second; snd third]
     = [Some true; Some true; Some false]
  /\ Executor.trace (fst second)
     = [Executor.GetHandler; Executor.CheckEnabled; Executor.CheckCooldown;
        Executor.CreateContext; Executor.CheckPermissions; Executor.CheckPremium;
        Executor.ParseArguments; Executor.ExecuteCommand; Executor.SetCooldown]
  /\ cooldownRecord r1 "pong" "u1" = Some 6000
  /\ cooldownRecord r1 "ping" "u1" = None.
Proof.
  vm_compute. split_and!; try reflexivity. eexists. split_and!; reflexivity.
Qed.

(** The scenario of the specification: [ping] with a cooldown of five
    seconds succeeds, fails within the five seconds with a remaining
    time between 0 and 5000 ms, and succeeds again afterwards. *)
Example ping_scenario :
  let first := Executor.executeCommand ∅ None (clockAt 1000) pingInteraction
                 (Executor.initial pingRegistry) in
  let second := Executor.executeCommand ∅ None (clockAt 3500) pingInteraction
                  (Executor.initial (Executor.registry (fst first))) in
  let third := Executor.executeCommand ∅ None (clockAt 6000) pingInteraction
                 (Executor.initial (Executor.registry (fst first))) in
  map reportedSuccess [snd first; snd second; snd third]
  = [Some true; Some false; Some true]
  /\ Registry.isOnCooldown (Executor.registry (fst first)) 3500 "ping" "u1" = 2500
  /\ Executor.replies (fst second)
     = [(Executor.Reply, "Command is on cooldown. Try again in 3 seconds.")].
Proof. vm_compute. done. Qed.

(** C3 as stated fails on a capability that is already enabled: with no
    license at all, [enable] of the enabled premium [moderation]
    succeeds although the gate denies it. *)
Lemma enable_gate_counterexample :
  ~ (snd (Loader.enableFeature ∅ 0 "g1" "moderation" loaderStore) = Js.Fulfilled true
     <-> License.valid (License.validateFeatureAccess ∅ 0 "g1" "moderation") = true).
Proof.
  intros [Hgranted _].
  assert (Hrun : snd (Loader.enableFeature ∅ 0 "g1" "moderation" loaderStore)
                 = Js.Fulfilled true) by (vm_compute; reflexivity).
  specialize (Hgranted Hrun). vm_compute in Hgranted. discriminate.
Qed.

(** With a license that grants it, the premium [moderation] is
    enabled. *)
Lemma enableFeature_gate_witness :
  snd (Loader.enableFeature {["g1" := moderationLicense]} 0 "g1" "moderation" freshStore)
  = Js.Fulfilled true.
Proof.
  refine (proj2 (proj1 (enableFeature_gate {["g1" := moderationLicense]} 0
                          "g1" "moderation" freshStore freshEntries
                          (instanceOf moderationFeature false) _ _ _)) _).
  - vm_compute. reflexivity.
  - reflexivity.
  - reflexivity.
  - split; vm_compute; reflexivity.
Defined.

(** C4 as stated fails when the enable hook fails: two calls of
    [enable] in a row for [flaky] call its enable hook twice. *)
Lemma enable_twice_counterexample :
  let once := fst (Loader.enableFeature ∅ 0 "g1" "flaky" loaderStore) in
  let twice := fst (Loader.enableFeature ∅ 0 "g1" "flaky" once) in
  Loader.calls loaderStore = []
  /\ map Loader.call_method (Loader.calls twice) = ["enable"; "enable"]
  /\ ~ (length (Loader.calls twice) <= 1)%nat.
Proof.
  vm_compute. split_and!; [reflexivity | reflexivity |]. intros H. lia.
Qed.

(** The scenario of the specification: [moderation] is premium; a
    tenant whose license grants only [welcome] and [xp] cannot enable
    it, and can once the license grants [moderation]. *)
Example moderation_scenario :
  snd (Loader.enableFeature {["g1" := License.withFeatures moderationLicense
                                        ["welcome"; "xp"]]}
         0 "g1" "moderation" freshStore) = Js.Fulfilled false
  /\ snd (Loader.enableFeature {["g1" := moderationLicense]}
            0 "g1" "moderation" freshStore) = Js.Fulfilled true.
Proof. vm_compute. done. Qed.

(** The dispatch scenario of the specification: of two enabled
    capabilities, the handler of one fails (its promise is rejected)
    and the handler of the other succeeds; the dispatch completes, both
    handlers were called, and the failure is logged, not re-thrown. *)
Example dispatch_scenario :
  let run := Loader.handleEvent "g3" "memberAdd" ["member-1"] rejecterStore in
  snd run = Js.Fulfilled tt
  /\ map Loader.call_feature (Loader.calls (fst run)) = ["rejecter"; "audit"]
  /\ map Js.msg (Loader.logs (fst run)) = ["Feature event handler failed"].
Proof. vm_compute. done. Qed.

(** C5 fails on the code for a handler that throws before it returns
    its promise. Guild [g2] has [greeter] and [audit] enabled, both
    declare a [memberAdd] handler, and the handler of [greeter] is a
    plain function that throws. The dispatch is rejected with the
    handler's error instead of completing, nothing is logged, and the
    handler of [audit] is never called. *)
Theorem handleEvent_sync_throw_escapes :
  let run := Loader.handleEvent "g2" "memberAdd" ["member-1"] greeterStore in
  Loader.instances greeterStore !! "g2"
  = Some [("greeter", instanceOf greeterFeature true);
          ("audit", instanceOf auditFeature true)]
  /\ dispatchTargets "memberAdd"
       [("greeter", instanceOf greeterFeature true);
        ("audit", instanceOf auditFeature true)]
     = ["greeter"; "audit"]
  /\ snd run = Js.Rejected (Js.ErrorObj "member has no name")
  /\ map Loader.call_feature (Loader.calls (fst run)) = ["greeter"]
  /\ Loader.logs (fst run) = [].
Proof. vm_compute. done. Qed.

(** * Further properties of the code *)

(** ** License manager: registration, revocation, cleanup *)

Section LicenseLifecycle.

Import License.

Implicit Types (licenses : gmap string License) (l : License) (now : Z).

Lemma validateFeatureAccess_valid licenses now (guild featureKey : string) :
  valid (validateFeatureAccess licenses now guild featureKey) = true <->
  exists l, licenses !! guild = Some l
            /\ isExpired l now = false
            /\ isRevoked l = false
            /\ featureKey ∈ features l.
Proof.
  unfold validateFeatureAccess. destruct (licenses !! guild) as [l|].
  - destruct (isExpired l now) eqn:He; [|destruct (isRevoked l) eqn:Hr;
      [|destruct (Js.includes (features l) featureKey) eqn:Hi]]; cbn.
    + split; [done|]. intros (l' & [= <-] & ? & _). congruence.
    + split; [done|]. intros (l' & [= <-] & _ & ? & _). congruence.
    + apply includes_elem_of in Hi. split; [|done]. intros _. by exists l.
    + apply includes_not_elem_of in Hi. split; [done|].
      by intros (l' & [= <-] & _ & _ & ?).
  - split; [done|]. by intros (l' & ? & _).
Qed.

(** [registerLicense] followed by the per-feature check. The schema
    refuses an object exactly when its type is neither premium nor
    enterprise or one of its dates is an invalid date. An object
    is refused, and the store left as it was, exactly when its type is
    neither premium nor enterprise, its issue date or its expiry date is
    an invalid date, it is expired at registration, or it carries a
    revocation date (valid or not). An accepted object is stored for
    its guild with its own fields, replacing the license the guild had;
    it is what [getLicense] returns; the other guilds are left alone;
    and from then on every feature key it lists is granted at every
    time that is not past its expiry. *)
Theorem registerLicense_then_validate licenses now (o : LicenseObject) :
  let run := registerLicense licenses now o in
  (LicenseSchema_ok o = false <->
     (obj_type o ≠ "premium" /\ obj_type o ≠ "enterprise")
     \/ obj_issuedAt o = InvalidDate
     \/ obj_expiresAt o = Some InvalidDate
     \/ obj_revokedAt o = Some InvalidDate)
  /\ (fst run = false <->
     (obj_type o ≠ "premium" /\ obj_type o ≠ "enterprise")
     \/ obj_issuedAt o = InvalidDate
     \/ obj_expiresAt o = Some InvalidDate
     \/ (exists e, obj_expiresAt o = Some (DateAt e) /\ e < now)
     \/ is_Some (obj_revokedAt o))
  /\ (fst run = false -> snd run = licenses)
  /\ (fst run = true ->
      exists l,
        getLicense (snd run) (obj_guildId o) = Some l
        /\ id l = obj_id o /\ guildId l = obj_guildId o /\ type l = obj_type o
        /\ features l = obj_features o
        /\ obj_issuedAt o = DateAt (issuedAt l)
        /\ obj_expiresAt o = DateAt <$> expiresAt l
        /\ revokedAt l = None
        /\ (forall guild, guild ≠ obj_guildId o -> snd run !! guild = licenses !! guild)
        /\ forall featureKey later,
             featureKey ∈ obj_features o ->
             (forall e, obj_expiresAt o = Some (DateAt e) -> later <= e) ->
             valid (validateFeatureAccess (snd run) later (obj_guildId o) featureKey)
             = true).
Proof.
  intros run. subst run. split.
  { unfold LicenseSchema_ok, LicenseSchema_parse.
    destruct (_ || _) eqn:Hpaid.
    - apply orb_true_iff in Hpaid. rewrite !String.eqb_eq in Hpaid.
      destruct (obj_issuedAt o) as [issued|];
        destruct (obj_expiresAt o) as [[expires|]|];
        destruct (obj_revokedAt o) as [[revoked|]|]; cbn;
        (split; [try done; intros _; auto
                | intros [[H1 H2] | [H | [H | H]]]; try done;
                  by destruct Hpaid]).
    - apply orb_false_iff in Hpaid. rewrite !String.eqb_neq in Hpaid.
      split; [by left | done]. }
  unfold registerLicense.
  destruct (LicenseSchema_parse o) as [l|] eqn:Hparse.
  - apply LicenseSchema_parse_Some in Hparse
      as (Hpaid & Hid & Hg & Ht & Hf & Hia & Hea & Hra).
    pose proof (isExpired_spec l now) as HE. pose proof (isRevoked_spec l) as HR.
    destruct (isExpired l now) eqn:He; [|destruct (isRevoked l) eqn:Hr]; cbn [fst snd].
    + split_and!; [|done|done]. split; [|done]. intros _.
      destruct (proj1 HE eq_refl) as (e & Hexp & Hlt).
      right. right. right. left. exists e. by rewrite Hea, Hexp.
    + split_and!; [|done|done]. split; [|done]. intros _.
      destruct (proj1 HR eq_refl) as (t & Hrev).
      right. right. right. right. rewrite Hra, Hrev. by eexists.
    + split_and!; [|done|].
      * split; [done|]. intros [[Hp He'] | [Hi | [Hx | [(e & Hx & Hlt) | [d Hd]]]]].
        -- by destruct Hpaid.
        -- congruence.
        -- rewrite Hea in Hx. by destruct (expiresAt l).
        -- assert (isExpired l now = true); [|congruence].
           apply isExpired_spec. exists e. split; [|done].
           rewrite Hea in Hx. destruct (expiresAt l); by inversion Hx.
        -- assert (isRevoked l = true); [|congruence].
           apply isRevoked_spec. rewrite Hra in Hd. destruct (revokedAt l); [by eexists | done].
      * intros _. exists l. unfold getLicense. rewrite Hg.
        assert (Hnone : revokedAt l = None).
        { destruct (revokedAt l) eqn:Hrev; [|done].
          assert (isRevoked l = true); [|congruence]. apply isRevoked_spec. by eexists. }
        split_and!; try done.
        -- apply lookup_insert_eq.
        -- intros guild Hne. by rewrite lookup_insert_ne.
        -- intros featureKey later Hin Hlater. apply validateFeatureAccess_valid.
           exists l. rewrite lookup_insert_eq, Hf. split_and!; [done | | done | done].
           unfold isExpired. destruct (expiresAt l) as [e|] eqn:Hexp; [|done].
           apply Z.ltb_ge, Hlater. by rewrite Hea.
  - cbn [fst snd]. split_and!; [|done|done]. split; [|done]. intros _.
    unfold LicenseSchema_parse in Hparse.
    destruct (_ || _) eqn:Hpaid.
    + destruct (obj_issuedAt o) as [issued|]; [|by right; left].
      destruct (obj_expiresAt o) as [[expires|]|]; [|by right; right; left|];
        (destruct (obj_revokedAt o) as [[revoked|]|]; [done | | done];
         right; right; right; right; by eexists).
    + left. apply orb_false_iff in Hpaid as [H1 H2].
      by rewrite !String.eqb_neq in *.
Qed.

(** [revokeLicense] followed by the per-feature check. Revoking an
    unknown guild returns [false] and changes nothing. Revoking a known
    guild returns [true], keeps the license stored with its revocation
    time set to the time of the call, leaves the other guilds alone, and
    from then on the per-feature check denies every key of that guild at
    every time. *)
Theorem revokeLicense_then_validate licenses now (guild : string) :
  let run := revokeLicense licenses now guild in
  match licenses !! guild with
  | None => run = (false, licenses)
  | Some l =>
      fst run = true
      /\ getLicense (snd run) guild = Some (setRevokedAt l now)
      /\ (forall other, other ≠ guild -> snd run !! other = licenses !! other)
      /\ forall featureKey later,
           valid (validateFeatureAccess (snd run) later guild featureKey) = false
  end.
Proof.
  intros run. subst run. unfold revokeLicense.
  destruct (licenses !! guild) as [l|]; [|done]. cbn [fst snd].
  unfold getLicense. split_and!; [done | apply lookup_insert_eq | |].
  - intros other Hne. by rewrite lookup_insert_ne.
  - intros featureKey later. unfold validateFeatureAccess.
    rewrite lookup_insert_eq. by destruct (isExpired _ later).
Qed.

(** The cleanup loop run from any starting store [licenses0] over the
    entries of [licenses]. *)
Lemma cleanup_fold licenses0 licenses now :
  let run :=
    map_fold
      (fun guild l (acc : nat * gmap string License) =>
         if isExpired l now then (S (fst acc), delete guild (snd acc)) else acc)
      (0%nat, licenses0) licenses in
  fst run = size (filter (fun entry => isExpired (snd entry) now = true) licenses)
  /\ forall guild,
       snd run !! guild
       = match licenses !! guild with
         | Some l => if isExpired l now then None else licenses0 !! guild
         | None => licenses0 !! guild
         end.
Proof.
  cbn zeta. apply (map_fold_weak_ind (fun r m =>
    fst r = size (filter (fun entry => isExpired (snd entry) now = true) m)
    /\ forall guild,
         snd r !! guild
         = match m !! guild with
           | Some l => if isExpired l now then None else licenses0 !! guild
           | None => licenses0 !! guild
           end)).
  - split; [by rewrite map_filter_empty|]. intros guild. by rewrite lookup_empty.
  - intros g l m [n kept] Hfresh [Hcount Hkept]. cbn [fst snd] in *.
    destruct (isExpired l now) eqn:He; cbn [fst snd].
    + split.
      * rewrite map_filter_insert_True by done.
        rewrite map_size_insert_None; [by rewrite Hcount|].
        by rewrite map_lookup_filter_None_2; [|left].
      * intros guild. rewrite lookup_delete, lookup_insert.
        case_decide; [subst; by rewrite He | apply Hkept].
    + split.
      * rewrite map_filter_insert_False by (cbn; congruence).
        by rewrite delete_id.
      * intros guild. rewrite lookup_insert.
        case_decide; [subst; rewrite He, Hkept, Hfresh; done | apply Hkept].
Qed.

Lemma cleanupExpiredLicenses_lookup licenses now (guild : string) :
  snd (cleanupExpiredLicenses licenses now) !! guild
  = match licenses !! guild with
    | Some l => if isExpired l now then None else Some l
    | None => None
    end.
Proof.
  unfold cleanupExpiredLicenses.
  destruct (cleanup_fold licenses licenses now) as [_ Hkept]. cbn zeta in Hkept.
  rewrite Hkept. by destruct (licenses !! guild) as [l|].
Qed.

(** [cleanupExpiredLicenses]. The number it returns is the number of
    licenses it removed; afterwards no stored license is expired, and
    every license that was not expired is still stored unchanged. The
    per-feature check answers as before for every guild and key (an
    expired license was denied already); the tier-level check of a
    guild whose license was removed now answers no. *)
Theorem cleanupExpiredLicenses_spec licenses now :
  let run := cleanupExpiredLicenses licenses now in
  (fst run + size (snd run) = size licenses)%nat
  /\ (forall guild l, snd run !! guild = Some l ->
        licenses !! guild = Some l /\ isExpired l now = false)
  /\ (forall guild l, licenses !! guild = Some l -> isExpired l now = false ->
        snd run !! guild = Some l)
  /\ (forall guild featureKey,
        valid (validateFeatureAccess (snd run) now guild featureKey)
        = valid (validateFeatureAccess licenses now guild featureKey))
  /\ (forall guild l, licenses !! guild = Some l -> isExpired l now = true ->
        hasPremiumAccess (snd run) now guild = false).
Proof.
  intros run.
  pose proof (cleanupExpiredLicenses_lookup licenses now) as Hlookup. fold run in Hlookup.
  assert (Hkept : snd run = filter (fun entry => isExpired (snd entry) now = false) licenses).
  { apply map_eq. intros guild. rewrite Hlookup, map_lookup_filter.
    destruct (licenses !! guild) as [l|]; cbn; [|done].
    destruct (isExpired l now) eqn:He.
    - by rewrite option_guard_False by (cbn; congruence).
    - by rewrite option_guard_True. }
  split_and!.
  - subst run. unfold cleanupExpiredLicenses in *.
    destruct (cleanup_fold licenses licenses now) as [-> _]. rewrite Hkept.
    rewrite <- (map_filter_union_complement
                  (fun entry => isExpired (snd entry) now = true) licenses) at 3.
    rewrite map_size_disj_union by apply map_disjoint_filter_complement.
    f_equal. f_equal. apply map_filter_ext. intros guild l _. cbn.
    by destruct (isExpired l now).
  - intros guild l. rewrite Hlookup. destruct (licenses !! guild) as [l'|]; [|done].
    destruct (isExpired l' now) eqn:He; [done|]. by intros [= <-].
  - intros guild l Hl He. by rewrite Hlookup, Hl, He.
  - intros guild featureKey. unfold validateFeatureAccess. rewrite Hlookup.
    destruct (licenses !! guild) as [l|]; [|done].
    destruct (isExpired l now) eqn:He; [done|]. by rewrite He.
  - intros guild l Hl He. unfold hasPremiumAccess. by rewrite Hlookup, Hl, He.
Qed.

(** In every store the manager can reach, a license is stored under
    the id of its own guild and has type premium or enterprise. *)
Lemma licensesReachable_inv licenses :
  licensesReachable licenses ->
  forall guild l, licenses !! guild = Some l ->
    guildId l = guild /\ (type l = "premium" \/ type l = "enterprise").
Proof.
  induction 1 as [|licenses now o _ IH|licenses now g0 _ IH|licenses now _ IH];
    intros guild l.
  - by rewrite lookup_empty.
  - unfold registerLicense.
    destruct (LicenseSchema_parse o) as [l0|] eqn:Hparse; cbn [snd]; [|apply IH].
    apply LicenseSchema_parse_Some in Hparse as (Hpaid & _ & _ & Htype & _).
    destruct (isExpired l0 now); [apply IH|].
    destruct (isRevoked l0); [apply IH|]. cbn [snd].
    rewrite lookup_insert. case_decide; [|apply IH]. intros [= <-].
    by rewrite Htype.
  - unfold revokeLicense. destruct (licenses !! g0) as [l0|] eqn:Hl0; [|apply IH].
    cbn [snd]. rewrite lookup_insert. case_decide; [|apply IH].
    intros [= <-]. subst. by apply (IH _ _ Hl0).
  - rewrite cleanupExpiredLicenses_lookup.
    destruct (licenses !! guild) as [l'|] eqn:Hl'; [|done].
    destruct (isExpired l' now); [done|]. intros [= <-]. by apply IH.
Qed.

(** In every store the manager can reach, the tier-level premium check
    of a guild answers yes exactly when a license is stored for the
    guild, at any time and whatever the state of that license. *)
Theorem hasPremiumAccess_reachable licenses now (guild : string) :
  licensesReachable licenses ->
  hasPremiumAccess licenses now guild = true <-> is_Some (licenses !! guild).
Proof.
  intros Hreach. unfold hasPremiumAccess.
  destruct (licenses !! guild) as [l|] eqn:Hl.
  - destruct (licensesReachable_inv licenses Hreach guild l Hl) as [_ Hpaid].
    rewrite <- !String.eqb_eq in Hpaid. apply orb_true_iff in Hpaid.
    rewrite <- orb_assoc, Hpaid, orb_true_r.
    split; [eauto | done].
  - split; [done | by intros [? ?]].
Qed.

End LicenseLifecycle.

(** ** Command registry: registration, removal, switches, cooldowns *)

Section RegistryLifecycle.

Import Registry.

Implicit Types (st : Store) (r : Registry) (command : CommandHandler).

Lemma registerAliases_option_frame (als : option (list string)) (name : string) st :
  let loop := match als with
              | Some als => registerAliases als name
              | None => fun s => (s, Js.Fulfilled tt)
              end in
  snd (loop st) = Js.Fulfilled tt
  /\ commands (registry (fst (loop st))) = commands (registry st)
  /\ cooldowns (registry (fst (loop st))) = cooldowns (registry st)
  /\ forall alias,
       aliasMap (registry (fst (loop st))) !! alias
       = aliasAfter (aliasMap (registry st)) (default [] als) name alias.
Proof.
  destruct als as [als|]; cbn.
  - apply registerAliases_spec.
  - split_and!; try done. intros alias. unfold aliasAfter.
    destruct (aliasMap (registry st) !! alias); [done|].
    rewrite bool_decide_eq_false_2; [done | by intros ?%elem_of_nil].
Qed.

(** The registry [register] leaves behind, in closed form. *)
Lemma register_outcome (newBuilder : CommandMetadata -> Js.Settled Builder)
    command st :
  let n := name (metadata command) in
  let run := register newBuilder command st in
  if CommandMetadataSchema_ok (metadata command) && builderAvailable newBuilder command
  then
    snd run = Js.Fulfilled true
    /\ cooldowns (registry (fst run)) = cooldowns (registry st)
    /\ (forall alias,
          aliasMap (registry (fst run)) !! alias
          = aliasAfter (aliasMap (registry st))
              (default [] (aliases (metadata command))) n alias)
    /\ exists stored,
         commands (registry (fst run)) = <[n := stored]> (commands (registry st))
         /\ metadata stored = metadata command
         /\ execute stored = execute command
         /\ autocompleteOptions stored = autocompleteOptions command
  else
    snd run = Js.Fulfilled false /\ registry (fst run) = registry st.
Proof.
  intros n run. subst run. unfold register, builderAvailable.
  destruct (CommandMetadataSchema_ok (metadata command)) eqn:Hok; cbn [andb].
  2: { unfold Js.tryCatch, Js.bindM. done. }
  unfold Js.tryCatch, Js.bindM, Js.gets, Js.ret, Js.await, update, log, Js.modify.
  cbn beta iota. fold n.
  assert (Hloop : forall stored st2,
    commands (registry st2) = <[n := stored]> (commands (registry st)) ->
    aliasMap (registry st2) = aliasMap (registry st) ->
    cooldowns (registry st2) = cooldowns (registry st) ->
    exists st3,
      match aliases (metadata command) with
      | Some als => registerAliases als n
      | None => fun s => (s, Js.Fulfilled tt)
      end st2 = (st3, Js.Fulfilled tt)
      /\ commands (registry st3) = <[n := stored]> (commands (registry st))
      /\ cooldowns (registry st3) = cooldowns (registry st)
      /\ forall alias,
           aliasMap (registry st3) !! alias
           = aliasAfter (aliasMap (registry st))
               (default [] (aliases (metadata command))) n alias).
  { intros stored st2 Hcmd Hali Hcd.
    destruct (registerAliases_option_frame (aliases (metadata command)) n st2)
      as (Hr & Hc & Hcd' & Hal). cbn zeta in Hr, Hc, Hcd', Hal.
    destruct (match aliases (metadata command) with
              | Some als => registerAliases als n
              | None => fun s => (s, Js.Fulfilled tt)
              end st2) as [st3 r3].
    cbn [fst snd] in *. subst r3. exists st3. split_and!; [done | | |].
    - by rewrite Hc.
    - by rewrite Hcd'.
    - intros alias. by rewrite Hal, Hali. }
  destruct (builder command) as [b0|] eqn:Hb.
  - destruct (bool_decide (is_Some (commands (registry st) !! n)));
      match goal with
      | |- context [match aliases (metadata command) with
                    | Some als => registerAliases als n
                    | None => _
                    end ?s] =>
          destruct (Hloop command s) as (st3 & Heq & Hc & Hcd & Hal); [done | done | done |]
      end;
      rewrite Heq; cbn; (split_and!; [done | done | done |]); by exists command.
  - destruct (newBuilder (metadata command)) as [b|e] eqn:Hnb; cbn [Js.isFulfilled].
    + destruct (bool_decide (is_Some (commands (registry st) !! n)));
        cbn beta iota;
        match goal with
        | |- context [match aliases (metadata command) with
                      | Some als => registerAliases als n
                      | None => _
                      end ?s] =>
            destruct (Hloop (withBuilder command b) s) as (st3 & Heq & Hc & Hcd & Hal);
              [done | done | done |]
        end;
        rewrite Heq; cbn; (split_and!; [done | done | done |]);
        by exists (withBuilder command b).
    + by destruct (bool_decide (is_Some (commands (registry st) !! n))).
Qed.

Lemma CommandMetadataSchema_ok_name (m : CommandMetadata) :
  CommandMetadataSchema_ok m = true -> name m ≠ "".
Proof.
  unfold CommandMetadataSchema_ok. rewrite !andb_true_iff.
  intros ((((Hlen & _) & _) & _) & _) Hempty. rewrite Hempty in Hlen. done.
Qed.

(** [register] followed by [get]. When the metadata passes the schema
    and a builder is at hand, [register] succeeds and the command is
    then found under its name; it is also found under each alias it
    declares that was free before and is not the name of a command;
    the cooldown records are not touched. Otherwise [register] returns
    [false] and the registry is as before. *)
Theorem register_then_get (newBuilder : CommandMetadata -> Js.Settled Builder)
    command st :
  let n := name (metadata command) in
  let run := register newBuilder command st in
  let r' := registry (fst run) in
  if CommandMetadataSchema_ok (metadata command) && builderAvailable newBuilder command
  then
    snd run = Js.Fulfilled true
    /\ cooldowns r' = cooldowns (registry st)
    /\ exists stored,
         metadata stored = metadata command
         /\ execute stored = execute command
         /\ get r' n = Some stored
         /\ forall alias,
              alias ∈ default [] (aliases (metadata command)) ->
              aliasMap (registry st) !! alias = None ->
              commands r' !! alias = None ->
              get r' alias = Some stored
  else
    snd run = Js.Fulfilled false /\ r' = registry st.
Proof.
  intros n run r'. pose proof (register_outcome newBuilder command st) as Hout.
  cbn zeta in Hout. fold n run r' in Hout.
  destruct (CommandMetadataSchema_ok (metadata command)) eqn:Hok; [|done].
  destruct (builderAvailable newBuilder command); [|done]. cbn [andb] in *.
  destruct Hout as (Hr & Hcd & Hal & stored & Hc & Hm & He & _).
  split_and!; [done | done |]. exists stored. split_and!; [done | done | |].
  - unfold get. by rewrite Hc, lookup_insert_eq.
  - intros alias Hin Hfree Hnocmd. unfold get. rewrite Hnocmd, Hal.
    unfold aliasAfter. rewrite Hfree, bool_decide_eq_true_2 by done.
    assert (Hne : String.eqb n "" = false).
    { apply String.eqb_neq. by apply CommandMetadataSchema_ok_name. }
    by rewrite Hne, Hc, lookup_insert_eq.
Qed.

(** *** Removal *)

Lemma foldl_delete_lookup (als : list string) (m : gmap string string) (alias : string) :
  foldl (fun m alias => delete alias m) m als !! alias
  = if bool_decide (alias ∈ als) then None else m !! alias.
Proof.
  revert m. induction als as [|a als IH]; intros m; cbn.
  - rewrite bool_decide_eq_false_2; [done | by intros ?%elem_of_nil].
  - rewrite IH. destruct (decide (alias = a)) as [-> | Hne].
    + rewrite lookup_delete_eq. rewrite (bool_decide_eq_true_2 (a ∈ a :: als)) by by left.
      by destruct (bool_decide (a ∈ als)).
    + rewrite lookup_delete_ne by done.
      rewrite (bool_decide_ext (alias ∈ a :: als) (alias ∈ als)); [done|].
      rewrite elem_of_cons. split; [by intros [?|?] | by right].
Qed.

(** [deregister] in closed form. *)
Lemma deregister_outcome (name : string) st :
  deregister name st
  = match commands (registry st) !! name with
    | None =>
        ({| registry := registry st;
            logs := logs st ++ [{| Js.level := Js.LWarn;
                                   Js.msg := "Command not found for deregistration";
                                   Js.fields := [("command", name)] |}] |},
         Js.Fulfilled false)
    | Some c =>
        ({| registry :=
              {| commands := delete name (commands (registry st));
                 aliasMap := foldl (fun m alias => delete alias m)
                               (aliasMap (registry st))
                               (default [] (aliases (metadata c)));
                 cooldowns := delete name (cooldowns (registry st)) |};
            logs := logs st ++ [{| Js.level := Js.LInfo;
                                   Js.msg := "Command deregistered";
                                   Js.fields := [("command", name)] |}] |},
         Js.Fulfilled true)
    end.
Proof.
  unfold deregister, Js.bindM, Js.gets.
  by destruct (commands (registry st) !! name).
Qed.

(** [deregister]. For a name without command it returns [false] and
    leaves the registry as it is. For a registered command it returns
    [true]; afterwards the name has no command, nobody is on cooldown
    for it, every alias the command declared is gone from the index
    (whatever that alias pointed to), and the other commands, aliases
    and cooldown records are as before. *)
Theorem deregister_spec (name : string) st :
  let run := deregister name st in
  let r' := registry (fst run) in
  match commands (registry st) !! name with
  | None => snd run = Js.Fulfilled false /\ r' = registry st
  | Some c =>
      snd run = Js.Fulfilled true
      /\ commands r' !! name = None
      /\ (forall now userId, isOnCooldown r' now name userId = 0)
      /\ (forall alias, alias ∈ default [] (aliases (metadata c)) ->
            aliasMap r' !! alias = None)
      /\ (forall other, other ≠ name ->
            commands r' !! other = commands (registry st) !! other
            /\ cooldowns r' !! other = cooldowns (registry st) !! other)
      /\ (forall alias, alias ∉ default [] (aliases (metadata c)) ->
            aliasMap r' !! alias = aliasMap (registry st) !! alias)
  end.
Proof.
  intros run r'. subst r' run. rewrite deregister_outcome.
  destruct (commands (registry st) !! name) as [c|]; [|done].
  cbn [fst snd registry commands aliasMap cooldowns]. split_and!.
  - done.
  - apply lookup_delete_eq.
  - intros now userId. unfold isOnCooldown. cbn. by rewrite lookup_delete_eq.
  - intros alias Hin. by rewrite foldl_delete_lookup, bool_decide_eq_true_2.
  - intros other Hne. by rewrite !lookup_delete_ne.
  - intros alias Hnotin. by rewrite foldl_delete_lookup, bool_decide_eq_false_2.
Qed.

(** [register] followed by [deregister]. Registering a command whose
    name and aliases are all new, and for which no cooldown is recorded,
    and then removing it, gives back the registry from before. *)
Theorem register_then_deregister (newBuilder : CommandMetadata -> Js.Settled Builder)
    command st :
  let n := name (metadata command) in
  let run1 := register newBuilder command st in
  let run2 := deregister n (fst run1) in
  CommandMetadataSchema_ok (metadata command) = true ->
  builderAvailable newBuilder command = true ->
  commands (registry st) !! n = None ->
  cooldowns (registry st) !! n = None ->
  (forall alias, alias ∈ default [] (aliases (metadata command)) ->
     aliasMap (registry st) !! alias = None) ->
  snd run1 = Js.Fulfilled true
  /\ snd run2 = Js.Fulfilled true
  /\ registry (fst run2) = registry st.
Proof.
  intros n run1 run2 Hok Hb Hfresh Hnocd Haliases.
  pose proof (register_outcome newBuilder command st) as Hout.
  cbn zeta in Hout. fold n run1 in Hout. rewrite Hok, Hb in Hout. cbn [andb] in Hout.
  destruct Hout as (Hr & Hcd & Hal & stored & Hc & Hm & _).
  subst run2. rewrite deregister_outcome. rewrite Hc, lookup_insert_eq.
  cbn [fst snd registry]. split_and!; [done | done |].
  rewrite Hcd, Hm.
  destruct (registry st) as [cmds0 als0 cds0]. cbn [commands aliasMap cooldowns] in *.
  f_equal.
  - by apply delete_insert_id.
  - apply map_eq. intros alias. rewrite foldl_delete_lookup, Hal.
    unfold aliasAfter. case_bool_decide as Hin.
    + symmetry. by apply Haliases.
    + by destruct (als0 !! alias).
  - by apply delete_id.
Qed.

(** *** Cooldown records *)

(** The cooldown table is keyed by command name and user.
    [setCooldown] and [clearCooldown] for one pair leave the remaining
    time of every other pair as it was; after [clearCooldown] the pair
    is free, after [clearAllCooldowns] every pair is; a remaining time
    is never negative; and none of the three changes which command a
    name resolves to. *)
Theorem cooldowns_keyed_by_command_and_user r (now : Z) (n u : string) (d : Z) :
  (forall t n' u', (n', u') ≠ (n, u) ->
     isOnCooldown (setCooldown r now n u d) t n' u' = isOnCooldown r t n' u')
  /\ (forall t n' u', (n', u') ≠ (n, u) ->
       isOnCooldown (clearCooldown r n u) t n' u' = isOnCooldown r t n' u')
  /\ (forall t, isOnCooldown (clearCooldown r n u) t n u = 0)
  /\ (forall t n' u', isOnCooldown (clearAllCooldowns r) t n' u' = 0)
  /\ (forall t n' u', 0 <= isOnCooldown r t n' u')
  /\ (forall name,
       get (setCooldown r now n u d) name = get r name
       /\ get (clearCooldown r n u) name = get r name
       /\ get (clearAllCooldowns r) name = get r name).
Proof.
  split_and!.
  - intros t n' u' Hne. unfold isOnCooldown, setCooldown. cbn.
    destruct (decide (n' = n)) as [-> | Hn].
    + rewrite lookup_insert_eq. assert (u' ≠ u) by congruence.
      rewrite lookup_insert_ne by done.
      by destruct (cooldowns r !! n).
    + by rewrite lookup_insert_ne.
  - intros t n' u' Hne. unfold isOnCooldown, clearCooldown.
    destruct (cooldowns r !! n) as [m|] eqn:Hm; [|done]. cbn.
    destruct (decide (n' = n)) as [-> | Hn].
    + rewrite lookup_insert_eq, Hm. assert (u' ≠ u) by congruence.
      by rewrite lookup_delete_ne.
    + by rewrite lookup_insert_ne.
  - intros t. unfold isOnCooldown, clearCooldown.
    destruct (cooldowns r !! n) as [m|] eqn:Hm; [|by rewrite Hm]. cbn.
    by rewrite lookup_insert_eq, lookup_delete_eq.
  - intros t n' u'. unfold isOnCooldown, clearAllCooldowns. cbn.
    by rewrite lookup_empty.
  - intros t n' u'. unfold isOnCooldown.
    destruct (cooldowns r !! n') as [m|]; [|done].
    destruct (m !! u') as [expiry|]; [|done].
    destruct (expiry =? 0); lia.
  - intros name. split_and!; [done | | done].
    unfold clearCooldown. by destruct (cooldowns r !! n).
Qed.

End RegistryLifecycle.

(** ** Command executor, further *)

Section ExecutorLifecycle.

Import Registry Executor.

Implicit Types (licenses : gmap string License.License) (OWNER_IDS : option string)
  (clock : Clock) (interaction : Interaction) (st : Store).

(** The verdicts on a command that is switched off: the enabled check
    is the first to fail. *)
Lemma verdicts_disabled licenses OWNER_IDS clock interaction (r : Registry)
    (handler : CommandHandler) :
  Registry.get r (commandName interaction) = Some handler ->
  enabled (metadata handler) = false ->
  firstFailure (pipelineVerdicts licenses OWNER_IDS clock interaction r)
  = ([GetHandler; CheckEnabled],
     Some (Js.ErrorObj (disabledMessage (commandName interaction)))).
Proof.
  intros Hget Hen. unfold pipelineVerdicts. by rewrite Hget, Hen.
Qed.

(** [setEnabled] answers [false] and changes nothing for a name that is
    not a registered command name (an alias included). For a
    registered command, switching it off touches neither the aliases
    nor the cooldowns; afterwards every invocation under that name is
    refused at the enabled check with the disabled message, before the
    cooldown, the permissions or the handler are looked at, and leaves
    the registry as it is; and switching a command that was on back on
    restores the registry. *)
Theorem setEnabled_gates_execution (r : Registry) (n : string) :
  match commands r !! n with
  | None => forall b, setEnabled r n b = (false, r)
  | Some c =>
      let off := snd (setEnabled r n false) in
      fst (setEnabled r n false) = true
      /\ aliasMap off = aliasMap r
      /\ cooldowns off = cooldowns r
      /\ (forall licenses OWNER_IDS clock interaction st,
            registry st = off ->
            commandName interaction = n ->
            let run := executeCommand licenses OWNER_IDS clock interaction st in
            trace (fst run) = trace st ++ [GetHandler; CheckEnabled]
            /\ registry (fst run) = off
            /\ exists res,
                 snd run = Js.Fulfilled res
                 /\ success res = false
                 /\ error res = Some (disabledMessage n))
      /\ (enabled (metadata c) = true -> setEnabled off n true = (true, r))
  end.
Proof.
  destruct (commands r !! n) as [c|] eqn:Hc.
  - unfold setEnabled. rewrite Hc. cbn [fst snd].
    split_and!; [done | done | done | |].
    + intros licenses OWNER_IDS clock interaction st Hst Hn.
      destruct (executeCommand_spec licenses OWNER_IDS clock interaction st)
        as (Htrace & Hreg & (res & Hres & Hsuccess & Herror) & _).
      assert (Hv : firstFailure
                     (pipelineVerdicts licenses OWNER_IDS clock interaction (registry st))
                   = ([GetHandler; CheckEnabled],
                      Some (Js.ErrorObj (disabledMessage (commandName interaction))))).
      { apply (verdicts_disabled licenses OWNER_IDS clock interaction (registry st)
                 {| metadata := setMetadataEnabled (metadata c) false;
                    execute := execute c; builder := builder c;
                    autocompleteOptions := autocompleteOptions c |}); [|done].
        rewrite Hst, Hn. unfold Registry.get. cbn. by rewrite lookup_insert_eq. }
      rewrite Hv in Htrace, Hreg, Hsuccess, Herror.
      cbn [fst snd] in *. rewrite Hn in Herror. rewrite <- Hst.
      split_and!; [done | done |]. by exists res.
    + intros Hen. cbn. rewrite lookup_insert_eq. f_equal.
      destruct r as [cmds als cds]. cbn in *. unfold setCommands. cbn. f_equal.
      rewrite insert_insert_eq. apply insert_id. rewrite Hc. f_equal.
      destruct c as [m e b a]. cbn in *. f_equal.
      destruct m. cbn in *. by subst.
  - intros b. unfold setEnabled. by rewrite Hc.
Qed.

(** The cooldown error tells the invoker to try again in
    [ceilSeconds remaining] seconds. That advice is sound and tight to
    the second: waiting that long is enough for the cooldown to be
    over, it is less than a second more than needed, and at any time
    before the remaining time has passed the command is still on
    cooldown. *)
Theorem cooldown_message_suffices (r : Registry) (now : Z) (n u : string) :
  let remaining := isOnCooldown r now n u in
  0 < remaining ->
  remaining <= ceilSeconds remaining * 1000 < remaining + 1000
  /\ isOnCooldown r (now + ceilSeconds remaining * 1000) n u = 0
  /\ (forall t, t < now + remaining -> 0 < isOnCooldown r t n u).
Proof.
  intros remaining Hlive.
  assert (Hceil : remaining <= ceilSeconds remaining * 1000 < remaining + 1000).
  { unfold ceilSeconds.
    pose proof (Z.div_mod (- remaining) 1000).
    pose proof (Z.mod_pos_bound (- remaining) 1000). lia. }
  split; [done|]. revert Hceil. generalize (ceilSeconds remaining). intros secs Hceil.
  subst remaining. unfold isOnCooldown in *.
  destruct (cooldowns r !! n) as [m|]; [|lia].
  destruct (m !! u) as [expiry|]; [|lia].
  destruct (expiry =? 0); [lia|].
  split; [lia|]. intros t Ht. lia.
Qed.

(** What the pipeline does with the replies and the acknowledgement:
    it sends no reply of its own, and the interaction counts as
    acknowledged afterwards only if it did before or the handler ran. *)
Lemma runPipeline_replies licenses OWNER_IDS clock interaction st :
  replies (fst (runPipeline licenses OWNER_IDS clock interaction st)) = replies st.
Proof. apply runPipeline_spec. Qed.

(** [executeCommand] always returns a result record, whose fields
    other than the verdict are read off the interaction and the clock.
    On success it sends nothing of its own. On failure it hands the
    transport exactly one message, the text of the error: as an edit of
    the earlier reply when the interaction was deferred or replied to
    (before the run, or by the handler on the way), as a fresh reply
    otherwise. Whether the transport accepts that message has no
    influence on the result. *)
Theorem executeCommand_error_reply licenses OWNER_IDS clock interaction st :
  let run := executeCommand licenses OWNER_IDS clock interaction st in
  exists res,
    snd run = Js.Fulfilled res
    /\ duration res = endTime clock - startTime clock
    /\ command res = commandName interaction
    /\ resultUser res = id (user interaction)
    /\ resultGuild res = guildId interaction
    /\ match error res with
       | None => success res = true /\ replies (fst run) = replies st
       | Some message =>
           success res = false
           /\ replies (fst run) =
                replies st
                ++ [(if deferred interaction || replied interaction || acked (fst run)
                     then EditReply else Reply, message)]
       end.
Proof.
  pose proof (runPipeline_replies licenses OWNER_IDS clock interaction st) as Hreplies.
  unfold executeCommand, Js.tryCatch, Js.bindM, log, Js.gets, Js.modify, Js.ret,
    send, Js.await.
  destruct (runPipeline licenses OWNER_IDS clock interaction st) as [st1 [[]|e]].
  - cbn in *. eexists. split_and!; try done.
  - cbn beta iota zeta. cbn [registry trace replies logs acked fst snd] in *.
    destruct (deferred interaction || replied interaction || acked st1) eqn:Hack.
    + destruct (editReply interaction (Js.errorMessage e)); cbn -[orb];
        rewrite Hack, Hreplies; eexists; split_and!; done.
    + destruct (reply interaction (Js.errorMessage e)); cbn -[orb];
        rewrite Hack, Hreplies; eexists; split_and!; done.
Qed.

(** [checkPermissions] on the context [createCommandContext] builds,
    in terms of the interaction itself: the command may be used exactly
    when an owner-only command is invoked by a user listed in
    [OWNER_IDS], a guild-only command comes from a guild, and every
    required permission and every required role is held by the member
    object of the interaction. An interaction without member object
    passes only commands that require neither. *)
Theorem checkPermissions_on_interaction licenses OWNER_IDS clock interaction
    (handler : CommandHandler) :
  let context := createCommandContext licenses OWNER_IDS clock interaction in
  let held (granted : GuildMember -> option (string -> bool)) (x : string) :=
    exists m has,
      member interaction = Some m /\ granted m = Some has /\ has x = true in
  checkPermissions context handler = true <->
    (ownerOnly (metadata handler) = true -> id (user interaction) ∈ ownerIds OWNER_IDS)
    /\ (guildOnly (metadata handler) = true -> is_Some (guild interaction))
    /\ (forall p, p ∈ default [] (permissions (metadata handler)) ->
          held member_permissions p)
    /\ (forall x, x ∈ default [] (roles (metadata handler)) -> held member_roles x).
Proof.
  intros context held.
  assert (Hheld : forall granted x,
            match member interaction with
            | Some m => match granted m with Some has => has x | None => false end
            | None => false
            end = true <-> held granted x).
  { intros granted x. subst held. cbn. split.
    - destruct (member interaction) as [m|]; [|done].
      destruct (granted m) as [has|] eqn:Hg; [|done]. eauto.
    - intros (m & has & -> & -> & ?). done. }
  assert (Hall : forall granted l,
            forallb (fun x =>
              match member interaction with
              | Some m => match granted m with Some has => has x | None => false end
              | None => false
              end) l = true <-> forall x, x ∈ l -> held granted x).
  { intros granted l. rewrite forallb_forall. split.
    - intros H x Hx. apply Hheld, H. by apply list_elem_of_In.
    - intros H x Hx. apply Hheld, H. by apply list_elem_of_In. }
  unfold checkPermissions. subst context. cbn [createCommandContext Registry.user
    Registry.isOwner Registry.guild Registry.hasPermission Registry.hasRole].
  rewrite <- (Hall member_permissions), <- (Hall member_roles), <- includes_elem_of.
  destruct (ownerOnly (metadata handler)), (Js.includes _ _); cbn [andb negb];
    try (split; [done | by intros [H _]; specialize (H eq_refl)]).
  all: destruct (guildOnly (metadata handler)), (guild interaction) as [g|];
    cbn [andb negb];
    rewrite ?(bool_decide_eq_true_2 (is_Some (Some g))) by eauto;
    rewrite ?(bool_decide_eq_false_2 (is_Some (@None GuildInfo)))
      by (by intros [? ?]);
    cbn [negb];
    try (split; [done | by intros (_ & H & _); destruct (H eq_refl) as [? ?]]).
  all: destruct (forallb _ (default [] (permissions (metadata handler))));
    cbn [negb]; try (split; [done | by intros (_ & _ & H & _); discriminate H]).
  all: destruct (forallb _ (default [] (roles (metadata handler))));
    cbn [negb]; try (split; [done | by intros (_ & _ & _ & H); discriminate H]).
  all: split; [intros _ | done]; split_and!; eauto; done.
Qed.

(** *** The owner list *)

Lemma splitComma_commaFree (s : string) :
  commaFree s = true -> splitComma s = [s].
Proof.
  induction s as [|c s IH]; [done|]. cbn [commaFree splitComma].
  destruct (Ascii.eqb c ","); [done|]. cbn [negb andb]. intros Hs.
  by rewrite (IH Hs).
Qed.

Lemma splitComma_head (s rest : string) :
  commaFree s = true ->
  splitComma (s +:+ "," +:+ rest) = s :: splitComma rest.
Proof.
  induction s as [|c s IH]; [done|].
  cbn [commaFree]. change (String c s +:+ "," +:+ rest)
    with (String c (s +:+ "," +:+ rest)). cbn [splitComma].
  destruct (Ascii.eqb c ","); [done|]. cbn [negb andb]. intros Hs.
  by rewrite (IH Hs).
Qed.

(** Splitting at the commas undoes joining with commas, for a list
    that is not empty and whose entries hold no comma. *)
Lemma splitComma_join (ids : list string) :
  ids ≠ [] ->
  Forall (fun s => commaFree s = true) ids ->
  splitComma (Parser.join "," ids) = ids.
Proof.
  intros Hne Hall. induction Hall as [|x ids Hx Hall IH]; [done|].
  destruct ids as [|y ids].
  - by apply splitComma_commaFree.
  - change (Parser.join "," (x :: y :: ids))
      with (x +:+ "," +:+ Parser.join "," (y :: ids)).
    rewrite (splitComma_head _ _ Hx). by rewrite IH.
Qed.

(** The owners are the entries of the comma-separated [OWNER_IDS]: when
    the variable lists the ids [ids], an invoker is flagged as owner
    exactly when their id is one of [ids], whatever else the
    interaction holds; when the variable is not set nobody is. *)
Theorem owners_from_environment licenses clock interaction (ids : list string) :
  ids ≠ [] ->
  Forall (fun s => commaFree s = true) ids ->
  (isOwner (Registry.user
      (createCommandContext licenses (Some (Parser.join "," ids)) clock interaction))
   = true <-> id (user interaction) ∈ ids)
  /\ isOwner (Registry.user (createCommandContext licenses None clock interaction))
     = false.
Proof.
  intros Hne Hall. split; [|done].
  cbn [createCommandContext Registry.user isOwner ownerIds].
  rewrite (splitComma_join _ Hne Hall). apply includes_elem_of.
Qed.

(** *** Autocomplete *)

(** [handleAutocomplete] of the executor never throws. It stays
    silent, leaving answers and log as they are, when the command is
    unknown, declares no arguments, or may not be used by the invoker;
    otherwise it does what the parser's [handleAutocomplete] does on
    the command's arguments and supplier. In every case it hands the
    transport at most one answer, of at most 25 candidates. *)
Theorem handleAutocomplete_guarded (r : Registry) licenses OWNER_IDS clock
    (interaction : AutocompleteRequest) (st : Parser.AcStore) :
  let run := handleAutocomplete r licenses OWNER_IDS clock interaction st in
  let context := createCommandContext licenses OWNER_IDS clock (request interaction) in
  snd run = Js.Fulfilled tt
  /\ match Registry.get r (commandName (request interaction)) with
     | None => fst run = st
     | Some handler =>
         match arguments (metadata handler) with
         | None => fst run = st
         | Some defs =>
             if checkPermissions context handler
             then run = Parser.handleAutocomplete (transport interaction) defs
                          (autocompleteOptions handler) st
             else fst run = st
         end
     end
  /\ (Parser.responded (fst run) = Parser.responded st
      \/ exists candidates,
           Parser.responded (fst run) = Parser.responded st ++ [candidates]
           /\ (length candidates <= 25)%nat).
Proof.
  intros run context.
  assert (Hparser : forall defs supplier,
            let inner := Parser.handleAutocomplete (transport interaction) defs supplier st in
            snd inner = Js.Fulfilled tt
            /\ (Parser.responded (fst inner) = Parser.responded st
                \/ exists candidates,
                     Parser.responded (fst inner) = Parser.responded st ++ [candidates]
                     /\ (length candidates <= 25)%nat)).
  { intros defs supplier inner.
    pose proof (handleAutocomplete_try_responded (transport interaction) defs supplier st)
      as Hresp. cbn zeta in Hresp.
    subst inner. unfold Parser.handleAutocomplete, Js.tryCatch.
    destruct (Parser.handleAutocomplete_try (transport interaction) defs supplier st)
      as [s' [[]|e]]; cbn [fst snd] in Hresp; cbn.
    - split; [done|]. destruct Hresp as [-> | (focused & options & _ & ->)]; [by left|].
      right. eexists. split; [done|]. apply length_take_25.
    - split; [done|]. destruct Hresp as [-> | (focused & options & _ & ->)]; [by left|].
      right. eexists. split; [done|]. apply length_take_25. }
  subst run context. unfold handleAutocomplete, Js.tryCatch.
  destruct (Registry.get r (commandName (request interaction))) as [handler|];
    [|cbn; split_and!; [done | done | by left]].
  destruct (arguments (metadata handler)) as [defs|];
    [|cbn; split_and!; [done | done | by left]].
  destruct (checkPermissions _ handler); cbn [negb];
    [|cbn; split_and!; [done | done | by left]].
  destruct (Hparser defs (autocompleteOptions handler)) as [Hsnd Hresp].
  destruct (Parser.handleAutocomplete (transport interaction) defs
              (autocompleteOptions handler) st) as [s' [[]|e]]; cbn [fst snd] in *;
    [|done].
  done.
Qed.

End ExecutorLifecycle.

(** ** Argument parser, further *)

Section ParserValidation.

Import Parser.

(** [validateArgumentType] hands back the value it was given. *)
Lemma validateArgumentType_value (v v' : Value) (argDef : CommandArgument) :
  validateArgumentType v argDef = Js.Fulfilled v' -> v' = v.
Proof.
  unfold validateArgumentType.
  destruct (validateTypeSwitch v argDef) as [[]|e]; cbn; [|done].
  destruct (choices argDef) as [[|c cs]|]; try congruence.
  destruct (_ || _); congruence.
Qed.

(** [extractArgumentValue] in one table: an absent option gives
    [null]; an option of a type the getter takes gives what the getter
    reads off it; an option of another type makes the getter throw. *)
Lemma extractArgumentValue_spec (options : Options) (argDef : CommandArgument) :
  extractArgumentValue options argDef =
  match options !! name argDef with
  | None => Js.Fulfilled None
  | Some o =>
      if bool_decide (option_type o ∈ allowedTypes (type argDef))
      then Js.Fulfilled (readOption (type argDef) o)
      else Js.Rejected (optionTypeError (name argDef) (option_type o)
                          (allowedTypes (type argDef)))
  end.
Proof.
  unfold extractArgumentValue, getString, getInteger, getBoolean, getNumber, getUser,
    getChannel, getRole, getMentionable, getAttachment, getTypedOption.
  unfold Options in *.
  destruct (type argDef); cbn [allowedTypes readOption];
    (destruct (options !! name argDef) as [o|]; [|done]);
    (destruct (bool_decide _); cbn; [|done]);
    unfold property; f_equal.
  all: try by destruct (option_value o).
  all: try by destruct (option_user o).
  all: try by destruct (option_channel o).
  all: try by destruct (option_role o).
  all: try by destruct (option_attachment o).
  by destruct (option_member o), (option_user o), (option_role o).
Qed.

Lemma lookup_assign (args : ParsedArguments) (k k' : string) (v : Value) :
  assign args k v !! k' =
  if String.eqb k' "__proto__" then args !! k'
  else if String.eqb k' k then Some v else args !! k'.
Proof.
  unfold assign, ParsedArguments.
  destruct (String.eqb k "__proto__") eqn:Hk.
  - apply String.eqb_eq in Hk as ->. by destruct (String.eqb k' "__proto__").
  - destruct (String.eqb k' k) eqn:Hk'.
    + apply String.eqb_eq in Hk' as ->. by rewrite Hk, lookup_insert_eq.
    + apply String.eqb_neq in Hk'. rewrite lookup_insert_ne by done.
      by destruct (String.eqb k' "__proto__").
Qed.

(** The error of the first definition that is not satisfied. *)
Lemma parseLoop_cons (options : Options) (argDef : CommandArgument)
    (defs : list CommandArgument) (acc : ParsedArguments) :
  parseLoop options (argDef :: defs) acc =
  match extractArgumentValue options argDef with
  | Js.Rejected e => Js.Rejected e
  | Js.Fulfilled None =>
      if Js.truthyB (required argDef)
      then Js.Rejected (Js.ErrorObj
             ("Required argument '" +:+ name argDef +:+ "' is missing"))
      else parseLoop options defs acc
  | Js.Fulfilled (Some v) =>
      match validateArgumentType v argDef with
      | Js.Rejected e => Js.Rejected e
      | Js.Fulfilled _ => parseLoop options defs (assign acc (name argDef) v)
      end
  end.
Proof.
  cbn [parseLoop]. destruct (extractArgumentValue options argDef) as [[v|]|e]; cbn;
    [|done|done].
  destruct (validateArgumentType v argDef) as [v'|e] eqn:Hv; cbn; [|done].
  by apply validateArgumentType_value in Hv as ->.
Qed.

(** The loop of [parseArguments] from any accumulated result. *)
Lemma parseLoop_spec (options : Options) (defs : list CommandArgument)
    (acc : ParsedArguments) :
  match parseLoop options defs acc with
  | Js.Fulfilled args =>
      Forall (fun argDef => accepts options argDef = true) defs
      /\ forall k,
           args !! k =
           if String.eqb k "__proto__" then acc !! k
           else match suppliedFor options defs k with
                | Some v => Some v
                | None => acc !! k
                end
  | Js.Rejected e =>
      exists passed argDef later,
        defs = passed ++ argDef :: later
        /\ Forall (fun argDef => accepts options argDef = true) passed
        /\ accepts options argDef = false
        /\ match extractArgumentValue options argDef with
           | Js.Rejected e' => e = e'
           | Js.Fulfilled None =>
               e = Js.ErrorObj ("Required argument '" +:+ name argDef +:+ "' is missing")
           | Js.Fulfilled (Some v) => validateArgumentType v argDef = Js.Rejected e
           end
  end.
Proof.
  revert acc. induction defs as [|argDef defs IH]; intros acc.
  - cbn. split; [constructor|]. intros k. by destruct (String.eqb k "__proto__").
  - rewrite parseLoop_cons. cbn [suppliedFor]. unfold accepts in *.
    destruct (extractArgumentValue options argDef) as [[v|]|e] eqn:Hx.
    + destruct (validateArgumentType v argDef) as [v'|e] eqn:Hv.
      2: { exists [], argDef, defs. rewrite Hx, Hv. split_and!; [done | constructor | done | done]. }
      specialize (IH (assign acc (name argDef) v)).
      destruct (parseLoop options defs (assign acc (name argDef) v)) as [args|e].
      * destruct IH as [Hall Hget]. split.
        { constructor; [|done]. by rewrite Hx, Hv. }
        intros k. rewrite Hget, lookup_assign.
        destruct (String.eqb k "__proto__"); [done|].
        destruct (suppliedFor options defs k); [done|].
        by destruct (String.eqb k (name argDef)).
      * destruct IH as (passed & d & later & -> & Hpassed & Hd).
        exists (argDef :: passed), d, later. destruct Hd as [Hd Herr].
        split_and!; [done | | done | done].
        constructor; [|done]. by rewrite Hx, Hv.
    + destruct (Js.truthyB (required argDef)) eqn:Hreq.
      { exists [], argDef, defs. rewrite Hx, Hreq.
        split_and!; [done | constructor | done | done]. }
      specialize (IH acc).
      destruct (parseLoop options defs acc) as [args|e].
      * destruct IH as [Hall Hget]. split.
        { constructor; [|done]. by rewrite Hx, Hreq. }
        intros k. rewrite Hget.
        destruct (String.eqb k "__proto__"); [done|].
        destruct (suppliedFor options defs k); [done|].
        by destruct (String.eqb k (name argDef)).
      * destruct IH as (passed & d & later & -> & Hpassed & Hd).
        exists (argDef :: passed), d, later. destruct Hd as [Hd Herr].
        split_and!; [done | | done | done].
        constructor; [|done]. by rewrite Hx, Hreq.
    + exists [], argDef, defs. rewrite Hx. split_and!; [done | constructor | done | done].
Qed.

Lemma suppliedFor_undeclared (options : Options) (defs : list CommandArgument)
    (k : string) :
  k ∉ map name defs -> suppliedFor options defs k = None.
Proof.
  induction defs as [|argDef defs IH]; [done|]. cbn [map suppliedFor].
  rewrite not_elem_of_cons. intros [Hne Hrest]. rewrite (IH Hrest).
  apply String.eqb_neq in Hne. by rewrite Hne.
Qed.

(** When no two definitions share a name, the value supplied for the
    name of a definition is the one extracted for that definition. *)
Lemma suppliedFor_declared (options : Options) (defs : list CommandArgument)
    (argDef : CommandArgument) :
  NoDup (map name defs) ->
  argDef ∈ defs ->
  suppliedFor options defs (name argDef) =
  match extractArgumentValue options argDef with
  | Js.Fulfilled (Some v) => Some v
  | _ => None
  end.
Proof.
  induction defs as [|d defs IH]; [by intros _ ?%elem_of_nil|].
  cbn [map suppliedFor]. rewrite NoDup_cons, elem_of_cons.
  intros [Hfresh Hnodup] [-> | Hin].
  - rewrite (suppliedFor_undeclared _ _ _ Hfresh). by rewrite String.eqb_refl.
  - rewrite (IH Hnodup Hin).
    destruct (extractArgumentValue options argDef) as [[v|]|e]; [done | |].
    + assert (Hne : name argDef ≠ name d).
      { intros Heq. apply Hfresh. rewrite <- Heq. by apply list_elem_of_fmap_2. }
      apply String.eqb_neq in Hne. by rewrite Hne.
    + assert (Hne : name argDef ≠ name d).
      { intros Heq. apply Hfresh. rewrite <- Heq. by apply list_elem_of_fmap_2. }
      apply String.eqb_neq in Hne. by rewrite Hne.
Qed.

(** [parseArguments]. Extraction for a definition throws exactly when
    the option is present with a type its getter does not take; the
    getters for users and roles also take a mentionable option. The
    parse succeeds exactly when every definition is satisfied: its
    extraction does not throw, and the value is [null] for an argument
    that is not required, or passes validation. The result then has,
    for every key but [__proto__], the value extracted for the last
    definition of that name that has one, and no own [__proto__]
    property; when the names of the definitions are distinct, that is
    the value extracted for the definition itself. Otherwise the parse
    fails at the first definition, in order, that is not satisfied,
    with the error of its extraction, of its validation, or the one for
    a missing required argument. *)
Theorem parseArguments_spec (options : Options) (defs : list CommandArgument) :
  (forall argDef,
     (exists e, extractArgumentValue options argDef = Js.Rejected e) <->
     exists o, options !! name argDef = Some o
               /\ option_type o ∉ allowedTypes (type argDef))
  /\ match parseArguments options defs with
     | Js.Fulfilled args =>
         Forall (fun argDef => accepts options argDef = true) defs
         /\ (forall k,
               args !! k =
               if String.eqb k "__proto__" then None else suppliedFor options defs k)
         /\ (NoDup (map name defs) ->
             forall argDef, argDef ∈ defs -> name argDef ≠ "__proto__" ->
               Js.Fulfilled (args !! name argDef) = extractArgumentValue options argDef)
     | Js.Rejected e =>
         exists passed argDef later,
           defs = passed ++ argDef :: later
           /\ Forall (fun argDef => accepts options argDef = true) passed
           /\ accepts options argDef = false
           /\ match extractArgumentValue options argDef with
              | Js.Rejected e' => e = e'
              | Js.Fulfilled None =>
                  e = Js.ErrorObj
                        ("Required argument '" +:+ name argDef +:+ "' is missing")
              | Js.Fulfilled (Some v) => validateArgumentType v argDef = Js.Rejected e
              end
     end.
Proof.
  split.
  - intros argDef. rewrite extractArgumentValue_spec.
    destruct (options !! name argDef) as [o|].
    + case_bool_decide as Hallowed.
      * split; [by intros [? ?] | by intros (o' & [= <-] & ?)].
      * split; [intros _; by exists o | by eexists].
    + split; [by intros [? ?] | by intros (? & ? & _)].
  - pose proof (parseLoop_spec options defs ∅) as Hloop. unfold parseArguments.
    destruct (parseLoop options defs ∅) as [args|e]; [|done].
    destruct Hloop as [Hall Hget]. unfold ParsedArguments in *.
    split_and!; [done | |].
    + intros k. rewrite Hget, (lookup_empty (M := gmap string)).
      destruct (String.eqb k "__proto__"); [done|].
      by destruct (suppliedFor options defs k).
    + intros Hnodup argDef Hin Hname. rewrite Hget.
      apply String.eqb_neq in Hname. rewrite Hname.
      rewrite (suppliedFor_declared options defs argDef Hnodup Hin).
      rewrite (lookup_empty (M := gmap string)).
      rewrite Forall_forall in Hall. specialize (Hall argDef Hin).
      unfold accepts in Hall.
      by destruct (extractArgumentValue options argDef) as [[v|]|e].
Qed.

(** Turns the boolean comparisons among the hypotheses into
    propositions. *)
Ltac zbool :=
  repeat match goal with
         | H : Z.eqb _ _ = true |- _ => apply Z.eqb_eq in H
         | H : Z.eqb _ _ = false |- _ => apply Z.eqb_neq in H
         | H : Z.ltb _ _ = true |- _ => apply Z.ltb_lt in H
         | H : Z.ltb _ _ = false |- _ => apply Z.ltb_ge in H
         end.

(** The bounds [validateArgumentType] enforces on an argument without
    declared choices. A string is accepted exactly when its length is
    within [minLength] and [maxLength], where a bound given as 0 is no
    bound at all (it is falsy). A number is accepted exactly when it
    is within [minValue] and [maxValue], where a bound of 0 is a
    bound. *)
Theorem validateArgumentType_bounds (argDef : CommandArgument) :
  choices argDef = None \/ choices argDef = Some [] ->
  (type argDef = TString -> forall s,
     validateArgumentType (VString s) argDef = Js.Fulfilled (VString s) <->
     (forall lo, minLength argDef = Some lo -> lo ≠ 0 -> lo <= strlen s)
     /\ (forall hi, maxLength argDef = Some hi -> hi ≠ 0 -> strlen s <= hi))
  /\ (type argDef = TInteger \/ type argDef = TNumber -> forall n,
        validateArgumentType (VNumber n) argDef = Js.Fulfilled (VNumber n) <->
        (forall lo, minValue argDef = Some lo -> lo <= n)
        /\ (forall hi, maxValue argDef = Some hi -> n <= hi)).
Proof.
  intros Hchoices.
  assert (Hval : forall v,
            validateArgumentType v argDef = Js.Fulfilled v <->
            validateTypeSwitch v argDef = Js.Fulfilled tt).
  { intros v. unfold validateArgumentType.
    destruct (validateTypeSwitch v argDef) as [[]|e]; cbn.
    - by destruct Hchoices as [-> | ->].
    - split; discriminate. }
  split.
  - intros Ht s. rewrite Hval. unfold validateTypeSwitch. rewrite Ht. cbn beta iota.
    destruct (minLength argDef) as [lo|]; destruct (maxLength argDef) as [hi|];
      cbn [Js.truthyZ default andb]; unfold Datatypes.id.
    + destruct (lo =? 0) eqn:Hlo, (hi =? 0) eqn:Hhi; cbn [negb andb];
        try destruct (strlen s <? lo) eqn:Hs; try destruct (hi <? strlen s) eqn:Hs';
        zbool; (split; [intros Heq; first [discriminate Heq | split; intros ? [= <-]; lia]
                | intros [H1 H2]; try done;
                  try specialize (H1 _ eq_refl); try specialize (H2 _ eq_refl); lia]).
    + destruct (lo =? 0) eqn:Hlo; cbn [negb andb];
        try destruct (strlen s <? lo) eqn:Hs;
        zbool; (split; [intros Heq; first [discriminate Heq | split; [intros ? [= <-]; lia | done]]
                | intros [H1 H2]; try done; specialize (H1 _ eq_refl); lia]).
    + destruct (hi =? 0) eqn:Hhi; cbn [negb andb];
        try destruct (hi <? strlen s) eqn:Hs;
        zbool; (split; [intros Heq; first [discriminate Heq | split; [done | intros ? [= <-]; lia]]
                | intros [H1 H2]; try done; specialize (H2 _ eq_refl); lia]).
    + done.
  - intros Ht n. rewrite Hval. unfold validateTypeSwitch.
    assert (Hswitch :
      match type argDef with
      | TInteger | TNumber => True
      | _ => False
      end) by (by destruct Ht as [-> | ->]).
    destruct (type argDef); try done.
    all: destruct (minValue argDef) as [lo|]; destruct (maxValue argDef) as [hi|];
      cbn [default]; unfold Datatypes.id;
      try destruct (n <? lo) eqn:Hlo; try destruct (hi <? n) eqn:Hhi;
      zbool; (split; [intros Heq; first [discriminate Heq | split; intros ? [= <-]; lia]
              | intros [H1 H2]; try done;
                try specialize (H1 _ eq_refl); try specialize (H2 _ eq_refl); lia]).
Qed.

(** The [reason] argument accepts a string of three characters or
    more, however long. *)
Lemma validateArgumentType_bounds_witness :
  (type reasonArgument = TString -> forall s,
     validateArgumentType (VString s) reasonArgument = Js.Fulfilled (VString s) <->
     (forall lo, minLength reasonArgument = Some lo -> lo ≠ 0 -> lo <= strlen s)
     /\ (forall hi, maxLength reasonArgument = Some hi -> hi ≠ 0 -> strlen s <= hi))
  /\ (type reasonArgument = TInteger \/ type reasonArgument = TNumber -> forall n,
        validateArgumentType (VNumber n) reasonArgument = Js.Fulfilled (VNumber n) <->
        (forall lo, minValue reasonArgument = Some lo -> lo <= n)
        /\ (forall hi, maxValue reasonArgument = Some hi -> n <= hi)).
Proof.
  apply (validateArgumentType_bounds reasonArgument). left. reflexivity.
Defined.

End ParserValidation.

(** ** Feature loader, further *)

Section LoaderLifecycle.

Import Loader.

Context {W : Type}.

Implicit Types (st : Store W) (instance : FeatureInstance W)
  (entries : OMap.t (FeatureInstance W)).

Lemma OMap_get_set_ne {V} (m : OMap.t V) (k k' : string) (v : V) :
  k' ≠ k -> OMap.get (OMap.set m k v) k' = OMap.get m k'.
Proof.
  intros Hne. induction m as [|[k0 v0] m IH]; cbn.
  - apply String.eqb_neq in Hne. by rewrite Hne.
  - destruct (String.eqb k k0) eqn:Hk; cbn; [|by rewrite IH].
    apply String.eqb_eq in Hk as <-. apply String.eqb_neq in Hne. by rewrite Hne.
Qed.



(** *** Disabling a feature *)

(** [disableFeature] on an enabled record: the disable hook is
    called, and the record is switched off when the hook completes. *)
Lemma disableFeature_hook (guildId featureKey : string) st entries instance :
  instances st !! guildId = Some entries ->
  OMap.get entries featureKey = Some instance ->
  enabled instance = true ->
  let outcome := disable (feature instance) (context instance) [] (world st) in
  let call := {| call_guild := guildId; call_feature := featureKey;
                 call_method := "disable"; call_outcome := snd outcome |} in
  disableFeature guildId featureKey st
  = if completed (snd outcome) then
      ({| instances :=
            <[guildId := OMap.set entries featureKey (setInstanceEnabled instance false)]>
              (instances st);
          world := fst outcome;
          logs := logs st ++ [{| Js.level := Js.LInfo;
                                 Js.msg := "Feature disabled for guild";
                                 Js.fields := [("feature", featureKey);
                                               ("guildId", guildId)] |}];
          calls := calls st ++ [call] |},
       Js.Fulfilled true)
    else
      ({| instances := instances st; world := fst outcome;
          logs := logs st ++ [{| Js.level := Js.LError;
                                 Js.msg := "Failed to disable feature";
                                 Js.fields := [("feature", featureKey);
                                               ("guildId", guildId)] |}];
          calls := calls st ++ [call] |},
       Js.Fulfilled false).
Proof.
  intros Hg Hk Hen outcome call. subst call outcome.
  unfold disableFeature, Js.tryCatch, Js.bindM, Js.gets.
  rewrite Hg, Hk, Hen. cbn [negb].
  unfold invoke, Js.await, writeEnabled, setInstances, log, Js.modify, Js.ret.
  destruct (disable (feature instance) (context instance) [] (world st))
    as [w' [e|[[]|e]]]; cbn; [done | | done].
  by rewrite Hg, Hk.
Qed.

(** [disableFeature] case by case. For a guild without records it
    answers [false] and does nothing. For a capability that has no
    record in the guild, or whose record is already off, it answers
    [true] and does nothing. Otherwise it calls the disable hook
    once, on the record's context; when the hook completes the record
    is switched off and the answer is [true]; when the hook throws or
    its promise is rejected the record stays on and the answer is
    [false]. The licenses are never consulted. *)
Theorem disableFeature_outcome (guildId featureKey : string) st :
  let run := disableFeature guildId featureKey st in
  match instances st !! guildId with
  | None => run = (st, Js.Fulfilled false)
  | Some entries =>
      match OMap.get entries featureKey with
      | None => run = (st, Js.Fulfilled true)
      | Some instance =>
          if enabled instance then
            let outcome := disable (feature instance) (context instance) [] (world st) in
            world (fst run) = fst outcome
            /\ calls (fst run)
               = calls st ++ [{| call_guild := guildId; call_feature := featureKey;
                                 call_method := "disable";
                                 call_outcome := snd outcome |}]
            /\ snd run = Js.Fulfilled (completed (snd outcome))
            /\ instances (fst run)
               = if completed (snd outcome)
                 then <[guildId := OMap.set entries featureKey
                                     (setInstanceEnabled instance false)]> (instances st)
                 else instances st
          else run = (st, Js.Fulfilled true)
      end
  end.
Proof.
  intros run.
  destruct (instances st !! guildId) as [entries|] eqn:Hg.
  2: { subst run. unfold disableFeature, Js.tryCatch, Js.bindM, Js.gets.
       by rewrite Hg. }
  destruct (OMap.get entries featureKey) as [instance|] eqn:Hk.
  2: { subst run. unfold disableFeature, Js.tryCatch, Js.bindM, Js.gets.
       by rewrite Hg, Hk. }
  destruct (enabled instance) eqn:Hen.
  2: { subst run. unfold disableFeature, Js.tryCatch, Js.bindM, Js.gets.
       by rewrite Hg, Hk, Hen. }
  pose proof (disableFeature_hook guildId featureKey st entries instance Hg Hk Hen)
    as Hrun.
  cbn zeta in *. fold run in Hrun. rewrite Hrun.
  by destruct (completed _).
Qed.


(** *** What the answer of [enableFeature] says about the records *)

(** The two ways [enableFeature] can end: it leaves the records alone
    and answers whether the record was on already, or it switches a
    record that was off on and answers [true]. *)
Lemma enableFeature_cases (licenses : gmap string License.License) (now : Z)
    (guildId featureKey : string) st :
  let run := enableFeature licenses now guildId featureKey st in
  (instances (fst run) = instances st
   /\ snd run = Js.Fulfilled (match getFeatureInstance st guildId featureKey with
                              | Some instance => enabled instance
                              | None => false
                              end))
  \/ (exists entries instance,
        instances st !! guildId = Some entries
        /\ OMap.get entries featureKey = Some instance
        /\ enabled instance = false
        /\ snd run = Js.Fulfilled true
        /\ instances (fst run)
           = <[guildId := OMap.set entries featureKey (setInstanceEnabled instance true)]>
               (instances st)).
Proof.
  intros run. subst run. unfold getFeatureInstance.
  destruct (instances st !! guildId) as [entries|] eqn:Hg.
  2: { left. rewrite enableFeature_missing; [done|]. intros entries. by rewrite Hg. }
  destruct (OMap.get entries featureKey) as [instance|] eqn:Hk.
  2: { left. rewrite enableFeature_missing; [done|]. intros entries'. rewrite Hg.
       by intros [= <-]. }
  destruct (enabled instance) eqn:Hen.
  { left. by rewrite (enableFeature_already _ _ _ _ _ entries instance). }
  assert (Hhook :
    isPremium (config (feature instance)) = false
    \/ License.valid (License.validateFeatureAccess licenses now guildId featureKey)
       = true ->
    let run := enableFeature licenses now guildId featureKey st in
    (instances (fst run) = instances st /\ snd run = Js.Fulfilled false)
    \/ (snd run = Js.Fulfilled true
        /\ instances (fst run)
           = <[guildId := OMap.set entries featureKey (setInstanceEnabled instance true)]>
               (instances st))).
  { intros Hgate. cbn zeta.
    rewrite (enableFeature_hook licenses now guildId featureKey st entries instance
               Hg Hk Hen Hgate).
    destruct (completed _); [by right | by left]. }
  destruct (isPremium (config (feature instance))) eqn:Hprem.
  - destruct (License.valid
                (License.validateFeatureAccess licenses now guildId featureKey))
      eqn:Hgranted.
    + destruct (Hhook (or_intror eq_refl)) as [H | [H1 H2]]; [by left|].
      right. by exists entries, instance.
    + left. by rewrite (enableFeature_denied _ _ _ _ _ entries instance).
  - destruct (Hhook (or_introl eq_refl)) as [H | [H1 H2]]; [by left|].
    right. by exists entries, instance.
Qed.

(** The answer of [enableFeature] is the state it leaves: it answers
    [true] exactly when the record of (guild, capability) exists and
    is on afterwards. It changes the record of no other guild and of no
    other capability. *)
Theorem enableFeature_reflects_state (licenses : gmap string License.License) (now : Z)
    (guildId featureKey : string) st :
  let run := enableFeature licenses now guildId featureKey st in
  snd run = Js.Fulfilled (match getFeatureInstance (fst run) guildId featureKey with
                          | Some instance => enabled instance
                          | None => false
                          end)
  /\ (forall guildId' featureKey',
        (guildId', featureKey') ≠ (guildId, featureKey) ->
        getFeatureInstance (fst run) guildId' featureKey'
        = getFeatureInstance st guildId' featureKey').
Proof.
  intros run.
  destruct (enableFeature_cases licenses now guildId featureKey st)
    as [[Hinst Hres] | (entries & instance & Hg & Hk & Hen & Hres & Hinst)];
    fold run in Hinst, Hres; unfold getFeatureInstance; rewrite Hinst.
  - done.
  - rewrite lookup_insert_eq, OMap_get_set. split; [done|].
    intros guildId' featureKey' Hne.
    destruct (decide (guildId' = guildId)) as [-> | Hgne].
    + rewrite lookup_insert_eq, Hg. apply OMap_get_set_ne. congruence.
    + by rewrite lookup_insert_ne.
Qed.

(** *** Which handlers a dispatch calls *)

(** The dispatch loop calls handlers of the given entries only, in
    their order, each for this guild and this event; it stops early
    only when the handler it called last threw. *)
Lemma handleEventLoop_calls (guildId eventName : string) (args : list string)
    entries (promises : list (Js.Settled unit)) st :
  let run := handleEventLoop guildId eventName args entries promises st in
  instances (fst run) = instances st
  /\ exists newCalls : list Call,
       calls (fst run) = calls st ++ newCalls
       /\ Forall (fun c => call_guild c = guildId /\ call_method c = eventName) newCalls
       /\ match snd run with
          | Js.Fulfilled _ =>
              map call_feature newCalls = dispatchTargets eventName entries
          | Js.Rejected e =>
              (exists skipped,
                 dispatchTargets eventName entries = map call_feature newCalls ++ skipped)
              /\ exists c, last newCalls = Some c /\ call_outcome c = Threw e
          end.
Proof.
  revert promises st. induction entries as [|[featureKey instance] entries IH];
    intros promises st; cbn zeta.
  - split; [done|]. exists []. cbn. by rewrite app_nil_r.
  - destruct (enabled instance) eqn:Hen;
      [destruct (getMethod (feature instance) eventName) as [eventHandler|] eqn:Hm|].
    + destruct (snd (eventHandler (context instance) args (world st)))
        as [e|promise] eqn:Hp.
      * rewrite (handleEventLoop_throw _ _ _ _ _ _ _ _ eventHandler e Hen Hm Hp).
        cbn [fst snd instances calls]. split; [done|].
        eexists [_]. split_and!; [done | by repeat constructor | |].
        -- unfold dispatchTargets. cbn [List.filter snd fst]. rewrite Hen, Hm.
           cbn. by eexists.
        -- by eexists.
      * rewrite (handleEventLoop_call _ _ _ _ _ _ _ _ eventHandler promise Hen Hm Hp).
        cbn zeta.
        match goal with
        | |- context [handleEventLoop _ _ _ entries ?ps ?s] =>
            destruct (IH ps s) as (Hi & newCalls & Hc & Hgm & Hres)
        end.
        cbn [instances calls] in Hi, Hc. split; [done|].
        eexists (_ :: newCalls). rewrite Hc. split_and!.
        -- by rewrite <- app_assoc.
        -- by constructor.
        -- unfold dispatchTargets. cbn [List.filter snd fst]. rewrite Hen, Hm.
           cbn [andb map fst].
           destruct (snd (handleEventLoop _ _ _ entries _ _)) as [ps|e].
           ++ cbn. by rewrite Hres.
           ++ destruct Hres as [[skipped Hskipped] (c & Hlast & Hc')]. split.
              ** exists skipped. cbn. by rewrite <- Hskipped.
              ** exists c. split; [|done]. destruct newCalls; [done|]. done.
    + rewrite handleEventLoop_skip by by right.
      destruct (IH promises st) as (Hi & newCalls & H). split; [done|].
      exists newCalls. unfold dispatchTargets. cbn [List.filter snd]. by rewrite Hen, Hm.
    + rewrite handleEventLoop_skip by by left.
      destruct (IH promises st) as (Hi & newCalls & H). split; [done|].
      exists newCalls. unfold dispatchTargets. cbn [List.filter snd]. by rewrite Hen.
Qed.


(** *** Cleaning a guild up *)

Lemma cleanupLoop_skip (guildId featureKey : string) instance entries
    (promises : list (Js.Settled unit)) st :
  enabled instance = false ->
  cleanupLoop guildId ((featureKey, instance) :: entries) promises st
  = cleanupLoop guildId entries promises st.
Proof. intros Hen. cbn [cleanupLoop]. by rewrite Hen. Qed.

Lemma cleanupLoop_throw (guildId featureKey : string) instance entries
    (promises : list (Js.Settled unit)) st (e : Js.Thrown) :
  enabled instance = true ->
  snd (disable (feature instance) (context instance) [] (world st)) = Threw e ->
  cleanupLoop guildId ((featureKey, instance) :: entries) promises st
  = ({| instances := instances st;
        world := fst (disable (feature instance) (context instance) [] (world st));
        logs := logs st;
        calls := calls st ++ [{| call_guild := guildId; call_feature := featureKey;
                                 call_method := "disable";
                                 call_outcome := Threw e |}] |},
     Js.Rejected e).
Proof.
  intros Hen Hd. cbn [cleanupLoop]. rewrite Hen.
  unfold Js.bindM at 1. unfold invoke at 1.
  destruct (disable (feature instance) (context instance) [] (world st))
    as [w' completion].
  cbn [fst snd] in *. by subst completion.
Qed.

Lemma cleanupLoop_call (guildId featureKey : string) instance entries
    (promises : list (Js.Settled unit)) st (promise : Js.Settled unit) :
  enabled instance = true ->
  snd (disable (feature instance) (context instance) [] (world st)) = Returned promise ->
  cleanupLoop guildId ((featureKey, instance) :: entries) promises st
  = cleanupLoop guildId entries (promises ++ [Js.Fulfilled tt])
      {| instances := instances st;
         world := fst (disable (feature instance) (context instance) [] (world st));
         logs := logs st
                 ++ (if Js.isFulfilled promise then []
                     else [{| Js.level := Js.LError;
                              Js.msg := "Failed to disable feature during cleanup";
                              Js.fields := [("feature", featureKey);
                                            ("guildId", guildId)] |}]);
         calls := calls st ++ [{| call_guild := guildId; call_feature := featureKey;
                                  call_method := "disable";
                                  call_outcome := Returned promise |}] |}.
Proof.
  intros Hen Hd. cbn [cleanupLoop]. rewrite Hen.
  unfold Js.bindM at 1. unfold invoke at 1.
  destruct (disable (feature instance) (context instance) [] (world st))
    as [w' completion].
  cbn [fst snd] in *. subst completion.
  destruct promise as [[]|e]; cbn [Js.isFulfilled].
  - unfold Js.bindM, Js.ret. cbn beta iota. by rewrite app_nil_r.
  - unfold Js.bindM, log, Js.modify, Js.ret. by cbn.
Qed.

Lemma cleanupLoop_calls (guildId : string) entries
    (promises : list (Js.Settled unit)) st :
  let run := cleanupLoop guildId entries promises st in
  let on := map fst (List.filter (fun entry => enabled (snd entry)) entries) in
  instances (fst run) = instances st
  /\ exists newCalls : list Call,
       calls (fst run) = calls st ++ newCalls
       /\ Forall (fun c => call_guild c = guildId /\ call_method c = "disable") newCalls
       /\ match snd run with
          | Js.Fulfilled _ =>
              map call_feature newCalls = on
              /\ Forall returned newCalls
              /\ logs (fst run)
                 = logs st ++ map cleanupFailureLog (List.filter callFailed newCalls)
          | Js.Rejected e =>
              exists earlier c skipped,
                newCalls = earlier ++ [c]
                /\ call_outcome c = Threw e
                /\ Forall returned earlier
                /\ on = map call_feature newCalls ++ skipped
          end.
Proof.
  revert promises st. induction entries as [|[featureKey instance] entries IH];
    intros promises st; cbn zeta.
  - split; [done|]. exists []. cbn. by rewrite !app_nil_r.
  - cbn [List.filter snd]. destruct (enabled instance) eqn:Hen.
    + destruct (snd (disable (feature instance) (context instance) [] (world st)))
        as [e|promise] eqn:Hd.
      * rewrite (cleanupLoop_throw _ _ _ _ _ _ e Hen Hd).
        cbn [fst snd instances calls]. split; [done|].
        eexists [_]. split_and!; [done | by repeat constructor |].
        eexists [], _, _. split_and!; [done | done | constructor | done].
      * rewrite (cleanupLoop_call _ _ _ _ _ _ promise Hen Hd).
        match goal with
        | |- context [cleanupLoop guildId entries ?ps ?s] =>
            destruct (IH ps s) as (Hi & newCalls & Hc & Hgm & Hres)
        end.
        cbn zeta in *. cbn [instances calls logs] in Hi, Hc, Hres.
        split; [done|]. eexists (_ :: newCalls). rewrite Hc. split_and!.
        -- by rewrite <- app_assoc.
        -- by constructor.
        -- destruct (snd (cleanupLoop guildId entries _ _)) as [ps|e0].
           ++ destruct Hres as (Hkeys & Hret & Hlogs). split_and!.
              ** cbn. by rewrite Hkeys.
              ** constructor; [by eexists | done].
              ** rewrite Hlogs, <- app_assoc. f_equal. cbn [List.filter].
                 unfold callFailed at 2. cbn [call_outcome].
                 by destruct promise as [[]|e].
           ++ destruct Hres as (earlier & c & skipped & -> & Hthrew & Hret & Hskipped).
              eexists (_ :: earlier), c, skipped. split_and!; [done | done | |].
              ** constructor; [by eexists | done].
              ** cbn. by rewrite <- Hskipped.
    + rewrite (cleanupLoop_skip _ _ _ _ _ _ Hen).
      destruct (IH promises st) as (Hi & newCalls & Hc & Hgm & Hres).
      cbn zeta in *. split; [done|]. by exists newCalls.
Qed.

(** A disable hook that throws instead of returning its promise ends
    the loop with that error, unless an earlier one already did. *)
Lemma cleanupLoop_thrower (guildId : string) entries
    (promises : list (Js.Settled unit)) st (featureKey : string) instance :
  (featureKey, instance) ∈ entries ->
  enabled instance = true ->
  (forall w, exists e,
     snd (disable (feature instance) (context instance) [] w) = Threw e) ->
  exists e, snd (cleanupLoop guildId entries promises st) = Js.Rejected e.
Proof.
  intros Hin Hen Hthrows. revert promises st.
  induction entries as [|[k0 i0] entries IH]; intros promises st.
  - by apply elem_of_nil in Hin.
  - destruct (enabled i0) eqn:Hen0.
    + destruct (snd (disable (feature i0) (context i0) [] (world st)))
        as [e|promise] eqn:Hd.
      * rewrite (cleanupLoop_throw _ _ _ _ _ _ e Hen0 Hd). by eexists.
      * rewrite (cleanupLoop_call _ _ _ _ _ _ promise Hen0 Hd).
        apply elem_of_cons in Hin as [[= <- <-] | Hin]; [|by apply IH].
        destruct (Hthrows (world st)) as [e He]. congruence.
    + rewrite (cleanupLoop_skip _ _ _ _ _ _ Hen0).
      apply elem_of_cons in Hin as [[= <- <-] | Hin]; [congruence | by apply IH].
Qed.

(** Among disable hooks that return their promise the loop runs to
    its end. *)
Lemma cleanupLoop_async (guildId : string) entries
    (promises : list (Js.Settled unit)) st :
  asyncHandlers "disable" entries ->
  exists ps, snd (cleanupLoop guildId entries promises st) = Js.Fulfilled ps.
Proof.
  revert promises st. induction entries as [|[k0 i0] entries IH];
    intros promises st Hasync; [by eexists|].
  apply Forall_cons in Hasync as [Hhead Hasync]. cbn [snd] in Hhead.
  destruct (enabled i0) eqn:Hen0.
  - destruct (Hhead (disable (feature i0)) eq_refl (context i0) [] (world st))
      as [promise Hp].
    rewrite (cleanupLoop_call _ _ _ _ _ _ promise Hen0 Hp). by apply IH.
  - rewrite (cleanupLoop_skip _ _ _ _ _ _ Hen0). by apply IH.
Qed.

(** [cleanupGuild] calls the disable hook of the guild's records that
    are on, in order, and of no other record. When it completes, every
    such hook was called once and returned its promise, each rejected
    promise left one error record in the log, the guild has no records
    left, and the records of the other guilds are as before. It
    completes whenever the disable hooks return their promise, whether
    those are fulfilled or rejected. When the disable hook of a record
    that is on throws instead of returning a promise, the cleanup is
    rejected: it is rejected with the error of the first hook that
    threw, the hooks after that one are not called, and the guild keeps
    all its records. *)
Theorem cleanupGuild_outcome (guildId : string) st :
  let run := cleanupGuild guildId st in
  let records := getGuildFeatures st guildId in
  let on := map fst (List.filter (fun entry => enabled (snd entry)) records) in
  (exists newCalls : list Call,
     calls (fst run) = calls st ++ newCalls
     /\ Forall (fun c => call_guild c = guildId /\ call_method c = "disable") newCalls
     /\ match snd run with
        | Js.Fulfilled _ =>
            map call_feature newCalls = on
            /\ Forall returned newCalls
            /\ instances (fst run) = delete guildId (instances st)
            /\ exists failures,
                 failures ≡ₚ map cleanupFailureLog (List.filter callFailed newCalls)
                 /\ logs (fst run)
                    = logs st
                      ++ match instances st !! guildId with
                         | Some _ =>
                             failures
                             ++ [{| Js.level := Js.LInfo;
                                    Js.msg := "Guild features cleaned up";
                                    Js.fields := [("guildId", guildId)] |}]
                         | None => []
                         end
        | Js.Rejected e =>
            (exists earlier c skipped,
               newCalls = earlier ++ [c]
               /\ call_outcome c = Threw e
               /\ Forall returned earlier
               /\ on = map call_feature newCalls ++ skipped)
            /\ instances (fst run) = instances st
        end)
  /\ (asyncHandlers "disable" records -> snd run = Js.Fulfilled tt)
  /\ (forall featureKey instance,
        (featureKey, instance) ∈ records ->
        enabled instance = true ->
        (forall w, exists e,
           snd (disable (feature instance) (context instance) [] w) = Threw e) ->
        exists e, snd run = Js.Rejected e).
Proof.
  intros run records on. subst run records on.
  unfold cleanupGuild, getGuildFeatures, Js.bindM, Js.gets.
  destruct (instances st !! guildId) as [guildInstances|] eqn:Hg; cbn [default].
  - destruct (cleanupLoop_calls guildId guildInstances [] st)
      as (Hi & newCalls & Hc & Hgm & Hres).
    pose proof (cleanupLoop_thrower guildId guildInstances [] st) as Hthrower.
    cbn zeta in *.
    destruct (cleanupLoop guildId guildInstances [] st) as [st' [ps|e]] eqn:Hloop;
      cbn [fst snd] in *.
    + split_and!.
      * exists newCalls. cbn. destruct Hres as (Hkeys & Hret & Hlogs).
        rewrite Hi, Hlogs. split_and!; try done.
        eexists. split; [reflexivity|]. by rewrite <- app_assoc.
      * done.
      * intros featureKey instance Hin Hen Hthrows.
        destruct (Hthrower featureKey instance Hin Hen Hthrows) as [e He]. done.
    + split_and!.
      * by exists newCalls.
      * intros Hasync.
        destruct (cleanupLoop_async guildId guildInstances [] st Hasync) as [ps Hps].
        rewrite Hloop in Hps. done.
      * intros. by eexists.
  - cbn. split_and!.
    + exists []. rewrite !app_nil_r. split_and!; try done.
      * symmetry. by apply delete_id.
      * by exists [].
    + done.
    + intros featureKey instance Hin. by apply elem_of_nil in Hin.
Qed.

(** *** Initialising a guild *)






(** *** Records stay under their capability's key *)

Lemma handleEvent_instances (guildId eventName : string) (args : list string) st :
  instances (fst (handleEvent guildId eventName args st)) = instances st.
Proof.
  unfold handleEvent, Js.bindM, Js.gets.
  destruct (instances st !! guildId) as [guildInstances|]; [|done].
  destruct (handleEventLoop_calls guildId eventName args guildInstances [] st)
    as (Hi & _).
  cbn zeta in Hi.
  by destruct (handleEventLoop guildId eventName args guildInstances [] st)
    as [st' [ps|e]].
Qed.

Lemma cleanupGuild_instances (guildId : string) st :
  instances (fst (cleanupGuild guildId st)) = instances st
  \/ instances (fst (cleanupGuild guildId st)) = delete guildId (instances st).
Proof.
  unfold cleanupGuild, Js.bindM, Js.gets.
  destruct (instances st !! guildId) as [guildInstances|]; [|by left].
  destruct (cleanupLoop_calls guildId guildInstances [] st) as (Hi & _).
  cbn zeta in Hi.
  destruct (cleanupLoop guildId guildInstances [] st) as [st' [ps|e]];
    cbn in *; [right | left]; by rewrite Hi.
Qed.

Lemma disableFeature_instances (guildId featureKey : string) st :
  instances (fst (disableFeature guildId featureKey st)) = instances st
  \/ exists entries instance,
       instances st !! guildId = Some entries
       /\ OMap.get entries featureKey = Some instance
       /\ instances (fst (disableFeature guildId featureKey st))
          = <[guildId := OMap.set entries featureKey (setInstanceEnabled instance false)]>
              (instances st).
Proof.
  destruct (instances st !! guildId) as [entries|] eqn:Hg.
  2: { left. unfold disableFeature, Js.tryCatch, Js.bindM, Js.gets. by rewrite Hg. }
  destruct (OMap.get entries featureKey) as [instance|] eqn:Hk.
  2: { left. unfold disableFeature, Js.tryCatch, Js.bindM, Js.gets. by rewrite Hg, Hk. }
  destruct (enabled instance) eqn:Hen.
  2: { left. unfold disableFeature, Js.tryCatch, Js.bindM, Js.gets.
       by rewrite Hg, Hk, Hen. }
  rewrite (disableFeature_hook guildId featureKey st entries instance Hg Hk Hen).
  destruct (completed _); [right | by left]. by exists entries, instance.
Qed.

(** The runtime records are kept under the key of their capability:
    when every record of a store is stored under the key its feature
    declares, this is still so after any operation of the loader on
    it, so that looking a record up by key gives a record of the
    feature with that key. The loader starts without records, where
    this holds. *)
Theorem wellKeyed_preserved st :
  wellKeyed st ->
  (forall now features guild,
     wellKeyed (fst (initializeGuildFeatures now features guild st)))
  /\ (forall licenses now guildId featureKey,
        wellKeyed (fst (enableFeature licenses now guildId featureKey st)))
  /\ (forall guildId featureKey, wellKeyed (fst (disableFeature guildId featureKey st)))
  /\ (forall guildId eventName args,
        wellKeyed (fst (handleEvent guildId eventName args st)))
  /\ (forall guildId, wellKeyed (fst (cleanupGuild guildId st)))
  /\ (forall guildId featureKey instance,
        getFeatureInstance st guildId featureKey = Some instance ->
        key (config (feature instance)) = featureKey).
Proof.
  intros Hst. split_and!.
  - intros. by apply initializeGuildFeatures_wellKeyed.
  - intros. by apply enableFeature_wellKeyed.
  - intros guildId featureKey g entries'.
    destruct (disableFeature_instances guildId featureKey st)
      as [-> | (entries & instance & Hg & Hk & ->)]; [apply Hst|].
    rewrite lookup_insert. case_decide; [|apply Hst].
    intros [= <-]. apply OMap_set_keyed; [by apply (Hst guildId)|].
    cbn. by apply (OMap_get_keyed entries); [apply (Hst guildId)|].
  - intros guildId eventName args g entries'. rewrite handleEvent_instances. apply Hst.
  - intros guildId g entries'.
    destruct (cleanupGuild_instances guildId st) as [-> | ->]; [apply Hst|].
    intros [_ H]%lookup_delete_Some. by apply (Hst g).
  - intros guildId featureKey instance. unfold getFeatureInstance.
    destruct (instances st !! guildId) as [entries|] eqn:Hg; [|done].
    apply OMap_get_keyed. by apply (Hst guildId).
Qed.

End LoaderLifecycle.

(** ** The further properties on the sample data *)

(** Once the license of guild [g1] is registered, the guild has
    premium access. *)
Lemma hasPremiumAccess_reachable_witness :
  License.hasPremiumAccess (snd (License.registerLicense ∅ 0 moderationLicenseObject)) 5 "g1"
  = true
  <-> is_Some (snd (License.registerLicense ∅ 0 moderationLicenseObject) !! "g1").
Proof.
  apply hasPremiumAccess_reachable. apply reach_register, reach_empty.
Defined.

(** Registering [ping] in a registry without commands and removing it
    again leaves the registry without commands, aliases and
    cooldowns. *)
Lemma register_then_deregister_witness :
  let run1 := Registry.register plainBuilder pingCommand emptyStore in
  let run2 := Registry.deregister "ping" (fst run1) in
  snd run1 = Js.Fulfilled true
  /\ snd run2 = Js.Fulfilled true
  /\ Registry.registry (fst run2) = Registry.empty.
Proof.
  apply (register_then_deregister plainBuilder pingCommand emptyStore).
  - reflexivity.
  - reflexivity.
  - reflexivity.
  - reflexivity.
  - intros alias _. apply lookup_empty.
Defined.

(** At time 3500 the cooldown of [ping] has 2500 ms left; the advice of
    3 seconds is enough, and is less than a second too long. *)
Lemma cooldown_message_suffices_witness :
  let remaining := Registry.isOnCooldown cooledRegistry 3500 "ping" "u1" in
  remaining <= Executor.ceilSeconds remaining * 1000 < remaining + 1000
  /\ Registry.isOnCooldown cooledRegistry
       (3500 + Executor.ceilSeconds remaining * 1000) "ping" "u1" = 0
  /\ (forall t, t < 3500 + remaining ->
        0 < Registry.isOnCooldown cooledRegistry t "ping" "u1").
Proof.
  apply (cooldown_message_suffices cooledRegistry 3500 "ping" "u1").
  vm_compute. reflexivity.
Defined.

(** With [OWNER_IDS] set to [u1,u2], the invoker [u1] of the sample
    interaction is an owner. *)
Lemma owners_from_environment_witness :
  (Registry.isOwner
     (Registry.user
        (Executor.createCommandContext ∅ (Some (Parser.join "," ["u1"; "u2"]))
           (clockAt 0) pingInteraction)) = true
   <-> Executor.id (Executor.user pingInteraction) ∈ ["u1"; "u2"])
  /\ Registry.isOwner
       (Registry.user (Executor.createCommandContext ∅ None (clockAt 0) pingInteraction))
     = false.
Proof.
  apply (owners_from_environment ∅ (clockAt 0) pingInteraction ["u1"; "u2"]).
  - discriminate.
  - repeat constructor.
Defined.



(** The fresh records of guild [g1] are under the key of their
    capability, and stay so. *)
Lemma wellKeyed_preserved_witness :
  (forall now features guild,
     wellKeyed (fst (Loader.initializeGuildFeatures now features guild freshStore)))
  /\ (forall licenses now guildId featureKey,
        wellKeyed (fst (Loader.enableFeature licenses now guildId featureKey freshStore)))
  /\ (forall guildId featureKey,
        wellKeyed (fst (Loader.disableFeature guildId featureKey freshStore)))
  /\ (forall guildId eventName args,
        wellKeyed (fst (Loader.handleEvent guildId eventName args freshStore)))
  /\ (forall guildId, wellKeyed (fst (Loader.cleanupGuild guildId freshStore)))
  /\ (forall guildId featureKey instance,
        Loader.getFeatureInstance freshStore guildId featureKey = Some instance ->
        Loader.key (Loader.config (Loader.feature instance)) = featureKey).
Proof.
  apply (wellKeyed_preserved freshStore).
  intros guildId entries Hg.
  change (({["g1" := freshEntries]} : gmap string _) !! guildId = Some entries) in Hg.
  apply lookup_singleton_Some in Hg as [<- <-]. repeat constructor.
Defined.
